(** * Workflow validation and safe execution

    A shallow embedding of [backend/app/workflow/validator.py] and
    [backend/app/workflow/executor_safe.py], followed by the properties the
    specification states about them.

    Python values are JSON-like trees; dictionaries are association lists in
    insertion order (CPython keeps insertion order, and the executor depends
    on it when it iterates over [nodes_meta.items()]).  The clock, the shared
    LLM semaphore and the node components are effects: the clock and the
    components are read from an environment, the semaphore is threaded
    through as explicit state. *)

From Stdlib Require Import String List ZArith QArith Lia Bool Arith PeanoNat.
Import ListNotations.
Open Scope string_scope.
Open Scope list_scope.
Open Scope nat_scope.

Set Implicit Arguments.

(** ** Python values *)

#[warnings="-register-all"]
Inductive value : Type :=
| VNone
| VBool (b : bool)
| VInt (z : Z)
| VFloat (q : Q)
| VStr (s : string)
| VList (l : list value)
| VDict (d : list (string * value)).

(** ** Dictionaries keyed by strings, in insertion order *)

Module Dict.

Definition dict (V : Type) := list (string * V).

Section Ops.
Context {V : Type}.

(** [d.get(k)] *)
Fixpoint get (k : string) (d : dict V) : option V :=
match d with
| [] => None
| (k', v) :: rest => if String.eqb k k' then Some v else get k rest
end.

(** [k in d] *)
Definition mem (k : string) (d : dict V) : bool :=
match get k d with Some _ => true | None => false end.

(** [d[k] = v]: an existing key keeps its position, a new key goes last. *)
Fixpoint set (k : string) (v : V) (d : dict V) : dict V :=
match d with
| [] => [(k, v)]
| (k', v') :: rest =>
    if String.eqb k k' then (k', v) :: rest else (k', v') :: set k v rest
end.

(** [d[k] = f(d[k])] for a key that is present (the source only does this
  on keys it has created; on an absent key Python raises [KeyError], the
  model leaves the dictionary as it is). *)
Definition adjust (f : V -> V) (k : string) (d : dict V) : dict V :=
map (fun kv => if String.eqb k (fst kv) then (fst kv, f (snd kv)) else kv) d.

(** [list(d.keys())] *)
Definition keys (d : dict V) : list string := map fst d.

(** [d1.update(d2)] *)
Definition update (d1 d2 : dict V) : dict V :=
fold_left (fun acc kv => set (fst kv) (snd kv) acc) d2 d1.

(** [{k: v0 for k in ks}] *)
Definition from_keys (ks : list string) (v0 : V) : dict V :=
fold_left (fun acc k => set k v0 acc) ks [].
End Ops.

End Dict.
Import Dict.

(** ** Components, clock and semaphore *)

(** The classes of [COMPONENT_MAP]. *)
Inductive Component : Type :=
| UserQueryComponent
| KnowledgeBaseComponent
| LLMEngineComponent
| OutputComponent.

Definition COMPONENT_MAP (node_type : string) : option Component :=
  if String.eqb node_type "user_query" then Some UserQueryComponent
  else if String.eqb node_type "knowledge_base" then Some KnowledgeBaseComponent
  else if String.eqb node_type "llm_engine" then Some LLMEngineComponent
  else if String.eqb node_type "output" then Some OutputComponent
  else None.

(** What [future.result(timeout=timeout)] observes of [node_obj.run(inputs)]:
    a returned value, an exception ([msg] is [str(exc)]), or [TimeoutError]
    (no result within the timeout).  After a timeout the [with] block waits
    for the worker, so the call goes on only when [run] has ended; a [run]
    that never ends, and an exception that is no [Exception], are not among
    the cases. *)
Inductive Behaviour : Type :=
| Returns (v : value)
| Raises (msg : string)
| Overruns.

(** The environment of one run.  [perf_counter n] and [utcnow_isoformat n]
    are the n-th readings of the clock.  [component_init cls id config] is
    what the constructor call [cls(id=id, config=config)] does: [None] when
    it returns the instance, [Some exc] when it raises, [exc] being the text
    of the exception (as it does for the classes of [app/workflow], whose
    [__init__] takes [config] only).  [component_run cls id
    config inputs] is the behaviour of [run(inputs)] on that instance;
    components build a fresh dictionary for their result and leave [inputs]
    as it is, as the contract of [Component] in [workflow/base.py] has it. *)
Record Env : Type := {
  perf_counter : nat -> Q;
  utcnow_isoformat : nat -> string;
  component_init : Component -> string -> value -> option string;
  component_run : Component -> string -> value -> dict value -> Behaviour
}.

Inductive SemEvent : Type := Acquired | Released.

(** The state shared with the outside of a run: the free permits of
    [_llm_semaphore], the number of clock readings so far, and the history of
    semaphore operations (kept for the statements only). *)
Record World : Type := {
  permits : nat;
  clock_reads : nat;
  sem_history : list SemEvent
}.

Definition LLM_CONCURRENCY_LIMIT : nat := 4.

Definition read_perf_counter (env : Env) (w : World) : Q * World :=
  (perf_counter env (clock_reads w),
   {| permits := permits w; clock_reads := S (clock_reads w);
      sem_history := sem_history w |}).

Definition read_utcnow (env : Env) (w : World) : string * World :=
  (utcnow_isoformat env (clock_reads w),
   {| permits := permits w; clock_reads := S (clock_reads w);
      sem_history := sem_history w |}).

(** [_llm_semaphore.acquire(timeout=timeout)]: takes a permit when one is
    free; otherwise the wait runs into its bound and the call returns
    [False]. *)
Definition sem_acquire (w : World) : bool * World :=
  match permits w with
  | O => (false, w)
  | S p => (true, {| permits := p; clock_reads := clock_reads w;
                     sem_history := sem_history w ++ [Acquired] |})
  end.

(** [_llm_semaphore.release()] *)
Definition sem_release (w : World) : World :=
  {| permits := S (permits w); clock_reads := clock_reads w;
     sem_history := sem_history w ++ [Released] |}.

(** A call that returns [a] or raises an exception whose [str] is [msg]. *)
Inductive result (A : Type) : Type :=
| Ok (a : A)
| Exc (msg : string).
Arguments Ok {A} a.
Arguments Exc {A} msg.

Definition is_llm_component (cls : Component) : bool :=
  match cls with LLMEngineComponent => true | _ => false end.

(** ** [_safe_run_node] *)

Definition _safe_run_node (env : Env) (cls : Component) (id : string)
    (config : value) (inputs : dict value) (w : World)
  : result (dict value) * World :=
  let is_llm := is_llm_component cls in
  let (start, w1) := read_perf_counter env w in
  let (acquired, w2) := if is_llm then sem_acquire w1 else (true, w1) in
  if negb acquired then
    (Exc "Could not acquire LLM semaphore (too many concurrent LLM calls)", w2)
  else
    (* try: ... finally: release *)
    let outcome := component_run env cls id config inputs in
    let w3 := if is_llm then sem_release w2 else w2 in
    match outcome with
    | Overruns => (Exc "Node execution timed out", w3)
    | Raises msg => (Exc msg, w3)
    | Returns v =>
        let (stop, w4) := read_perf_counter env w3 in
        let duration := Qminus stop start in
        match v with
        | VDict d => (Ok (set "_exec_duration" (VFloat duration) d), w4)
        | _ => (Exc "Node did not return a dict", w4)
        end
    end.

(** ** The validator ([validator.py]) *)

(** An f-string, kept as its parts: rendering a hole is Python's [str()],
    which no statement below depends on. *)
Inductive fpart : Type :=
| Lit (s : string)
| Hole (v : value).

Definition fstring := list fpart.

Record ValidationErrorItem : Type := {
  field : fstring;
  message : fstring
}.

Definition item (f m : string) : ValidationErrorItem :=
  {| field := [Lit f]; message := [Lit m] |}.

Definition NODE_TYPES : list string :=
  ["user_query"; "knowledge_base"; "llm_engine"; "output"].

Definition MAX_NODES : nat := 50.
Definition MAX_EDGES : nat := 200.

Definition mem_str (s : string) (l : list string) : bool :=
  existsb (String.eqb s) l.

(** [workflow.get(key, [])] on a definition that passed [validate_shape]:
    an object whose ["nodes"] and ["edges"] hold lists.  [validate_workflow]
    calls the later phases on such definitions only; on other values the
    source takes [len()] of what the key holds and iterates it. *)
Definition get_list (key : string) (workflow : value) : list value :=
  match workflow with
  | VDict d => match get key d with Some (VList l) => l | _ => [] end
  | _ => []
  end.

Definition has_list (key : string) (d : dict value) : bool :=
  match get key d with Some (VList _) => true | _ => false end.

Definition validate_shape (workflow : value) : list ValidationErrorItem :=
  match workflow with
  | VDict d =>
      (if has_list "nodes" d then [] else [item "nodes" "Missing 'nodes' list"])
      ++ (if has_list "edges" d then [] else [item "edges" "Missing 'edges' list"])
  | _ => [item "workflow" "Workflow must be a JSON object"]
  end.

(** The outcome of a validator function: it returns, or a [TypeError]
    escapes from it ([x in NODE_TYPES] hashes [x], and lists and dicts are
    unhashable). *)
Inductive attempt (A : Type) : Type :=
| Completed (a : A)
| TypeError.
Arguments Completed {A} a.
Arguments TypeError {A}.

Definition hashable (v : value) : bool :=
  match v with
  | VList _ | VDict _ => false
  | _ => true
  end.

(** [x.get(key)], with Python's [None] for an absent key. *)
Definition get_or_none (key : string) (d : dict value) : value :=
  match get key d with Some v => v | None => VNone end.

(** [not v or not isinstance(v, str)] is false exactly on non-empty strings. *)
Definition nonempty_str (v : value) : option string :=
  match v with
  | VStr s => if String.eqb s "" then None else Some s
  | _ => None
  end.

Definition idx_field (pre : string) (idx : nat) (post : string) : fstring :=
  [Lit pre; Hole (VInt (Z.of_nat idx)); Lit post].

(** One iteration of the loop over [enumerate(nodes)]: the set of ids seen so
    far and the errors appended by this iteration. *)
Definition check_node (idx : nat) (n : value) (ids : list string)
  : attempt (list string * list ValidationErrorItem) :=
  match n with
  | VDict nd =>
      let nid := get_or_none "id" nd in
      let ntype := get_or_none "type" nd in
      let '(ids', e_id) :=
        match nonempty_str nid with
        | None =>
            (ids, [{| field := idx_field "nodes[" idx "].id";
                      message := [Lit "Node must have a string 'id'"] |}])
        | Some s =>
            if mem_str s ids
            then (ids, [{| field := idx_field "nodes[" idx "].id";
                           message := [Lit "Duplicate node id '"; Hole nid; Lit "'"] |}])
            else (ids ++ [s], [])
        end in
      if negb (hashable ntype) then TypeError
      else
        let e_type :=
          match ntype with
          | VStr t =>
              if mem_str t NODE_TYPES then []
              else [{| field := idx_field "nodes[" idx "].type";
                       message := [Lit "Invalid or missing node type '"; Hole ntype; Lit "'"] |}]
          | _ => [{| field := idx_field "nodes[" idx "].type";
                     message := [Lit "Invalid or missing node type '"; Hole ntype; Lit "'"] |}]
          end in
        let e_config :=
          match get "config" nd with
          | None | Some (VDict _) => []
          | Some _ => [{| field := idx_field "nodes[" idx "].config";
                          message := [Lit "Config must be an object"] |}]
          end in
        (* REQUIRED_NODE_CONFIG lists no key for any type: the inner loop
           over [required] never runs *)
        Completed (ids', e_id ++ e_type ++ e_config)
  | _ =>
      Completed (ids, [{| field := idx_field "nodes[" idx "]";
                          message := [Lit "Node must be an object"] |}])
  end.

Fixpoint check_nodes (idx : nat) (nodes : list value) (ids : list string)
    (errors : list ValidationErrorItem)
  : attempt (list string * list ValidationErrorItem) :=
  match nodes with
  | [] => Completed (ids, errors)
  | n :: rest =>
      match check_node idx n ids with
      | TypeError => TypeError
      | Completed (ids', es) => check_nodes (S idx) rest ids' (errors ++ es)
      end
  end.

Definition check_endpoint (idx : nat) (key : string) (v : value)
    (node_ids : list string) : list ValidationErrorItem :=
  match nonempty_str v with
  | None => [{| field := idx_field "edges[" idx (String.append "]." key);
                message := [Lit "Missing/invalid '"; Lit key; Lit "'"] |}]
  | Some s =>
      if mem_str s node_ids then []
      else [{| field := idx_field "edges[" idx (String.append "]." key);
               message := [Lit "Unknown node id '"; Hole v; Lit "'"] |}]
  end.

Definition check_edge (idx : nat) (e : value) (node_ids : list string)
  : list ValidationErrorItem :=
  match e with
  | VDict ed =>
      check_endpoint idx "from" (get_or_none "from" ed) node_ids
      ++ check_endpoint idx "to" (get_or_none "to" ed) node_ids
  | _ => [{| field := idx_field "edges[" idx "]";
             message := [Lit "Edge must be an object with 'from' and 'to'"] |}]
  end.

Fixpoint check_edges (idx : nat) (edges : list value) (node_ids : list string)
  : list ValidationErrorItem :=
  match edges with
  | [] => []
  | e :: rest => check_edge idx e node_ids ++ check_edges (S idx) rest node_ids
  end.

Definition validate_nodes_and_edges (workflow : value)
  : attempt (list ValidationErrorItem) :=
  let nodes := get_list "nodes" workflow in
  let edges := get_list "edges" workflow in
  let e_nodes :=
    if MAX_NODES <? length nodes
    then [{| field := [Lit "nodes"];
             message := [Lit "Too many nodes (max "; Hole (VInt (Z.of_nat MAX_NODES)); Lit ")"] |}]
    else [] in
  let e_edges :=
    if MAX_EDGES <? length edges
    then [{| field := [Lit "edges"];
             message := [Lit "Too many edges (max "; Hole (VInt (Z.of_nat MAX_EDGES)); Lit ")"] |}]
    else [] in
  match check_nodes 0 nodes [] (e_nodes ++ e_edges) with
  | TypeError => TypeError
  | Completed (ids, errors) => Completed (errors ++ check_edges 0 edges ids)
  end.

(** ** Definitions that passed the first two phases

    After [validate_shape] and [validate_nodes_and_edges] have found nothing,
    every node is an object whose ["id"] and ["type"] are strings and every
    edge is an object whose ["from"] and ["to"] are strings (lemma
    [structural_view] below), so the subscripts [n["id"]], [n["type"]],
    [e["from"]], [e["to"]] and [n.get("config", {})] of the later code are
    total; they are read here as the fields of a record. *)

Record Node : Type := {
  node_id : string;
  node_type : string;
  node_config : value
}.

Record Edge : Type := {
  edge_from : string;
  edge_to : string
}.

Record Workflow : Type := {
  nodes : list Node;
  edges : list Edge
}.

Definition str_of (v : value) : string :=
  match v with VStr s => s | _ => "" end.

Definition node_of (n : value) : Node :=
  match n with
  | VDict nd =>
      {| node_id := str_of (get_or_none "id" nd);
         node_type := str_of (get_or_none "type" nd);
         node_config := match get "config" nd with Some c => c | None => VDict [] end |}
  | _ => {| node_id := ""; node_type := ""; node_config := VDict [] |}
  end.

Definition edge_of (e : value) : Edge :=
  match e with
  | VDict ed =>
      {| edge_from := str_of (get_or_none "from" ed);
         edge_to := str_of (get_or_none "to" ed) |}
  | _ => {| edge_from := ""; edge_to := "" |}
  end.

Definition workflow_of (workflow : value) : Workflow :=
  {| nodes := map node_of (get_list "nodes" workflow);
     edges := map edge_of (get_list "edges" workflow) |}.

(** ** Graph helpers shared by the validator and the executor *)

(** [adj = {nid: [] for nid in ids}] followed by
    [for e in edges: adj[e["from"]].append(e["to"])]. *)
Definition build_adj (ids : list string) (es : list Edge) : dict (list string) :=
  fold_left (fun adj e => adjust (fun l => l ++ [edge_to e]) (edge_from e) adj)
            es (from_keys ids []).

(** [parents = {nid: [] for nid in ids}] followed by
    [for e in edges: parents[e["to"]].append(e["from"])]. *)
Definition build_parents (ids : list string) (es : list Edge) : dict (list string) :=
  fold_left (fun par e => adjust (fun l => l ++ [edge_from e]) (edge_to e) par)
            es (from_keys ids []).

(** [incoming = {nid: 0 for nid in ids}] followed by
    [for e in edges: incoming[e["to"]] += 1]. *)
Definition build_incoming (ids : list string) (es : list Edge) : dict Z :=
  fold_left (fun inc e => adjust (fun c => (c + 1)%Z) (edge_to e) inc)
            es (from_keys ids 0%Z).

Definition build_outgoing (ids : list string) (es : list Edge) : dict Z :=
  fold_left (fun out e => adjust (fun c => (c + 1)%Z) (edge_from e) out)
            es (from_keys ids 0%Z).

(** [d[k]] for a list-valued dictionary, on a key the source has created. *)
Definition get_list_of (k : string) (d : dict (list string)) : list string :=
  match get k d with Some l => l | None => [] end.

Definition is_zero (k : string) (incoming : dict Z) : bool :=
  match get k incoming with Some c => Z.eqb c 0 | None => false end.

(** The body of [for m in adj[n]]: decrement, and enqueue on reaching zero. *)
Definition relax (st : dict Z * list string) (m : string) : dict Z * list string :=
  let incoming := adjust (fun c => (c - 1)%Z) m (fst st) in
  if is_zero m incoming then (incoming, snd st ++ [m]) else (incoming, snd st).

(** The [while queue:] loop of Kahn's algorithm, the same text in
    [detect_cycles_and_toposort] and in [execute_workflow_safe].  It returns
    [topo] and what is left of the queue: the loop has come to its end when
    the latter is empty (lemma [kahn_loop_ends]). *)
Fixpoint kahn_loop (fuel : nat) (adj : dict (list string)) (incoming : dict Z)
    (queue topo : list string) : list string * list string :=
  match queue with
  | [] => (topo, [])
  | n :: queue' =>
      match fuel with
      | O => (topo, queue)
      | S fuel' =>
          let st := fold_left relax (get_list_of n adj) (incoming, queue') in
          kahn_loop fuel' adj (fst st) (snd st) (topo ++ [n])
      end
  end.

(** Iterations the loop can still make: every iteration dequeues one node,
    and a node is enqueued only when its positive counter reaches zero. *)
Definition kahn_fuel (incoming : dict Z) (queue : list string) : nat :=
  length queue + length (filter (fun kv => Z.ltb 0 (snd kv)) incoming).

Definition kahn (adj : dict (list string)) (incoming : dict Z)
    (queue : list string) : list string :=
  fst (kahn_loop (kahn_fuel incoming queue) adj incoming queue []).

(** ** Graph phase of the validator *)

(** Python sets are modelled as duplicate-free lists; their iteration order
    is not specified by Python and nothing below depends on it. *)
Definition set_of (l : list string) : list string := nodup string_dec l.

Definition find_roots_and_leaves (w : Workflow) : list string * list string :=
  let node_ids := set_of (map node_id (nodes w)) in
  let incoming := build_incoming node_ids (edges w) in
  let outgoing := build_outgoing node_ids (edges w) in
  (map fst (filter (fun kv => Z.eqb (snd kv) 0) incoming),
   map fst (filter (fun kv => Z.eqb (snd kv) 0) outgoing)).

Definition detect_cycles_and_toposort (w : Workflow)
  : list string * list ValidationErrorItem :=
  let node_ids := map node_id (nodes w) in
  let incoming := build_incoming node_ids (edges w) in
  let adj := build_adj node_ids (edges w) in
  let queue := filter (fun nid => is_zero nid incoming) node_ids in
  let topo := kahn adj incoming queue in
  (topo,
   if Nat.eqb (length topo) (length node_ids) then []
   else [item "workflow" "Cycle detected in workflow (graph is not a DAG)"]).

(** The traversal [while stack: cur = stack.pop() ...] of [validate_workflow];
    the top of the stack is the head of the list. *)
Fixpoint reach_loop (fuel : nat) (adj : dict (list string))
    (stack reachable : list string) : list string * list string :=
  match stack with
  | [] => (reachable, [])
  | cur :: rest =>
      match fuel with
      | O => (reachable, stack)
      | S fuel' =>
          if mem_str cur reachable then reach_loop fuel' adj rest reachable
          else
            let reachable' := reachable ++ [cur] in
            let stack' :=
              fold_left (fun stk nb => if mem_str nb reachable' then stk else nb :: stk)
                        (get_list_of cur adj) rest in
            reach_loop fuel' adj stack' reachable'
      end
  end.

Definition reach_fuel (adj : dict (list string)) (stack reachable : list string) : nat :=
  length stack
  + list_sum (map (fun kv => length (snd kv))
                  (filter (fun kv => negb (mem_str (fst kv) reachable)) adj)).

Definition reachable_from (adj : dict (list string)) (start : string) : list string :=
  fst (reach_loop (reach_fuel adj [start] []) adj [start] []).

Definition ids_of_type (ty : string) (types_by_id : dict string) : list string :=
  map fst (filter (fun kv => String.eqb (snd kv) ty) types_by_id).

(** The part of [validate_workflow] after its two early exits.  The call of
    [find_roots_and_leaves] made there has no effect: its result is not
    used. *)
Definition graph_checks (w : Workflow) (require_single_user_query : bool)
  : list ValidationErrorItem :=
  let types_by_id :=
    fold_left (fun d n => set (node_id n) (node_type n) d) (nodes w) [] in
  let user_query_nodes := ids_of_type "user_query" types_by_id in
  let output_nodes := ids_of_type "output" types_by_id in
  let e_entry :=
    if require_single_user_query && negb (Nat.eqb (length user_query_nodes) 1)
    then [item "user_query" "Workflow must contain exactly one 'user_query' node"]
    else [] in
  let e_output :=
    if Nat.ltb (length output_nodes) 1
    then [item "output" "Workflow must contain at least one 'output' node"]
    else [] in
  let e_conn :=
    match user_query_nodes with
    | [] => []
    | start :: _ =>
        let adj := build_adj (map node_id (nodes w)) (edges w) in
        let reachable := reachable_from adj start in
        let node_ids := set_of (map node_id (nodes w)) in
        let unreachable := filter (fun nid => negb (mem_str nid reachable)) node_ids in
        match unreachable with
        | [] => []
        | _ => [{| field := [Lit "connectivity"];
                   message := [Lit "Unreachable nodes from user_query: ";
                               Hole (VList (map VStr unreachable))] |}]
        end
    end in
  let cycle_errors := snd (detect_cycles_and_toposort w) in
  e_entry ++ e_output ++ e_conn ++ cycle_errors.

(** How a call of [validate_workflow] ends. *)
Inductive Validation : Type :=
| Passed
| WorkflowValidationError (errors : list ValidationErrorItem)
| ValidatorTypeError.

Definition raise_if_errors (errors : list ValidationErrorItem)
    (otherwise : Validation) : Validation :=
  match errors with
  | [] => otherwise
  | _ => WorkflowValidationError errors
  end.

Definition validate_workflow (workflow : value) (require_single_user_query : bool)
  : Validation :=
  raise_if_errors (validate_shape workflow)
    match validate_nodes_and_edges workflow with
    | TypeError => ValidatorTypeError
    | Completed errors =>
        raise_if_errors errors
          (raise_if_errors
             (graph_checks (workflow_of workflow) require_single_user_query)
             Passed)
    end.

(** ** The executor ([executor_safe.py]) *)

(** The mutable locals of one run: [context_map], [trace], the shared world,
    and the calls of [_safe_run_node] made so far with the inputs they were
    given (the last is kept for the statements only). *)
Record RunState : Type := {
  context_map : dict (dict value);
  trace : list (dict value);
  world : World;
  dispatched : list (string * dict value)
}.

(** The two dictionaries [execute_workflow_safe] returns: the one with the
    key ["error"] and the one with the key ["result"]. *)
Inductive Response : Type :=
| Failure (node_id node_type error_message : string) (trace : list (dict value))
| Success (result : dict value) (trace : list (dict value)).

(** How a call of [execute_workflow_safe] ends; a returned response comes
    with the locals at the moment of the [return], the exception of a
    constructor with the locals at the moment it is raised ([trace] is the
    caller's list when one was passed, the semaphore is shared).
    [RaisedTypeError] is the [TypeError] of the validator's membership test;
    the exception of a constructor of the imported classes is a [TypeError]
    too. *)
Inductive Outcome : Type :=
| RaisedValidationError (errors : list ValidationErrorItem)
| RaisedTypeError
| RaisedNodeExecutionError (msg : string)
| RaisedKeyError
| RaisedByConstructor (exc : string) (final : RunState)
| Returned (r : Response) (final : RunState).

(** How one iteration of [for node_id in topo] ends. *)
Inductive Step : Type :=
| Next (st : RunState)
| Return (r : Response) (st : RunState)
| KeyError
| ConstructorRaised (exc : string) (st : RunState).

(** [context_map.get(p, {}) or {}] *)
Definition recorded (p : string) (ctx : dict (dict value)) : dict value :=
  match get p ctx with Some d => d | None => [] end.

(** Input assembly of one node. *)
Definition collect_inputs (parents : dict (list string)) (node_id : string)
    (ctx : dict (dict value)) : dict value :=
  match get node_id parents with
  | Some (p :: ps) =>
      fold_left (fun inputs p' => update inputs (recorded p' ctx)) (p :: ps) []
  | _ => recorded node_id ctx
  end.

Definition new_entry (node_id node_type started_at : string) : dict value :=
  [("node_id", VStr node_id);
   ("node_type", VStr node_type);
   ("started_at", VStr (String.append started_at "Z"))].

(** The body of [for node_id in topo].  [entry] is the object appended to
    [trace] before the call, so [entry.update(...)] changes the last slot of
    [trace]. *)
Definition run_node (env : Env) (nodes_meta : dict Node)
    (parents : dict (list string)) (node_id : string) (st : RunState) : Step :=
  match get node_id nodes_meta with
  | None => KeyError
  | Some node_meta =>
      let node_type := node_type node_meta in
      match COMPONENT_MAP node_type with
      | None => Next st
      | Some node_cls =>
          match component_init env node_cls node_id (node_config node_meta) with
          | Some exc => ConstructorRaised exc st
          | None =>
          let inputs := collect_inputs parents node_id (context_map st) in
          let (now, w1) := read_utcnow env (world st) in
          let entry := new_entry node_id node_type now in
          let (node_start, w2) := read_perf_counter env w1 in
          let (res, w3) :=
            _safe_run_node env node_cls node_id (node_config node_meta) inputs w2 in
          match res with
          | Ok output =>
              let (node_end, w4) := read_perf_counter env w3 in
              let duration := Qminus node_end node_start in
              let entry' :=
                update entry [("status", VStr "success");
                              ("duration_seconds", VFloat duration);
                              ("output_keys", VList (map VStr (keys output)))] in
              Next {| context_map := set node_id output (context_map st);
                      trace := trace st ++ [entry'];
                      world := w4;
                      dispatched := dispatched st ++ [(node_id, inputs)] |}
          | Exc msg =>
              let entry' :=
                update entry [("status", VStr "error"); ("error", VStr msg)] in
              let st' := {| context_map := context_map st;
                            trace := trace st ++ [entry'];
                            world := w3;
                            dispatched := dispatched st ++ [(node_id, inputs)] |} in
              Return (Failure node_id node_type msg (trace st')) st'
          end
          end
      end
  end.

Fixpoint run_nodes (env : Env) (nodes_meta : dict Node)
    (parents : dict (list string)) (topo : list string) (st : RunState) : Step :=
  match topo with
  | [] => Next st
  | node_id :: rest =>
      match run_node env nodes_meta parents node_id st with
      | Next st' => run_nodes env nodes_meta parents rest st'
      | stop => stop
      end
  end.

Definition build_nodes_meta (ns : list Node) : dict Node :=
  fold_left (fun d n => set (node_id n) n d) ns [].

Definition nodes_of_type (ty : string) (nodes_meta : dict Node) : list string :=
  map fst (filter (fun kv => String.eqb (node_type (snd kv)) ty) nodes_meta).

(** The topological order as [execute_workflow_safe] recomputes it. *)
Definition executor_topo (w : Workflow) : list string :=
  let nodes_meta := build_nodes_meta (nodes w) in
  let adj := build_adj (keys nodes_meta) (edges w) in
  let incoming := build_incoming (keys nodes_meta) (edges w) in
  let queue := map fst (filter (fun kv => Z.eqb (snd kv) 0) incoming) in
  kahn adj incoming queue.

(** [execute_workflow_safe] from the line after the validation. *)
Definition run_validated (env : Env) (w : Workflow) (user_query : string)
    (trace0 : list (dict value)) (w0 : World) : Outcome :=
  let nodes_meta := build_nodes_meta (nodes w) in
  let parents := build_parents (keys nodes_meta) (edges w) in
  let topo := executor_topo w in
  match nodes_of_type "user_query" nodes_meta with
  | [] => RaisedNodeExecutionError "No user_query node found"
  | start_node_id :: _ =>
      let st0 := {| context_map := [(start_node_id, [("query", VStr user_query)])];
                    trace := trace0;
                    world := w0;
                    dispatched := [] |} in
      match run_nodes env nodes_meta parents topo st0 with
      | KeyError => RaisedKeyError
      | ConstructorRaised exc st => RaisedByConstructor exc st
      | Return r st => Returned r st
      | Next st =>
          let output_nodes := nodes_of_type "output" nodes_meta in
          let final_outputs := map (fun nid => recorded nid (context_map st)) output_nodes in
          let final := match final_outputs with f :: _ => f | [] => [] end in
          Returned (Success final (trace st)) st
      end
  end.

Definition execute_workflow_safe (env : Env) (workflow : value)
    (user_query : string) (trace0 : option (list (dict value))) (w0 : World)
  : Outcome :=
  let trace := match trace0 with Some t => t | None => [] end in
  match validate_workflow workflow true with
  | WorkflowValidationError errors => RaisedValidationError errors
  | ValidatorTypeError => RaisedTypeError
  | Passed => run_validated env (workflow_of workflow) user_query trace w0
  end.

(** * Properties *)

(** ** Dictionaries *)

Section DictFacts.
Context {V : Type}.
Implicit Types (d : dict V) (k : string).

Lemma get_set_same k (v : V) d : get k (set k v d) = Some v.
Proof.
  induction d as [|[k' v'] d IH]; simpl.
  - now rewrite String.eqb_refl.
  - destruct (String.eqb k k') eqn:E; simpl; rewrite E; auto.
Qed.

Lemma get_set_other k k' (v : V) d : k <> k' -> get k (set k' v d) = get k d.
Proof.
  intros Hne. induction d as [|[k0 v0] d IH]; simpl.
  - apply String.eqb_neq in Hne. now rewrite Hne.
  - destruct (String.eqb k' k0) eqn:E; simpl.
    + apply String.eqb_eq in E; subst k0.
      apply String.eqb_neq in Hne. now rewrite Hne.
    + destruct (String.eqb k k0); auto.
Qed.

Lemma get_none_iff k d : get k d = None <-> ~ In k (keys d).
Proof.
  induction d as [|[k' v'] d IH]; simpl.
  - tauto.
  - destruct (String.eqb k k') eqn:E.
    + apply String.eqb_eq in E; subst. split; [discriminate | tauto].
    + apply String.eqb_neq in E. rewrite IH. split.
      * intros H [H1|H1]; [congruence | tauto].
      * tauto.
Qed.

Lemma get_some_in k d (v : V) : get k d = Some v -> In (k, v) d.
Proof.
  induction d as [|[k' v'] d IH]; simpl; [discriminate|].
  destruct (String.eqb k k') eqn:E.
  - apply String.eqb_eq in E; subst. intros [= ->]. now left.
  - auto.
Qed.

Lemma in_keys_get k d : In k (keys d) -> exists v, get k d = Some v.
Proof.
  intros Hin. destruct (get k d) eqn:E; eauto.
  apply get_none_iff in E. contradiction.
Qed.

Lemma get_in_nodup k d (v : V) : NoDup (keys d) -> In (k, v) d -> get k d = Some v.
Proof.
  induction d as [|[k' v'] d IH]; simpl; [tauto|].
  intros Hnd [H|H].
  - inversion H; subst. now rewrite String.eqb_refl.
  - inversion Hnd; subst.
    destruct (String.eqb k k') eqn:E; auto.
    apply String.eqb_eq in E; subst k'.
    exfalso. apply H2. change (In (fst (k, v)) (map fst d)). now apply in_map.
Qed.

Lemma set_fresh k (v : V) d : ~ In k (keys d) -> set k v d = d ++ [(k, v)].
Proof.
  induction d as [|[k' v'] d IH]; simpl; auto.
  intros Hn. destruct (String.eqb k k') eqn:E.
  - apply String.eqb_eq in E. subst. tauto.
  - f_equal. apply IH. tauto.
Qed.

Lemma keys_set_in k (v : V) d : In k (keys d) -> keys (set k v d) = keys d.
Proof.
  induction d as [|[k' v'] d IH]; simpl; [tauto|].
  intros Hin. destruct (String.eqb k k') eqn:E; simpl; auto.
  f_equal. apply IH. destruct Hin as [H|H]; auto.
  apply String.eqb_neq in E. congruence.
Qed.

Lemma in_keys_set k k' (v : V) d :
  In k (keys (set k' v d)) <-> k = k' \/ In k (keys d).
Proof.
  induction d as [|[k0 v0] d IH]; simpl.
  - intuition.
  - destruct (String.eqb k' k0) eqn:E; simpl.
    + apply String.eqb_eq in E; subst. intuition.
    + rewrite IH. intuition.
Qed.

Lemma nodup_keys_set k (v : V) d : NoDup (keys d) -> NoDup (keys (set k v d)).
Proof.
  intros Hnd. destruct (in_dec string_dec k (keys d)) as [Hin|Hin].
  - now rewrite keys_set_in.
  - rewrite set_fresh by assumption. unfold keys. rewrite map_app. simpl.
    apply NoDup_app; auto.
    + constructor; [tauto | constructor].
    + intros x Hx [<-|[]]. contradiction.
Qed.

Lemma keys_adjust (f : V -> V) k d : keys (adjust f k d) = keys d.
Proof.
  unfold keys, adjust. rewrite map_map. apply map_ext.
  intros [k' v']; simpl. now destruct (String.eqb k k').
Qed.

Lemma get_adjust (f : V -> V) k m d :
  get k (adjust f m d) =
  if String.eqb k m then option_map f (get k d) else get k d.
Proof.
  induction d as [|[k' v'] d IH]; simpl.
  - now destruct (String.eqb k m).
  - destruct (String.eqb m k') eqn:E1; simpl.
    + apply String.eqb_eq in E1; subst k'.
      destruct (String.eqb k m) eqn:E2; simpl; auto.
    + destruct (String.eqb k k') eqn:E2; simpl.
      * apply String.eqb_eq in E2; subst k'.
        rewrite String.eqb_sym in E1. now rewrite E1.
      * exact IH.
Qed.

(** A comprehension [{key(x): val(x) for x in xs}] over distinct keys lists
    its items in the order of [xs]. *)
Lemma fold_set_distinct (X : Type) (kf : X -> string) (vf : X -> V) xs d :
  NoDup (keys d ++ map kf xs) ->
  fold_left (fun acc x => set (kf x) (vf x) acc) xs d
  = d ++ map (fun x => (kf x, vf x)) xs.
Proof.
  revert d. induction xs as [|x xs IH]; intros d Hnd; simpl.
  - now rewrite app_nil_r.
  - rewrite IH.
    + rewrite set_fresh.
      * now rewrite <- app_assoc.
      * apply NoDup_remove_2 in Hnd. intros Hin. apply Hnd.
        apply in_or_app. now left.
    + rewrite set_fresh.
      * unfold keys in *. rewrite map_app. simpl. rewrite <- app_assoc. exact Hnd.
      * apply NoDup_remove_2 in Hnd. intros Hin. apply Hnd.
        apply in_or_app. now left.
Qed.

Lemma from_keys_distinct ks (v0 : V) :
  NoDup ks -> from_keys ks v0 = map (fun k => (k, v0)) ks.
Proof.
  intros Hnd. unfold from_keys.
  rewrite (fold_set_distinct (fun k => k) (fun _ => v0)); simpl; auto.
  now rewrite map_id.
Qed.

Lemma keys_from_keys ks (v0 : V) : NoDup ks -> keys (from_keys ks v0) = ks.
Proof.
  intros Hnd. rewrite from_keys_distinct by assumption.
  unfold keys. rewrite map_map. simpl. apply map_id.
Qed.

Lemma get_from_keys ks (v0 : V) k :
  NoDup ks -> In k ks -> get k (from_keys ks v0) = Some v0.
Proof.
  intros Hnd Hin. apply get_in_nodup.
  - now rewrite keys_from_keys.
  - rewrite from_keys_distinct by assumption.
    apply in_map_iff. now exists k.
Qed.

Lemma mem_set k k' (v : V) d :
  mem k (set k' v d) = String.eqb k k' || mem k d.
Proof.
  unfold mem. destruct (String.eqb k k') eqn:E.
  - apply String.eqb_eq in E; subst. now rewrite get_set_same.
  - apply String.eqb_neq in E. now rewrite get_set_other.
Qed.

Lemma mem_update k d1 d2 : mem k (update d1 d2) = mem k d1 || mem k d2.
Proof.
  unfold update. revert d1. induction d2 as [|[k' v'] d2 IH]; intros d1; simpl.
  - unfold mem at 3. simpl. now rewrite orb_false_r.
  - rewrite IH, mem_set. unfold mem at 4. simpl.
    destruct (String.eqb k k'); simpl.
    + now rewrite orb_true_r.
    + reflexivity.
Qed.

Lemma nodup_keys_update d1 d2 : NoDup (keys d1) -> NoDup (keys (update d1 d2)).
Proof.
  unfold update. revert d1. induction d2 as [|[k' v'] d2 IH]; intros d1 H; simpl; auto.
  apply IH. now apply nodup_keys_set.
Qed.

(** On a key collision [update] keeps the value of its argument. *)
Lemma get_update k d1 d2 :
  NoDup (keys d2) ->
  get k (update d1 d2) = match get k d2 with Some v => Some v | None => get k d1 end.
Proof.
  unfold update. revert d1. induction d2 as [|[k' v'] d2 IH]; intros d1 Hnd; simpl; auto.
  inversion Hnd; subst. rewrite IH by assumption.
  destruct (String.eqb k k') eqn:E.
  - apply String.eqb_eq in E; subst k'.
    destruct (get k d2) eqn:G.
    + exfalso. apply H1. destruct (get_none_iff k d2) as [_ Hx].
      destruct (in_dec string_dec k (keys d2)); auto.
      rewrite Hx in G by assumption. discriminate.
    + apply get_set_same.
  - destruct (get k d2); auto.
    apply get_set_other. now apply String.eqb_neq.
Qed.
End DictFacts.

(** ** The graph of a definition *)

(** Successors of [n] in edge order, with multiplicity. *)
Definition succs (es : list Edge) (n : string) : list string :=
  map edge_to (filter (fun e => String.eqb n (edge_from e)) es).

(** Direct predecessors of [n] in edge order, with multiplicity. *)
Definition preds (es : list Edge) (n : string) : list string :=
  map edge_from (filter (fun e => String.eqb n (edge_to e)) es).

Lemma mem_str_In s l : mem_str s l = true <-> In s l.
Proof.
  unfold mem_str. rewrite existsb_exists. split.
  - intros [x [Hx E]]. apply String.eqb_eq in E. now subst.
  - intros H. exists s. split; auto. apply String.eqb_refl.
Qed.

Lemma mem_str_false s l : mem_str s l = false <-> ~ In s l.
Proof.
  rewrite <- mem_str_In. destruct (mem_str s l); split; congruence.
Qed.

Lemma get_fold_adjust (V : Type) (g : Edge -> V -> V) (key : Edge -> string) es :
  forall (d : dict V) n,
    get n (fold_left (fun acc e => adjust (g e) (key e) acc) es d)
    = option_map
        (fun v => fold_left (fun v e => g e v)
                            (filter (fun e => String.eqb n (key e)) es) v)
        (get n d).
Proof.
  induction es as [|e es IH]; intros d n; simpl.
  - now destruct (get n d).
  - rewrite IH, get_adjust.
    destruct (String.eqb n (key e)); simpl; auto.
    now destruct (get n d).
Qed.

Lemma keys_fold_adjust (V : Type) (g : Edge -> V -> V) (key : Edge -> string) es :
  forall d : dict V,
    keys (fold_left (fun acc e => adjust (g e) (key e) acc) es d) = keys d.
Proof.
  induction es as [|e es IH]; intros d; simpl; auto.
  now rewrite IH, keys_adjust.
Qed.

Lemma fold_snoc_map (X : Type) (f : X -> string) xs : forall acc,
  fold_left (fun l x => l ++ [f x]) xs acc = acc ++ map f xs.
Proof.
  induction xs as [|x xs IH]; intros acc; simpl.
  - now rewrite app_nil_r.
  - now rewrite IH, <- app_assoc.
Qed.

Lemma fold_incr_length (X : Type) (xs : list X) : forall c : Z,
  fold_left (fun c _ => (c + 1)%Z) xs c = (c + Z.of_nat (length xs))%Z.
Proof.
  induction xs as [|x xs IH]; intros c; simpl length.
  - simpl. lia.
  - simpl fold_left. rewrite IH. lia.
Qed.

Section Graph.
Variable ids : list string.
Variable es : list Edge.
Hypothesis ids_distinct : NoDup ids.

Lemma keys_build_adj : keys (build_adj ids es) = ids.
Proof.
  unfold build_adj.
  rewrite (keys_fold_adjust (fun e l => l ++ [edge_to e]) edge_from).
  now apply keys_from_keys.
Qed.

Lemma get_build_adj n : In n ids -> get n (build_adj ids es) = Some (succs es n).
Proof.
  intros Hin. unfold build_adj.
  rewrite (get_fold_adjust (fun e l => l ++ [edge_to e]) edge_from).
  rewrite get_from_keys by assumption. simpl.
  now rewrite fold_snoc_map.
Qed.

Lemma get_build_adj_out n : ~ In n ids -> get n (build_adj ids es) = None.
Proof.
  intros Hn. apply get_none_iff. now rewrite keys_build_adj.
Qed.

Lemma keys_build_parents : keys (build_parents ids es) = ids.
Proof.
  unfold build_parents.
  rewrite (keys_fold_adjust (fun e l => l ++ [edge_from e]) edge_to).
  now apply keys_from_keys.
Qed.

Lemma get_build_parents n :
  In n ids -> get n (build_parents ids es) = Some (preds es n).
Proof.
  intros Hin. unfold build_parents.
  rewrite (get_fold_adjust (fun e l => l ++ [edge_from e]) edge_to).
  rewrite get_from_keys by assumption. simpl.
  now rewrite fold_snoc_map.
Qed.

Lemma keys_build_incoming : keys (build_incoming ids es) = ids.
Proof.
  unfold build_incoming.
  rewrite (keys_fold_adjust (fun _ c => (c + 1)%Z) edge_to).
  now apply keys_from_keys.
Qed.

Lemma get_build_incoming n :
  In n ids ->
  get n (build_incoming ids es) = Some (Z.of_nat (length (preds es n))).
Proof.
  intros Hin. unfold build_incoming.
  rewrite (get_fold_adjust (fun _ c => (c + 1)%Z) edge_to).
  rewrite get_from_keys by assumption. simpl.
  rewrite fold_incr_length. unfold preds. now rewrite length_map.
Qed.
End Graph.

(** ** The inner loop of Kahn's algorithm *)

Lemma relax_fst st m : fst (relax st m) = adjust (fun c => (c - 1)%Z) m (fst st).
Proof. unfold relax. now destruct (is_zero m _). Qed.

Lemma keys_fold_relax ms : forall st,
  keys (fst (fold_left relax ms st)) = keys (fst st).
Proof.
  induction ms as [|m ms IH]; intros st; simpl; auto.
  now rewrite IH, relax_fst, keys_adjust.
Qed.

Lemma get_fold_relax ms : forall st v,
  get v (fst (fold_left relax ms st))
  = option_map (fun c => (c - Z.of_nat (count_occ string_dec ms v))%Z)
               (get v (fst st)).
Proof.
  induction ms as [|m ms IH]; intros st v.
  - simpl. destruct (get v (fst st)); simpl; auto. f_equal. lia.
  - simpl fold_left. rewrite IH, relax_fst, get_adjust.
    simpl count_occ. destruct (string_dec m v) as [->|Hne].
    + rewrite String.eqb_refl. destruct (get v (fst st)); simpl; auto.
      f_equal. lia.
    + destruct (String.eqb v m) eqn:E.
      * apply String.eqb_eq in E. congruence.
      * reflexivity.
Qed.

(** The queue only grows at its end, by the nodes whose counter the loop
    brings to zero, each once. *)
Lemma queue_fold_relax ms : forall inc q,
  (forall v, In v ms ->
     exists c, get v inc = Some c /\ (Z.of_nat (count_occ string_dec ms v) <= c)%Z) ->
  exists new,
    snd (fold_left relax ms (inc, q)) = q ++ new
    /\ NoDup new
    /\ forall v, In v new <->
                 (In v ms /\ get v inc = Some (Z.of_nat (count_occ string_dec ms v))).
Proof.
  induction ms as [|m ms IH]; intros inc q Hpre.
  - exists []. simpl. rewrite app_nil_r. repeat split; try constructor; tauto.
  - destruct (Hpre m (or_introl eq_refl)) as [c [Hc Hle]].
    simpl count_occ in Hle. destruct (string_dec m m) as [_|]; [|congruence].
    set (inc1 := adjust (fun c => (c - 1)%Z) m inc).
    assert (Hm1 : get m inc1 = Some (c - 1)%Z).
    { unfold inc1. now rewrite get_adjust, String.eqb_refl, Hc. }
    assert (Hpre1 : forall v, In v ms ->
              exists c', get v inc1 = Some c'
                         /\ (Z.of_nat (count_occ string_dec ms v) <= c')%Z).
    { intros v Hv. destruct (string_dec m v) as [<-|Hne].
      - exists (c - 1)%Z. split; auto. lia.
      - destruct (Hpre v (or_intror Hv)) as [c' [Hc' Hle']].
        simpl count_occ in Hle'. destruct (string_dec m v); [congruence|].
        exists c'. split; auto. unfold inc1. rewrite get_adjust.
        destruct (String.eqb v m) eqn:E; auto.
        apply String.eqb_eq in E. congruence. }
    assert (Hother : forall v, v <> m -> get v inc1 = get v inc).
    { intros v Hv. unfold inc1. rewrite get_adjust.
      destruct (String.eqb v m) eqn:E; auto.
      apply String.eqb_eq in E. congruence. }
    simpl fold_left. unfold relax at 2. simpl fst. simpl snd. fold inc1.
    unfold is_zero. rewrite Hm1.
    destruct (Z.eqb (c - 1) 0) eqn:Ez.
    + apply Z.eqb_eq in Ez.
      destruct (IH inc1 (q ++ [m]) Hpre1) as [new [Hq [Hnd Hmem]]].
      assert (Hnot : ~ In m ms).
      { intros Hin. apply (count_occ_In string_dec) in Hin. lia. }
      exists (m :: new). rewrite Hq, <- app_assoc. split; [reflexivity|]. split.
      * constructor; auto. rewrite Hmem. tauto.
      * intros v. simpl count_occ. destruct (string_dec m v) as [<-|Hne].
        -- split; [intros _|intros _; now left].
           split; [now left|]. rewrite Hc. f_equal.
           assert (count_occ string_dec ms m = 0) by (apply count_occ_not_In; auto).
           lia.
        -- simpl. rewrite Hmem, Hother by congruence. intuition congruence.
    + apply Z.eqb_neq in Ez.
      destruct (IH inc1 q Hpre1) as [new [Hq [Hnd Hmem]]].
      exists new. split; [exact Hq|]. split; auto.
      intros v. rewrite Hmem. simpl count_occ.
      destruct (string_dec m v) as [<-|Hne].
      * rewrite Hm1, Hc. split.
        -- intros [Hin Heq]. split; [now right|]. f_equal. inversion Heq. lia.
        -- intros [_ Heq]. inversion Heq.
           assert (Hin : In m ms).
           { apply (count_occ_In string_dec). lia. }
           split; auto. f_equal. lia.
      * rewrite Hother by congruence. simpl. intuition congruence.
Qed.

Lemma queue_fold_relax_grows ms : forall st,
  exists new, snd (fold_left relax ms st) = snd st ++ new.
Proof.
  induction ms as [|m ms IH]; intros st; simpl.
  - exists []. now rewrite app_nil_r.
  - destruct (IH (relax st m)) as [new Hnew]. rewrite Hnew.
    unfold relax. destruct (is_zero m _); simpl.
    + exists (m :: new). now rewrite <- app_assoc.
    + now exists new.
Qed.

(** ** The outer loop comes to its end *)

Definition positives (incoming : dict Z) : nat :=
  length (filter (fun kv => Z.ltb 0 (snd kv)) incoming).

Lemma positives_adjust m inc :
  positives (adjust (fun c => (c - 1)%Z) m inc)
  + (if is_zero m (adjust (fun c => (c - 1)%Z) m inc) then 1 else 0)
  <= positives inc.
Proof.
  assert (Hmono : forall d, positives (adjust (fun c => (c - 1)%Z) m d) <= positives d).
  { induction d as [|[k c] d IH]; simpl; auto.
    unfold positives in *. simpl.
    destruct (String.eqb m k); simpl;
      destruct (Z.ltb_spec 0 c); try destruct (Z.ltb_spec 0 (c - 1)); simpl; lia. }
  induction inc as [|[k c] inc IH]; simpl; auto.
  unfold is_zero in *. unfold positives in *. simpl.
  destruct (String.eqb m k) eqn:E; simpl; rewrite E.
  - specialize (Hmono inc). unfold positives in Hmono.
    destruct (Z.eqb_spec (c - 1) 0); destruct (Z.ltb_spec 0 c);
      destruct (Z.ltb_spec 0 (c - 1)); simpl; lia.
  - destruct (Z.ltb_spec 0 c); simpl; lia.
Qed.

Lemma kahn_fuel_relax st m :
  kahn_fuel (fst (relax st m)) (snd (relax st m)) <= kahn_fuel (fst st) (snd st).
Proof.
  pose proof (positives_adjust m (fst st)) as H.
  unfold kahn_fuel, relax. fold (positives (fst st)).
  destruct (is_zero m _); simpl fst; simpl snd;
    fold (positives (adjust (fun c => (c - 1)%Z) m (fst st))).
  - rewrite length_app. simpl. lia.
  - lia.
Qed.

Lemma kahn_fuel_fold_relax ms : forall st,
  kahn_fuel (fst (fold_left relax ms st)) (snd (fold_left relax ms st))
  <= kahn_fuel (fst st) (snd st).
Proof.
  induction ms as [|m ms IH]; intros st; simpl; auto.
  etransitivity; [apply IH | apply kahn_fuel_relax].
Qed.

Lemma kahn_loop_ends fuel : forall adj inc q topo,
  kahn_fuel inc q <= fuel -> snd (kahn_loop fuel adj inc q topo) = [].
Proof.
  induction fuel as [|fuel IH]; intros adj inc q topo Hf.
  - destruct q; simpl; auto. unfold kahn_fuel in Hf. simpl in Hf. lia.
  - destruct q as [|n q]; simpl; auto.
    apply IH.
    pose proof (kahn_fuel_fold_relax (get_list_of n adj) (inc, q)) as H.
    simpl in H. unfold kahn_fuel in *. simpl in Hf. lia.
Qed.

(** More fuel than [kahn_fuel] does not change what the loop computes. *)
Lemma kahn_loop_fuel fuel1 : forall fuel2 adj inc q topo,
  kahn_fuel inc q <= fuel1 -> kahn_fuel inc q <= fuel2 ->
  kahn_loop fuel1 adj inc q topo = kahn_loop fuel2 adj inc q topo.
Proof.
  induction fuel1 as [|fuel1 IH]; intros fuel2 adj inc q topo H1 H2.
  - destruct q; [now destruct fuel2|]. unfold kahn_fuel in H1. simpl in H1. lia.
  - destruct q as [|n q]; [now destruct fuel2|].
    destruct fuel2 as [|fuel2].
    + unfold kahn_fuel in H2. simpl in H2. lia.
    + simpl. pose proof (kahn_fuel_fold_relax (get_list_of n adj) (inc, q)) as H.
      simpl in H. unfold kahn_fuel in *. simpl in H1, H2.
      apply IH; unfold kahn_fuel; lia.
Qed.

(** First in, first out: what is in the queue leaves it next, in queue
    order, before anything enqueued later. *)
Lemma kahn_loop_fifo fuel : forall adj inc q topo,
  snd (kahn_loop fuel adj inc q topo) = [] ->
  exists later, fst (kahn_loop fuel adj inc q topo) = topo ++ q ++ later.
Proof.
  induction fuel as [|fuel IH]; intros adj inc q topo Hend.
  - destruct q; simpl in *; [|discriminate]. exists []. now rewrite app_nil_r.
  - destruct q as [|n q]; simpl in *.
    + exists []. now rewrite app_nil_r.
    + destruct (IH _ _ _ _ Hend) as [later Hl].
      destruct (queue_fold_relax_grows (get_list_of n adj) (inc, q)) as [new Hnew].
      simpl in Hnew. rewrite Hl, Hnew.
      exists (new ++ later). now rewrite <- !app_assoc.
Qed.

(** ** Kahn's invariant *)

(** Edges into [v] whose source is not in [done]. *)
Definition remaining (es : list Edge) (done : list string) (v : string) : nat :=
  length (filter (fun e => String.eqb v (edge_to e)
                           && negb (mem_str (edge_from e) done)) es).

Lemma mem_str_app s l1 l2 : mem_str s (l1 ++ l2) = mem_str s l1 || mem_str s l2.
Proof. unfold mem_str. apply existsb_app. Qed.

Lemma remaining_snoc es topo n v :
  ~ In n topo ->
  remaining es (topo ++ [n]) v + count_occ string_dec (succs es n) v
  = remaining es topo v.
Proof.
  intros Hn. unfold remaining, succs.
  induction es as [|e l IH]; simpl; auto.
  rewrite mem_str_app. simpl. rewrite orb_false_r.
  destruct (String.eqb n (edge_from e)) eqn:E1.
  - apply String.eqb_eq in E1. rewrite <- E1.
    rewrite String.eqb_refl, orb_true_r.
    replace (mem_str n topo) with false by (symmetry; now apply mem_str_false).
    simpl. rewrite andb_false_r, andb_true_r.
    destruct (String.eqb v (edge_to e)) eqn:E2; simpl.
    + apply String.eqb_eq in E2. rewrite <- E2.
      destruct (string_dec v v); [|congruence]. simpl. lia.
    + destruct (string_dec (edge_to e) v) as [E3|E3].
      * subst v. now rewrite String.eqb_refl in E2.
      * exact IH.
  - rewrite String.eqb_sym in E1. rewrite E1, orb_false_r.
    destruct (String.eqb v (edge_to e) && negb (mem_str (edge_from e) topo)); simpl; lia.
Qed.

Lemma remaining_zero es topo v e :
  remaining es topo v = 0 -> In e es -> edge_to e = v -> In (edge_from e) topo.
Proof.
  unfold remaining. intros H0 Hin Hto.
  apply length_zero_iff_nil in H0.
  destruct (mem_str (edge_from e) topo) eqn:M; [now apply mem_str_In|].
  assert (Hf : In e (filter (fun e => String.eqb v (edge_to e)
                                      && negb (mem_str (edge_from e) topo)) es)).
  { apply filter_In. split; auto. rewrite Hto, String.eqb_refl, M. reflexivity. }
  rewrite H0 in Hf. destruct Hf.
Qed.

Lemma remaining_nil es v : remaining es [] v = length (preds es v).
Proof.
  unfold remaining, preds. rewrite length_map. f_equal.
  apply filter_ext. intros e. simpl. now rewrite andb_true_r.
Qed.

Section Kahn.
Variable ids : list string.
Variable es : list Edge.
Hypothesis ids_distinct : NoDup ids.
Hypothesis endpoints :
  forall e, In e es -> In (edge_from e) ids /\ In (edge_to e) ids.

(** Every node of the list has all its direct predecessors before it. *)
Inductive topo_sorted : list string -> Prop :=
| sorted_nil : topo_sorted []
| sorted_snoc topo n :
    topo_sorted topo ->
    (forall e, In e es -> edge_to e = n -> In (edge_from e) topo) ->
    topo_sorted (topo ++ [n]).

Record kahn_inv (inc : dict Z) (q topo : list string) : Prop := {
  inv_keys : keys inc = ids;
  inv_count : forall v, In v ids -> get v inc = Some (Z.of_nat (remaining es topo v));
  inv_nodup : NoDup (topo ++ q);
  inv_ready : forall v, In v (topo ++ q) <-> (In v ids /\ remaining es topo v = 0);
  inv_sorted : topo_sorted topo
}.

Lemma in_succs n v : In v (succs es n) -> In v ids.
Proof.
  unfold succs. rewrite in_map_iff. intros [e [<- Hin]].
  apply filter_In in Hin. now apply endpoints.
Qed.

Lemma kahn_inv_step inc n q topo :
  kahn_inv inc (n :: q) topo ->
  let st := fold_left relax (get_list_of n (build_adj ids es)) (inc, q) in
  kahn_inv (fst st) (snd st) (topo ++ [n]).
Proof.
  intros Hinv st. subst st. destruct Hinv as [Hkeys Hcount Hnd Hready Hsorted].
  assert (Hn : In n ids /\ remaining es topo n = 0).
  { apply Hready. apply in_or_app. right. now left. }
  destruct Hn as [Hnids Hn0].
  assert (Hfresh : ~ In n topo).
  { apply NoDup_remove_2 in Hnd. intros H. apply Hnd. apply in_or_app. now left. }
  unfold get_list_of. rewrite get_build_adj by assumption.
  set (ms := succs es n).
  assert (Hrem : forall v, remaining es (topo ++ [n]) v + count_occ string_dec ms v
                           = remaining es topo v).
  { intros v. now apply remaining_snoc. }
  assert (Hpre : forall v, In v ms ->
            exists c, get v inc = Some c
                      /\ (Z.of_nat (count_occ string_dec ms v) <= c)%Z).
  { intros v Hv. exists (Z.of_nat (remaining es topo v)). split.
    - apply Hcount. now apply (in_succs n).
    - specialize (Hrem v). lia. }
  destruct (queue_fold_relax ms inc q Hpre) as [new [Hq [Hndnew Hnew]]].
  assert (Hnewpos : forall v, In v new ->
            In v ids /\ remaining es topo v = count_occ string_dec ms v
            /\ 0 < count_occ string_dec ms v).
  { intros v Hv. apply Hnew in Hv. destruct Hv as [Hin Hg].
    assert (Hvid : In v ids) by now apply (in_succs n).
    rewrite (Hcount v Hvid) in Hg. inversion Hg.
    split; auto. split; [lia|]. now apply (count_occ_In string_dec). }
  constructor.
  - now rewrite keys_fold_relax.
  - intros v Hv. rewrite get_fold_relax. simpl fst. rewrite (Hcount v Hv). simpl.
    f_equal. specialize (Hrem v). lia.
  - rewrite Hq. replace ((topo ++ [n]) ++ q ++ new) with ((topo ++ n :: q) ++ new)
      by (now rewrite <- !app_assoc).
    apply NoDup_app; auto.
    intros x Hx Hxnew. apply Hready in Hx. apply Hnewpos in Hxnew. lia.
  - intros v. rewrite Hq.
    replace ((topo ++ [n]) ++ q ++ new) with ((topo ++ n :: q) ++ new)
      by (now rewrite <- !app_assoc).
    rewrite in_app_iff, Hready. specialize (Hrem v). split.
    + intros [[Hvid Hv0]|Hvnew].
      * split; auto. lia.
      * apply Hnewpos in Hvnew. split; [tauto | lia].
    + intros [Hvid Hv0].
      destruct (Nat.eq_dec (remaining es topo v) 0) as [Hz|Hz]; [left; tauto|].
      right. apply Hnew. split.
      * apply (count_occ_In string_dec). lia.
      * rewrite (Hcount v Hvid). f_equal. lia.
  - constructor; auto. intros e He Hto. eapply remaining_zero; eauto.
Qed.

Lemma kahn_inv_loop fuel : forall inc q topo,
  kahn_inv inc q topo ->
  exists inc',
    kahn_inv inc' (snd (kahn_loop fuel (build_adj ids es) inc q topo))
             (fst (kahn_loop fuel (build_adj ids es) inc q topo)).
Proof.
  induction fuel as [|fuel IH]; intros inc q topo Hinv.
  - destruct q; simpl; now exists inc.
  - destruct q as [|n q]; simpl; [now exists inc|].
    apply IH. now apply kahn_inv_step.
Qed.

Lemma kahn_inv_init :
  kahn_inv (build_incoming ids es)
           (filter (fun nid => is_zero nid (build_incoming ids es)) ids) [].
Proof.
  assert (Hz : forall v, In v ids ->
            is_zero v (build_incoming ids es) = Nat.eqb (remaining es [] v) 0).
  { intros v Hv. unfold is_zero. rewrite get_build_incoming by assumption.
    rewrite remaining_nil. destruct (length (preds es v)); reflexivity. }
  constructor; simpl.
  - now apply keys_build_incoming.
  - intros v Hv. rewrite get_build_incoming by assumption. now rewrite remaining_nil.
  - now apply NoDup_filter.
  - intros v. rewrite filter_In. split.
    + intros [Hv Hzero]. split; auto. rewrite Hz in Hzero by assumption.
      now apply Nat.eqb_eq.
    + intros [Hv H0]. split; auto. rewrite Hz by assumption. now apply Nat.eqb_eq.
  - constructor.
Qed.
End Kahn.

(** ** The order Kahn's algorithm produces *)

(** [u] occurs in [l] strictly before an occurrence of [v]. *)
Definition before (l : list string) (u v : string) : Prop :=
  exists l1 l2, l = l1 ++ v :: l2 /\ In u l1.

(** A directed path of one or more edges. *)
Inductive path (es : list Edge) : string -> string -> Prop :=
| path_edge e : In e es -> path es (edge_from e) (edge_to e)
| path_snoc u e : path es u (edge_from e) -> In e es -> path es u (edge_to e).

Definition has_cycle (es : list Edge) : Prop := exists v, path es v v.

Lemma nodup_split_unique (l1 : list string) : forall l2 a c v,
  NoDup (l1 ++ v :: l2) -> l1 ++ v :: l2 = a ++ v :: c -> l1 = a /\ l2 = c.
Proof.
  induction l1 as [|x l1 IH]; intros l2 a c v Hnd Heq.
  - destruct a as [|y a]; simpl in *.
    + inversion Heq. auto.
    + inversion Heq; subst. inversion Hnd; subst.
      exfalso. apply H1. apply in_or_app. right. now left.
  - destruct a as [|y a]; simpl in *.
    + inversion Heq; subst. inversion Hnd; subst.
      exfalso. apply H1. apply in_or_app. right. now left.
    + inversion Heq; subst. inversion Hnd; subst.
      destruct (IH _ _ _ _ H3 H1) as [-> ->]. auto.
Qed.

Lemma before_trans l u v x :
  NoDup l -> before l u v -> before l v x -> before l u x.
Proof.
  intros Hnd [l1 [l2 [E1 Hu]]] [l1' [l2' [E2 Hv]]].
  apply in_split in Hv. destruct Hv as [a [b ->]].
  assert (Hs : l1 = a /\ l2 = b ++ x :: l2').
  { apply (@nodup_split_unique l1 l2 a (b ++ x :: l2') v).
    - now rewrite <- E1.
    - rewrite <- E1, E2. now rewrite <- app_assoc. }
  destruct Hs as [-> _].
  exists (a ++ v :: b), l2'. split; auto.
  apply in_or_app. now left.
Qed.

Lemma before_irrefl l v : NoDup l -> ~ before l v v.
Proof.
  intros Hnd [l1 [l2 [E Hv]]]. subst l.
  apply NoDup_remove_2 in Hnd. apply Hnd. apply in_or_app. now left.
Qed.

Lemma before_in_l l u v : before l u v -> In u l.
Proof.
  intros [l1 [l2 [-> Hu]]]. apply in_or_app. now left.
Qed.

Lemma before_in_r l u v : before l u v -> In v l.
Proof.
  intros [l1 [l2 [-> Hu]]]. apply in_or_app. right. now left.
Qed.

Lemma sorted_edge_before es topo :
  topo_sorted es topo ->
  forall e, In e es -> In (edge_to e) topo -> before topo (edge_from e) (edge_to e).
Proof.
  induction 1 as [|topo n Hs IH Hpred]; intros e He Hin; [destruct Hin|].
  apply in_app_or in Hin. destruct Hin as [Hin|[Hn|[]]].
  - destruct (IH e He Hin) as [l1 [l2 [E Hu]]].
    exists l1, (l2 ++ [n]). split; auto.
    rewrite E. now rewrite <- app_assoc.
  - exists topo, []. rewrite <- Hn. split; [reflexivity|]. now apply Hpred.
Qed.

Lemma sorted_path_before es topo :
  topo_sorted es topo -> NoDup topo ->
  forall u v, path es u v -> In v topo -> before topo u v.
Proof.
  intros Hs Hnd u v Hp. induction Hp as [e He|u e Hp IH He]; intros Hin.
  - eapply sorted_edge_before; eauto.
  - pose proof (sorted_edge_before Hs e He Hin) as Hb.
    apply before_trans with (v := edge_from e); auto.
    apply IH. eapply before_in_l; eauto.
Qed.

Lemma sorted_no_cycle es topo v :
  topo_sorted es topo -> NoDup topo -> path es v v -> ~ In v topo.
Proof.
  intros Hs Hnd Hp Hin.
  apply (before_irrefl (v := v) Hnd). eapply sorted_path_before; eauto.
Qed.

Lemma path_end_is_target es u v : path es u v -> exists e, In e es /\ edge_to e = v.
Proof. destruct 1 as [e He|u e _ He]; eauto. Qed.

(** [toposort] is what both the validator and the executor compute. *)
Definition toposort (ids : list string) (es : list Edge) : list string :=
  kahn (build_adj ids es) (build_incoming ids es)
       (filter (fun nid => is_zero nid (build_incoming ids es)) ids).

Section Toposort.
Variable ids : list string.
Variable es : list Edge.
Hypothesis ids_distinct : NoDup ids.
Hypothesis endpoints :
  forall e, In e es -> In (edge_from e) ids /\ In (edge_to e) ids.

Let topo := toposort ids es.

Lemma toposort_inv :
  exists inc, kahn_inv ids es inc [] topo.
Proof.
  unfold topo, toposort, kahn.
  set (inc0 := build_incoming ids es).
  set (q0 := filter (fun nid => is_zero nid inc0) ids).
  destruct (@kahn_inv_loop ids es ids_distinct endpoints (kahn_fuel inc0 q0) inc0 q0 [])
    as [inc Hinv].
  - apply kahn_inv_init; auto.
  - rewrite kahn_loop_ends in Hinv by lia. now exists inc.
Qed.

Lemma toposort_nodup : NoDup topo.
Proof.
  destruct toposort_inv as [inc H]. pose proof (inv_nodup H) as Hn.
  now rewrite app_nil_r in Hn.
Qed.

Lemma toposort_sorted : topo_sorted es topo.
Proof. destruct toposort_inv as [inc H]. exact (inv_sorted H). Qed.

Lemma toposort_in v : In v topo <-> (In v ids /\ remaining es topo v = 0).
Proof.
  destruct toposort_inv as [inc H]. pose proof (inv_ready H v) as Hr.
  now rewrite app_nil_r in Hr.
Qed.

Lemma toposort_incl : incl topo ids.
Proof. intros v Hv. now apply toposort_in in Hv. Qed.

Lemma toposort_length : length topo <= length ids.
Proof. apply NoDup_incl_length; [apply toposort_nodup | apply toposort_incl]. Qed.

Lemma toposort_complete :
  length topo = length ids -> forall v, In v ids -> In v topo.
Proof.
  intros Hlen. apply NoDup_length_incl.
  - apply toposort_nodup.
  - lia.
  - apply toposort_incl.
Qed.

Lemma toposort_edge e :
  In e es -> In (edge_to e) topo -> before topo (edge_from e) (edge_to e).
Proof. apply sorted_edge_before, toposort_sorted. Qed.

Lemma toposort_cycle : has_cycle es -> length topo < length ids.
Proof.
  intros [v Hp].
  destruct (Nat.eq_dec (length topo) (length ids)) as [Heq|Hne].
  - exfalso. apply (@sorted_no_cycle es topo v); auto.
    + apply toposort_sorted.
    + apply toposort_nodup.
    + apply toposort_complete; auto.
      destruct (path_end_is_target Hp) as [e [He <-]]. now apply endpoints.
  - pose proof toposort_length. lia.
Qed.

Lemma toposort_fifo :
  exists later,
    topo = filter (fun nid => is_zero nid (build_incoming ids es)) ids ++ later.
Proof.
  unfold topo, toposort, kahn.
  set (inc0 := build_incoming ids es).
  set (q0 := filter (fun nid => is_zero nid inc0) ids).
  destruct (@kahn_loop_fifo (kahn_fuel inc0 q0) (build_adj ids es) inc0 q0 [])
    as [later H].
  - apply kahn_loop_ends. lia.
  - exists later. exact H.
Qed.
End Toposort.

(** ** What the structural phase establishes *)

Definition node_ok (n : value) : Prop :=
  exists nd s t,
    n = VDict nd
    /\ get "id" nd = Some (VStr s) /\ s <> ""
    /\ get "type" nd = Some (VStr t) /\ In t NODE_TYPES
    /\ (get "config" nd = None \/ exists c, get "config" nd = Some (VDict c)).

Definition edge_ok (node_ids : list string) (e : value) : Prop :=
  exists ed s t,
    e = VDict ed
    /\ get "from" ed = Some (VStr s) /\ In s node_ids
    /\ get "to" ed = Some (VStr t) /\ In t node_ids.

Definition well_formed (w : Workflow) : Prop :=
  NoDup (map node_id (nodes w))
  /\ (forall e, In e (edges w) ->
        In (edge_from e) (map node_id (nodes w))
        /\ In (edge_to e) (map node_id (nodes w)))
  /\ (forall n, In n (nodes w) -> In (node_type n) NODE_TYPES).

Lemma nonempty_str_some v s : nonempty_str v = Some s -> v = VStr s /\ s <> "".
Proof.
  destruct v; simpl; try discriminate.
  destruct (String.eqb s0 "") eqn:E; [discriminate|].
  intros [= ->]. split; auto. now apply String.eqb_neq.
Qed.

Lemma get_or_none_str k d s : get_or_none k d = VStr s -> get k d = Some (VStr s).
Proof. unfold get_or_none. destruct (get k d); [now intros ->|discriminate]. Qed.

Ltac absurd_eq := let H := fresh in intros H; discriminate H.

Lemma check_node_ok idx n ids ids' :
  check_node idx n ids = Completed (ids', []) ->
  node_ok n /\ ~ In (node_id (node_of n)) ids /\ ids' = ids ++ [node_id (node_of n)].
Proof.
  unfold check_node. destruct n; try absurd_eq.
  destruct (nonempty_str (get_or_none "id" d)) as [s|] eqn:Eid.
  2:{ destruct (negb (hashable _)); [absurd_eq|]. simpl. absurd_eq. }
  apply nonempty_str_some in Eid. destruct Eid as [Eid Hs].
  destruct (mem_str s ids) eqn:Em.
  { destruct (negb (hashable _)); [absurd_eq|]. simpl. absurd_eq. }
  destruct (negb (hashable (get_or_none "type" d))); [absurd_eq|].
  destruct (get_or_none "type" d) as [| | | |t| |] eqn:Et; simpl; try absurd_eq.
  destruct (mem_str t NODE_TYPES) eqn:Ety; [|simpl in *; rewrite Ety; absurd_eq].
  simpl in *. rewrite Ety. simpl.
  intros H.
  assert (Hc : get "config" d = None \/ exists c, get "config" d = Some (VDict c)).
  { destruct (get "config" d) as [[]|]; try discriminate H; eauto. }
  assert (Hids : ids' = ids ++ [s]).
  { destruct (get "config" d) as [[]|]; inversion H; auto. }
  rewrite Eid. simpl. split; [|split]; auto.
  - exists d, s, t. repeat split; auto.
    + now apply get_or_none_str.
    + now apply get_or_none_str.
    + now apply mem_str_In.
  - now apply mem_str_false.
Qed.

Lemma check_nodes_grow ns : forall idx ids errs ids' errs',
  check_nodes idx ns ids errs = Completed (ids', errs') ->
  exists more, errs' = errs ++ more.
Proof.
  induction ns as [|n ns IH]; intros idx ids errs ids' errs' H; simpl in H.
  - inversion H. exists []. now rewrite app_nil_r.
  - destruct (check_node idx n ids) as [[ids1 es1]|]; [|discriminate].
    apply IH in H. destruct H as [more ->].
    exists (es1 ++ more). now rewrite app_assoc.
Qed.

Lemma check_nodes_ok ns : forall idx ids ids',
  check_nodes idx ns ids [] = Completed (ids', []) ->
  Forall node_ok ns
  /\ ids' = ids ++ map (fun n => node_id (node_of n)) ns
  /\ (NoDup ids -> NoDup ids').
Proof.
  induction ns as [|n ns IH]; intros idx ids ids' H; simpl in H.
  - inversion H. rewrite app_nil_r. auto.
  - destruct (check_node idx n ids) as [[ids1 es1]|] eqn:E; [|discriminate].
    simpl in H. pose proof (check_nodes_grow _ _ _ _ H) as [more Hm].
    symmetry in Hm. apply app_eq_nil in Hm. destruct Hm as [-> _].
    apply check_node_ok in E. destruct E as [Hok [Hfresh ->]].
    apply IH in H. destruct H as [Hall [-> Hnd]].
    split; [now constructor|]. split.
    + simpl. now rewrite <- app_assoc.
    + intros Hids. apply Hnd. apply NoDup_app; auto.
      * constructor; [tauto|constructor].
      * intros x Hx [<-|[]]. contradiction.
Qed.

Lemma check_endpoint_ok idx key v node_ids :
  check_endpoint idx key v node_ids = [] -> exists s, v = VStr s /\ In s node_ids.
Proof.
  unfold check_endpoint. destruct (nonempty_str v) as [s|] eqn:E; [|discriminate].
  destruct (mem_str s node_ids) eqn:M; [|discriminate].
  intros _. apply nonempty_str_some in E. exists s. split; [tauto|].
  now apply mem_str_In.
Qed.

Lemma check_edges_ok es : forall idx node_ids,
  check_edges idx es node_ids = [] -> Forall (edge_ok node_ids) es.
Proof.
  induction es as [|e es IH]; intros idx node_ids H; simpl in H; [constructor|].
  apply app_eq_nil in H. destruct H as [He Hes].
  constructor; [|eapply IH; eauto].
  unfold check_edge in He. destruct e; try discriminate.
  apply app_eq_nil in He. destruct He as [Hf Ht].
  apply check_endpoint_ok in Hf. apply check_endpoint_ok in Ht.
  destruct Hf as [s [Hs Hsin]]. destruct Ht as [t [Ht Htin]].
  exists d, s, t. repeat split; auto using get_or_none_str.
Qed.

(** The subscripts of the later code are defined on a definition that passed
    the first two phases, and the record view reads them. *)
Lemma structural_view workflow :
  validate_shape workflow = [] ->
  validate_nodes_and_edges workflow = Completed [] ->
  Forall node_ok (get_list "nodes" workflow)
  /\ Forall (edge_ok (map node_id (nodes (workflow_of workflow))))
            (get_list "edges" workflow)
  /\ NoDup (map node_id (nodes (workflow_of workflow))).
Proof.
  intros _ H. unfold validate_nodes_and_edges in H.
  destruct (check_nodes 0 (get_list "nodes" workflow) [] _) as [[ids errs]|] eqn:E;
    [|discriminate].
  inversion H as [H1]. apply app_eq_nil in H1. destruct H1 as [-> Hedges].
  pose proof (check_nodes_grow _ _ _ _ E) as [more Hm].
  symmetry in Hm. apply app_eq_nil in Hm. destruct Hm as [Hm _]. rewrite Hm in E.
  apply check_nodes_ok in E. destruct E as [Hnodes [Hids Hnd]]. simpl in Hids.
  assert (Heq : map node_id (nodes (workflow_of workflow)) = ids).
  { unfold workflow_of. simpl. now rewrite map_map. }
  rewrite Heq. split; auto. split.
  - eapply check_edges_ok; eauto.
  - apply Hnd. constructor.
Qed.

Lemma node_ok_type n : node_ok n -> In (node_type (node_of n)) NODE_TYPES.
Proof.
  intros [nd [s [t [-> [_ [_ [Ht [Hin _]]]]]]]]. simpl.
  unfold get_or_none. now rewrite Ht.
Qed.

Lemma edge_ok_endpoints ids e :
  edge_ok ids e -> In (edge_from (edge_of e)) ids /\ In (edge_to (edge_of e)) ids.
Proof.
  intros [ed [s [t [-> [Hs [Hsin [Ht Htin]]]]]]]. simpl.
  unfold get_or_none. now rewrite Hs, Ht.
Qed.

(** On such a definition the dictionaries built from the node ids hold every
    key the later code subscripts them with. *)
Lemma subscripts_defined ids es :
  NoDup ids ->
  (forall e, In e es -> In (edge_from e) ids /\ In (edge_to e) ids) ->
  forall e, In e es ->
    mem (edge_from e) (build_adj ids es) = true
    /\ mem (edge_to e) (build_incoming ids es) = true
    /\ mem (edge_to e) (build_parents ids es) = true.
Proof.
  intros Hnd Hends e He. destruct (Hends e He) as [Hf Ht]. unfold mem.
  rewrite (get_build_adj es Hnd _ Hf), (get_build_incoming es Hnd _ Ht),
    (get_build_parents es Hnd _ Ht). auto.
Qed.

Lemma structural_well_formed workflow :
  validate_shape workflow = [] ->
  validate_nodes_and_edges workflow = Completed [] ->
  well_formed (workflow_of workflow).
Proof.
  intros Hshape Hstruct.
  destruct (structural_view workflow Hshape Hstruct) as [Hn [He Hnd]].
  split; [exact Hnd|]. split.
  - intros e Hin. unfold workflow_of in Hin. simpl in Hin.
    apply in_map_iff in Hin. destruct Hin as [v [<- Hv]].
    rewrite Forall_forall in He. now apply edge_ok_endpoints, He.
  - intros n Hin. unfold workflow_of in Hin. simpl in Hin.
    apply in_map_iff in Hin. destruct Hin as [v [<- Hv]].
    rewrite Forall_forall in Hn. now apply node_ok_type, Hn.
Qed.

(** ** The reachability traversal *)

Definition unvisited_weight (adj : dict (list string)) (reachable : list string) : nat :=
  list_sum (map (fun kv => length (snd kv))
                (filter (fun kv => negb (mem_str (fst kv) reachable)) adj)).

Lemma unvisited_weight_mono adj r cur :
  unvisited_weight adj (r ++ [cur]) <= unvisited_weight adj r.
Proof.
  unfold unvisited_weight. induction adj as [|[k ns] adj IH]; simpl; auto.
  rewrite mem_str_app. destruct (mem_str k r); simpl; auto.
  rewrite orb_false_r. destruct (String.eqb k cur); simpl; lia.
Qed.

Lemma unvisited_weight_visit adj r cur :
  mem_str cur r = false ->
  unvisited_weight adj (r ++ [cur]) + length (get_list_of cur adj)
  <= unvisited_weight adj r.
Proof.
  intros Hcur. unfold get_list_of.
  induction adj as [|[k ns] adj IH]; simpl; auto.
  unfold unvisited_weight in *. simpl. rewrite mem_str_app. simpl. rewrite orb_false_r.
  destruct (String.eqb cur k) eqn:E.
  - apply String.eqb_eq in E. subst k. rewrite Hcur, String.eqb_refl. simpl.
    pose proof (unvisited_weight_mono adj r cur) as Hm.
    unfold unvisited_weight in Hm. lia.
  - rewrite String.eqb_sym in E. rewrite E, orb_false_r.
    destruct (mem_str k r); simpl; lia.
Qed.

Lemma push_unseen_length seen nbs : forall stk,
  length (fold_left (fun stk nb => if mem_str nb seen then stk else nb :: stk) nbs stk)
  <= length stk + length nbs.
Proof.
  induction nbs as [|nb nbs IH]; intros stk; simpl; [lia|].
  etransitivity; [apply IH|]. destruct (mem_str nb seen); simpl; lia.
Qed.

Lemma push_unseen_in seen nbs : forall stk x,
  In x (fold_left (fun stk nb => if mem_str nb seen then stk else nb :: stk) nbs stk) ->
  In x stk \/ In x nbs.
Proof.
  induction nbs as [|nb nbs IH]; intros stk x H; simpl in *; auto.
  apply IH in H. destruct H as [H|H]; auto.
  destruct (mem_str nb seen); simpl in H; intuition.
Qed.

Lemma reach_loop_ends fuel : forall adj stack reachable,
  reach_fuel adj stack reachable <= fuel ->
  snd (reach_loop fuel adj stack reachable) = [].
Proof.
  induction fuel as [|fuel IH]; intros adj stack reachable Hf.
  - destruct stack; simpl; auto. unfold reach_fuel in Hf. simpl in Hf. lia.
  - destruct stack as [|cur rest]; simpl; auto.
    unfold reach_fuel in Hf. simpl in Hf. fold (unvisited_weight adj reachable) in Hf.
    destruct (mem_str cur reachable) eqn:M.
    + apply IH. unfold reach_fuel. fold (unvisited_weight adj reachable). lia.
    + apply IH. unfold reach_fuel.
      fold (unvisited_weight adj (reachable ++ [cur])).
      pose proof (unvisited_weight_visit adj reachable cur M).
      pose proof (push_unseen_length (reachable ++ [cur]) (get_list_of cur adj) rest).
      lia.
Qed.

Lemma reach_loop_fuel fuel1 : forall fuel2 adj stack reachable,
  reach_fuel adj stack reachable <= fuel1 ->
  reach_fuel adj stack reachable <= fuel2 ->
  reach_loop fuel1 adj stack reachable = reach_loop fuel2 adj stack reachable.
Proof.
  induction fuel1 as [|fuel1 IH]; intros fuel2 adj stack reachable H1 H2.
  - destruct stack; [now destruct fuel2|]. unfold reach_fuel in H1. simpl in H1. lia.
  - destruct stack as [|cur rest]; [now destruct fuel2|].
    destruct fuel2 as [|fuel2].
    { unfold reach_fuel in H2. simpl in H2. lia. }
    simpl. unfold reach_fuel in H1, H2. simpl in H1, H2.
    fold (unvisited_weight adj reachable) in H1, H2.
    destruct (mem_str cur reachable) eqn:M.
    + apply IH; unfold reach_fuel; fold (unvisited_weight adj reachable); lia.
    + pose proof (unvisited_weight_visit adj reachable cur M).
      pose proof (push_unseen_length (reachable ++ [cur]) (get_list_of cur adj) rest).
      apply IH; unfold reach_fuel;
        fold (unvisited_weight adj (reachable ++ [cur])); lia.
Qed.

(** [v] is [start] or lies on a path from it. *)
Definition reaches (es : list Edge) (start v : string) : Prop :=
  v = start \/ path es start v.

Lemma reaches_step es start e :
  In e es -> reaches es start (edge_from e) -> reaches es start (edge_to e).
Proof.
  intros He [Heq|Hp]; right.
  - rewrite <- Heq. now constructor.
  - now apply path_snoc.
Qed.

Lemma reach_loop_sound es start adj :
  (forall cur nb, In nb (get_list_of cur adj) ->
                  exists e, In e es /\ edge_from e = cur /\ edge_to e = nb) ->
  forall fuel stack reachable,
    (forall x, In x stack -> reaches es start x) ->
    (forall x, In x reachable -> reaches es start x) ->
    forall x, In x (fst (reach_loop fuel adj stack reachable)) -> reaches es start x.
Proof.
  intros Hadj. induction fuel as [|fuel IH]; intros stack reachable Hs Hr x Hx.
  - destruct stack; simpl in Hx; auto.
  - destruct stack as [|cur rest]; simpl in Hx; auto.
    destruct (mem_str cur reachable).
    + apply (IH rest reachable); [|exact Hr|exact Hx].
      intros y Hy. apply Hs. now right.
    + refine (IH _ _ _ _ x Hx).
      * intros y Hy. apply push_unseen_in in Hy. destruct Hy as [Hy|Hy].
        -- apply Hs. now right.
        -- destruct (Hadj _ _ Hy) as [e [He [Hf Ht]]]. subst y.
           apply reaches_step; auto. rewrite Hf. apply Hs. now left.
      * intros y Hy. apply in_app_or in Hy. destruct Hy as [Hy|[<-|[]]]; auto.
        apply Hs. now left.
Qed.

Lemma build_adj_edges ids es cur nb :
  NoDup ids ->
  In nb (get_list_of cur (build_adj ids es)) ->
  exists e, In e es /\ edge_from e = cur /\ edge_to e = nb.
Proof.
  intros Hnd Hin. unfold get_list_of in Hin.
  destruct (in_dec string_dec cur ids) as [Hc|Hc].
  - rewrite get_build_adj in Hin by assumption.
    unfold succs in Hin. apply in_map_iff in Hin. destruct Hin as [e [Ht He]].
    apply filter_In in He. destruct He as [He Hf].
    apply String.eqb_eq in Hf. eauto.
  - rewrite get_build_adj_out in Hin by assumption. destruct Hin.
Qed.

Lemma reachable_from_ends adj start :
  snd (reach_loop (reach_fuel adj [start] []) adj [start] []) = [].
Proof. apply reach_loop_ends. lia. Qed.

Lemma reachable_from_sound ids es start x :
  NoDup ids ->
  In x (reachable_from (build_adj ids es) start) -> reaches es start x.
Proof.
  intros Hnd Hx. unfold reachable_from in Hx.
  assert (Hadj : forall cur nb, In nb (get_list_of cur (build_adj ids es)) ->
                   exists e, In e es /\ edge_from e = cur /\ edge_to e = nb).
  { intros cur nb. now apply build_adj_edges. }
  assert (Hs : forall y, In y [start] -> reaches es start y).
  { intros y [<-|[]]. unfold reaches. auto. }
  assert (Hr : forall y, In y (@nil string) -> reaches es start y).
  { intros y []. }
  exact (@reach_loop_sound es start (build_adj ids es) Hadj _ _ _ Hs Hr x Hx).
Qed.

(** ** Definitions accepted by the validator *)

Definition node_ids (w : Workflow) : list string := map node_id (nodes w).

Definition of_type (ty : string) (w : Workflow) : list string :=
  map node_id (filter (fun n => String.eqb (node_type n) ty) (nodes w)).

Lemma filter_map_pairs (X V : Type) (kf : X -> string) (vf : X -> V)
    (P : string * V -> bool) xs :
  map fst (filter P (map (fun x => (kf x, vf x)) xs))
  = map kf (filter (fun x => P (kf x, vf x)) xs).
Proof.
  induction xs as [|x xs IH]; simpl; auto.
  destruct (P (kf x, vf x)); simpl; now rewrite IH.
Qed.

Lemma build_nodes_meta_distinct ns :
  NoDup (map node_id ns) ->
  build_nodes_meta ns = map (fun n => (node_id n, n)) ns.
Proof.
  intros Hnd. unfold build_nodes_meta.
  now rewrite (fold_set_distinct node_id (fun n => n)).
Qed.

Lemma keys_nodes_meta ns :
  NoDup (map node_id ns) -> keys (build_nodes_meta ns) = map node_id ns.
Proof.
  intros Hnd. rewrite build_nodes_meta_distinct by assumption.
  unfold keys. now rewrite map_map.
Qed.

Lemma get_nodes_meta ns n :
  NoDup (map node_id ns) -> In n ns ->
  get (node_id n) (build_nodes_meta ns) = Some n.
Proof.
  intros Hnd Hin. apply get_in_nodup.
  - now rewrite keys_nodes_meta.
  - rewrite build_nodes_meta_distinct by assumption.
    apply in_map_iff. now exists n.
Qed.

Lemma get_nodes_meta_inv ns k n :
  NoDup (map node_id ns) ->
  get k (build_nodes_meta ns) = Some n -> In n ns /\ node_id n = k.
Proof.
  intros Hnd Hg. apply get_some_in in Hg.
  rewrite build_nodes_meta_distinct in Hg by assumption.
  apply in_map_iff in Hg. destruct Hg as [x [Hx Hin]]. inversion Hx; subst. auto.
Qed.

Lemma nodes_of_type_distinct ty w :
  NoDup (node_ids w) ->
  nodes_of_type ty (build_nodes_meta (nodes w)) = of_type ty w.
Proof.
  intros Hnd. unfold nodes_of_type, of_type.
  rewrite build_nodes_meta_distinct by assumption.
  now rewrite (filter_map_pairs node_id (fun n => n)).
Qed.

Lemma ids_of_type_distinct ty w :
  NoDup (node_ids w) ->
  ids_of_type ty (fold_left (fun d n => set (node_id n) (node_type n) d) (nodes w) [])
  = of_type ty w.
Proof.
  intros Hnd. unfold ids_of_type, of_type.
  rewrite (fold_set_distinct node_id node_type) by assumption. simpl.
  now rewrite (filter_map_pairs node_id node_type).
Qed.

Lemma zero_keys (d : dict Z) :
  NoDup (keys d) ->
  map fst (filter (fun kv => Z.eqb (snd kv) 0) d)
  = filter (fun k => is_zero k d) (keys d).
Proof.
  induction d as [|[k c] d IH]; intros Hnd; simpl; auto.
  inversion Hnd; subst.
  unfold is_zero at 1. simpl. rewrite String.eqb_refl.
  assert (Heq : filter (fun k0 => is_zero k0 ((k, c) :: d)) (keys d)
                = filter (fun k0 => is_zero k0 d) (keys d)).
  { apply filter_ext_in. intros a Ha. unfold is_zero. simpl.
    destruct (String.eqb a k) eqn:E; auto.
    apply String.eqb_eq in E. subst. contradiction. }
  fold (keys d). rewrite Heq, <- IH by assumption.
  now destruct (Z.eqb c 0).
Qed.

Lemma executor_topo_toposort w :
  NoDup (node_ids w) -> executor_topo w = toposort (node_ids w) (edges w).
Proof.
  intros Hnd. unfold executor_topo, toposort.
  rewrite keys_nodes_meta by assumption. fold (node_ids w).
  rewrite zero_keys by (now rewrite keys_build_incoming).
  now rewrite keys_build_incoming.
Qed.

Lemma validator_topo_toposort w :
  fst (detect_cycles_and_toposort w) = toposort (node_ids w) (edges w).
Proof. reflexivity. Qed.

Lemma nodup_fixed (l : list string) : NoDup l -> set_of l = l.
Proof. apply nodup_fixed_point. Qed.

(** What a definition accepted by [validate_workflow] satisfies. *)
Record accepted (w : Workflow) (entry : string) : Prop := {
  acc_wf : well_formed w;
  acc_entry : of_type "user_query" w = [entry];
  acc_output : of_type "output" w <> [];
  acc_reach : forall v, In v (node_ids w) -> reaches (edges w) entry v;
  acc_acyclic : length (toposort (node_ids w) (edges w)) = length (node_ids w)
}.

Lemma raise_if_errors_passed errors k :
  raise_if_errors errors k = Passed -> errors = [] /\ k = Passed.
Proof. destruct errors; simpl; [auto|discriminate]. Qed.

Lemma validate_workflow_passed workflow r :
  validate_workflow workflow r = Passed ->
  validate_shape workflow = []
  /\ validate_nodes_and_edges workflow = Completed []
  /\ graph_checks (workflow_of workflow) r = [].
Proof.
  unfold validate_workflow. intros H.
  apply raise_if_errors_passed in H. destruct H as [Hs H].
  destruct (validate_nodes_and_edges workflow) as [errors|]; [|discriminate].
  apply raise_if_errors_passed in H. destruct H as [-> H].
  apply raise_if_errors_passed in H. tauto.
Qed.

Lemma graph_checks_accepted w :
  well_formed w -> graph_checks w true = [] -> exists entry, accepted w entry.
Proof.
  intros Hwf H. pose proof Hwf as [Hnd [Hends Htypes]].
  unfold graph_checks in H.
  rewrite !ids_of_type_distinct in H by assumption.
  apply app_eq_nil in H. destruct H as [Hentry H].
  apply app_eq_nil in H. destruct H as [Hout H].
  apply app_eq_nil in H. destruct H as [Hconn Hcyc].
  simpl in Hentry.
  destruct (Nat.eqb (length (of_type "user_query" w)) 1) eqn:E1; [|discriminate].
  apply Nat.eqb_eq in E1.
  destruct (of_type "user_query" w) as [|entry [|x l]] eqn:Eq; try discriminate.
  exists entry. constructor; auto.
  - destruct (of_type "output" w); [discriminate|congruence].
  - intros v Hv. fold (node_ids w) in Hconn.
    rewrite nodup_fixed in Hconn by assumption.
    destruct (filter _ (node_ids w)) eqn:Ef; [|discriminate].
    destruct (mem_str v (reachable_from (build_adj (node_ids w) (edges w)) entry)) eqn:M.
    + apply mem_str_In in M. eapply reachable_from_sound; eauto.
    + exfalso.
      assert (Hin : In v (filter (fun nid => negb (mem_str nid
                 (reachable_from (build_adj (node_ids w) (edges w)) entry)))
                 (node_ids w))).
      { apply filter_In. split; auto. now rewrite M. }
      rewrite Ef in Hin. destruct Hin.
  - unfold detect_cycles_and_toposort in Hcyc. simpl in Hcyc.
    fold (node_ids w) in Hcyc. fold (toposort (node_ids w) (edges w)) in Hcyc.
    destruct (Nat.eqb _ _) eqn:E; [|discriminate]. now apply Nat.eqb_eq.
Qed.

Lemma validated_accepted workflow :
  validate_workflow workflow true = Passed ->
  exists entry, accepted (workflow_of workflow) entry.
Proof.
  intros H. apply validate_workflow_passed in H. destruct H as [Hs [Hn Hg]].
  apply graph_checks_accepted; auto. now apply structural_well_formed.
Qed.

Lemma filter_singleton (f : string -> bool) (l : list string) a :
  NoDup l -> In a l -> (forall x, In x l -> (f x = true <-> x = a)) ->
  filter f l = [a].
Proof.
  induction l as [|x l IH]; intros Hnd Hin Hf; [destruct Hin|].
  inversion Hnd; subst. simpl.
  destruct (string_dec x a) as [->|Hne].
  - replace (f a) with true by (symmetry; apply Hf; [now left|reflexivity]).
    f_equal.
    assert (Hnone : forall y, In y l -> f y = false).
    { intros y Hy. destruct (f y) eqn:E; auto.
      apply Hf in E; [|now right]. subst. contradiction. }
    clear -Hnone. induction l as [|y l IH]; simpl; auto.
    rewrite Hnone by now left. apply IH. intros z Hz. apply Hnone. now right.
  - destruct (f x) eqn:E.
    + apply Hf in E; [|now left]. contradiction.
    + apply IH; auto.
      * destruct Hin; [contradiction|assumption].
      * intros y Hy. apply Hf. now right.
Qed.

Section Accepted.
Variable w : Workflow.
Variable entry : string.
Hypothesis Hacc : accepted w entry.

Let ids := node_ids w.
Let es := edges w.
Let topo := toposort ids es.

Lemma acc_nodup : NoDup ids.
Proof. exact (proj1 (acc_wf Hacc)). Qed.

Lemma acc_endpoints e : In e es -> In (edge_from e) ids /\ In (edge_to e) ids.
Proof. exact (proj1 (proj2 (acc_wf Hacc)) e). Qed.

Lemma acc_types n : In n (nodes w) -> In (node_type n) NODE_TYPES.
Proof. exact (proj2 (proj2 (acc_wf Hacc)) n). Qed.

Lemma of_type_in ty v :
  In v (of_type ty w) <-> exists n, In n (nodes w) /\ node_id n = v /\ node_type n = ty.
Proof.
  unfold of_type. rewrite in_map_iff. split.
  - intros [n [Hid Hin]]. apply filter_In in Hin. destruct Hin as [Hin Hty].
    apply String.eqb_eq in Hty. eauto.
  - intros [n [Hin [Hid Hty]]]. exists n. split; auto.
    apply filter_In. split; auto. now apply String.eqb_eq.
Qed.

Lemma entry_node :
  exists n, In n (nodes w) /\ node_id n = entry /\ node_type n = "user_query".
Proof. apply of_type_in. rewrite (acc_entry Hacc). now left. Qed.

Lemma entry_in_ids : In entry ids.
Proof.
  destruct entry_node as [n [Hin [<- _]]]. unfold ids, node_ids. now apply in_map.
Qed.

Lemma entry_unique n :
  In n (nodes w) -> node_type n = "user_query" -> node_id n = entry.
Proof.
  intros Hin Hty.
  assert (H : In (node_id n) (of_type "user_query" w)).
  { apply of_type_in. eauto. }
  rewrite (acc_entry Hacc) in H. destruct H as [H|[]]. auto.
Qed.

Lemma topo_all v : In v topo <-> In v ids.
Proof.
  split.
  - apply toposort_incl; [apply acc_nodup | apply acc_endpoints].
  - apply toposort_complete; [apply acc_nodup | apply acc_endpoints |].
    exact (acc_acyclic Hacc).
Qed.

Lemma topo_nodup : NoDup topo.
Proof. apply toposort_nodup; [apply acc_nodup | apply acc_endpoints]. Qed.

Lemma acc_no_cycle : ~ has_cycle es.
Proof.
  intros Hc.
  pose proof (toposort_cycle acc_nodup acc_endpoints Hc) as Hlt.
  pose proof (acc_acyclic Hacc) as Heq. fold ids es in Heq. lia.
Qed.

Lemma entry_no_incoming e : In e es -> edge_to e <> entry.
Proof.
  intros He Hto. apply acc_no_cycle. exists entry.
  destruct (acc_reach Hacc (edge_from e)) as [Heq|Hp].
  - now apply acc_endpoints.
  - rewrite <- Hto at 2. rewrite <- Heq. now constructor.
  - rewrite <- Hto at 2. now apply path_snoc.
Qed.

Lemma others_have_incoming v :
  In v ids -> v <> entry -> exists e, In e es /\ edge_to e = v.
Proof.
  intros Hv Hne. destruct (acc_reach Hacc v Hv) as [Heq|Hp]; [contradiction|].
  now apply path_end_is_target in Hp.
Qed.

Lemma preds_nil_iff v : preds es v = [] <-> forall e, In e es -> edge_to e <> v.
Proof.
  unfold preds. split.
  - intros H e He Hto.
    assert (Hin : In (edge_from e)
              (map edge_from (filter (fun e => String.eqb v (edge_to e)) es))).
    { apply in_map. apply filter_In. split; auto. rewrite Hto. apply String.eqb_refl. }
    rewrite H in Hin. destruct Hin.
  - intros H. destruct (filter _ es) as [|e l] eqn:E; auto.
    exfalso. assert (Hin : In e (filter (fun e => String.eqb v (edge_to e)) es)).
    { rewrite E. now left. }
    apply filter_In in Hin. destruct Hin as [Hin Heq].
    apply String.eqb_eq in Heq. apply (H e Hin). auto.
Qed.

Lemma entry_preds : preds es entry = [].
Proof. apply preds_nil_iff. intros e. apply entry_no_incoming. Qed.

Lemma others_preds v : In v ids -> v <> entry -> preds es v <> [].
Proof.
  intros Hv Hne Hnil. destruct (others_have_incoming Hv Hne) as [e [He Hto]].
  rewrite preds_nil_iff in Hnil. exact (Hnil e He Hto).
Qed.

Lemma is_zero_incoming v :
  In v ids -> (is_zero v (build_incoming ids es) = true <-> v = entry).
Proof.
  intros Hv. unfold is_zero. rewrite get_build_incoming by (auto using acc_nodup).
  split.
  - intros Hz. apply Z.eqb_eq in Hz.
    destruct (string_dec v entry) as [|Hne]; auto.
    pose proof (others_preds Hv Hne) as Hp.
    destruct (preds es v); [congruence|simpl in Hz; lia].
  - intros ->. now rewrite entry_preds.
Qed.

Lemma initial_queue :
  filter (fun nid => is_zero nid (build_incoming ids es)) ids = [entry].
Proof.
  apply filter_singleton.
  - apply acc_nodup.
  - apply entry_in_ids.
  - apply is_zero_incoming.
Qed.

Lemma topo_starts_with_entry : exists later, topo = entry :: later.
Proof.
  destruct (toposort_fifo ids es) as [later H].
  rewrite initial_queue in H. now exists later.
Qed.

Lemma roots_are_entry : fst (find_roots_and_leaves w) = [entry].
Proof.
  unfold find_roots_and_leaves. simpl. fold (node_ids w). fold ids.
  rewrite nodup_fixed by apply acc_nodup. fold es.
  rewrite zero_keys by (rewrite keys_build_incoming; apply acc_nodup).
  rewrite keys_build_incoming by apply acc_nodup.
  apply initial_queue.
Qed.

Lemma executor_topo_acc : executor_topo w = topo.
Proof. apply executor_topo_toposort, acc_nodup. Qed.
End Accepted.

Unset Implicit Arguments.

(** ** One node of a run *)

(** The result of the call [_safe_run_node(node_instance, inputs)] that the
    loop body makes for [node_id] when it starts in state [st]. *)
Definition invocation (env : Env) (nodes_meta : dict Node)
    (parents : dict (list string)) (node_id : string) (st : RunState)
  : option (result (dict value)) :=
  match get node_id nodes_meta with
  | Some node_meta =>
      match COMPONENT_MAP (node_type node_meta) with
      | Some node_cls =>
          match component_init env node_cls node_id (node_config node_meta) with
          | Some _ => None
          | None =>
              let inputs := collect_inputs parents node_id (context_map st) in
              let w2 := snd (read_perf_counter env (snd (read_utcnow env (world st)))) in
              Some (fst (_safe_run_node env node_cls node_id (node_config node_meta)
                                        inputs w2))
          end
      | None => None
      end
  | None => None
  end.

(** The entry of a node that completed. *)
Definition success_entry (e : dict value) (nid nty : string) (output : dict value)
  : Prop :=
  exists started duration,
    e = [("node_id", VStr nid); ("node_type", VStr nty);
         ("started_at", VStr started); ("status", VStr "success");
         ("duration_seconds", VFloat duration);
         ("output_keys", VList (map VStr (keys output)))].

(** The entry of a node that failed. *)
Definition error_entry (e : dict value) (nid nty msg : string) : Prop :=
  exists started,
    e = [("node_id", VStr nid); ("node_type", VStr nty);
         ("started_at", VStr started); ("status", VStr "error");
         ("error", VStr msg)].

Definition known (nodes_meta : dict Node) (nid : string) : Prop :=
  exists meta cls,
    get nid nodes_meta = Some meta /\ COMPONENT_MAP (node_type meta) = Some cls.

Lemma safe_run_ok env cls id config inputs w out w' :
  _safe_run_node env cls id config inputs w = (Ok out, w') ->
  exists d duration,
    component_run env cls id config inputs = Returns (VDict d)
    /\ out = set "_exec_duration" (VFloat duration) d.
Proof.
  unfold _safe_run_node. simpl.
  destruct (is_llm_component cls); [destruct (sem_acquire _) as [[|] w2]|]; simpl;
    try discriminate;
    destruct (component_run env cls id config inputs) as [[]| |]; simpl;
    try discriminate; intros [= <- _]; eauto.
Qed.

Lemma safe_run_ok_duration env cls id config inputs w out w' :
  _safe_run_node env cls id config inputs w = (Ok out, w') ->
  mem "_exec_duration" out = true.
Proof.
  intros H. apply safe_run_ok in H. destruct H as [d [dur [_ ->]]].
  now rewrite mem_set, String.eqb_refl.
Qed.

(** A component returns a dictionary in which every key occurs once. *)
Definition returns_wf_dicts (env : Env) : Prop :=
  forall cls id config inputs d,
    component_run env cls id config inputs = Returns (VDict d) -> NoDup (keys d).

Lemma safe_run_ok_nodup env cls id config inputs w out w' :
  returns_wf_dicts env ->
  _safe_run_node env cls id config inputs w = (Ok out, w') ->
  NoDup (keys out).
Proof.
  intros Hwf H. apply safe_run_ok in H. destruct H as [d [dur [Hrun ->]]].
  apply nodup_keys_set. eapply Hwf; eauto.
Qed.

Lemma run_node_spec env nm par nid st meta cls :
  get nid nm = Some meta ->
  COMPONENT_MAP (node_type meta) = Some cls ->
  let inputs := collect_inputs par nid (context_map st) in
  (exists out e w',
      invocation env nm par nid st = Some (Ok out)
      /\ run_node env nm par nid st
         = Next {| context_map := set nid out (context_map st);
                   trace := trace st ++ [e];
                   world := w';
                   dispatched := dispatched st ++ [(nid, inputs)] |}
      /\ success_entry e nid (node_type meta) out
      /\ mem "_exec_duration" out = true
      /\ (returns_wf_dicts env -> NoDup (keys out)))
  \/ (exists msg e w',
      invocation env nm par nid st = Some (Exc msg)
      /\ run_node env nm par nid st
         = Return (Failure nid (node_type meta) msg (trace st ++ [e]))
                  {| context_map := context_map st;
                     trace := trace st ++ [e];
                     world := w';
                     dispatched := dispatched st ++ [(nid, inputs)] |}
            /\ error_entry e nid (node_type meta) msg)
  \/ (exists exc,
      component_init env cls nid (node_config meta) = Some exc
      /\ invocation env nm par nid st = None
      /\ run_node env nm par nid st = ConstructorRaised exc st).
Proof.
  intros Hmeta Hcls inputs. unfold invocation, run_node. rewrite Hmeta, Hcls.
  fold inputs.
  destruct (component_init env cls nid (node_config meta)) as [exc|] eqn:Einit.
  { right. right. exists exc. auto. }
  simpl.
  destruct (_safe_run_node env cls nid (node_config meta) inputs _) as [[out|msg] w3] eqn:E.
  - left. simpl. eexists out, _, _. split; [reflexivity|]. split; [reflexivity|].
    split; [|split].
    + unfold success_entry. eexists _, _. reflexivity.
    + eapply safe_run_ok_duration; eauto.
    + intros Hwf. eapply safe_run_ok_nodup; eauto.
    - right. left. simpl. eexists msg, _, _. split; [reflexivity|]. split; [reflexivity|].
    unfold error_entry. eexists. reflexivity.
Qed.

(** ** The loop over the topological order *)

Section Run.
Variable env : Env.
Variable nm : dict Node.
Variable par : dict (list string).

Lemma run_nodes_app l1 : forall l2 st,
  run_nodes env nm par (l1 ++ l2) st
  = match run_nodes env nm par l1 st with
    | Next st' => run_nodes env nm par l2 st'
    | stop => stop
    end.
Proof.
  induction l1 as [|a l1 IH]; intros l2 st; simpl; auto.
  destruct (run_node env nm par a st); auto.
Qed.

Lemma run_nodes_return l : forall st r st',
  run_nodes env nm par l st = Return r st' ->
  exists l1 a l2 st1,
    l = l1 ++ a :: l2
    /\ run_nodes env nm par l1 st = Next st1
    /\ run_node env nm par a st1 = Return r st'.
Proof.
  induction l as [|a l IH]; intros st r st' H; simpl in H; [discriminate|].
  destruct (run_node env nm par a st) as [st1|r1 st1| |] eqn:E; try discriminate.
  - apply IH in H. destruct H as [l1 [b [l2 [st2 [-> [H1 H2]]]]]].
    exists (a :: l1), b, l2, st2. simpl. rewrite E. auto.
  - inversion H; subst. exists [], a, l, st. auto.
Qed.

Lemma run_node_next nid st st' :
  known nm nid ->
  run_node env nm par nid st = Next st' ->
  exists meta out e w',
    get nid nm = Some meta
    /\ invocation env nm par nid st = Some (Ok out)
    /\ st' = {| context_map := set nid out (context_map st);
                trace := trace st ++ [e];
                world := w';
                dispatched := dispatched st
                              ++ [(nid, collect_inputs par nid (context_map st))] |}
    /\ success_entry e nid (node_type meta) out
    /\ mem "_exec_duration" out = true
    /\ (returns_wf_dicts env -> NoDup (keys out)).
Proof.
  intros [meta [cls [Hm Hc]]] H.
  destruct (@run_node_spec env nm par nid st meta cls Hm Hc)
        as [[out [e [w' [Hi [Hr [He [Hd Hwf]]]]]]]
       |[[msg [e [w' [Hi [Hr He]]]]]|[exc [_ [_ Hr]]]]];
    rewrite Hr in H; try discriminate.
  inversion H. exists meta, out, e, w'. auto 10.
Qed.

Lemma run_node_return nid st r st' :
  known nm nid ->
  run_node env nm par nid st = Return r st' ->
  exists meta msg e w',
    get nid nm = Some meta
    /\ invocation env nm par nid st = Some (Exc msg)
    /\ r = Failure nid (node_type meta) msg (trace st ++ [e])
    /\ st' = {| context_map := context_map st;
                trace := trace st ++ [e];
                world := w';
                dispatched := dispatched st
                              ++ [(nid, collect_inputs par nid (context_map st))] |}
    /\ error_entry e nid (node_type meta) msg.
Proof.
  intros [meta [cls [Hm Hc]]] H.
  destruct (@run_node_spec env nm par nid st meta cls Hm Hc)
        as [[out [e [w' [Hi [Hr [He Hd]]]]]]
       |[[msg [e [w' [Hi [Hr He]]]]]|[exc [_ [_ Hr]]]]];
    rewrite Hr in H; try discriminate.
  inversion H. exists meta, msg, e, w'. auto.
Qed.



(** Outputs recorded for other nodes are left as they are. *)
Lemma run_nodes_frame l : forall st st',
  (forall n, In n l -> known nm n) ->
  run_nodes env nm par l st = Next st' ->
  forall k, ~ In k l -> get k (context_map st') = get k (context_map st).
Proof.
  induction l as [|a l IH]; intros st st' Hk H k Hn; simpl in H.
  - now inversion H.
  - destruct (run_node env nm par a st) as [st1| | |] eqn:E; try discriminate.
    apply run_node_next in E; [|apply Hk; now left].
    destruct E as [meta [out [e [w' [_ [_ [-> _]]]]]]].
    rewrite (IH _ _ (fun n Hn' => Hk n (or_intror Hn')) H k) by (simpl in Hn; tauto).
    simpl. apply get_set_other. simpl in Hn. intros ->. tauto.
Qed.

(** A node of [l] that was given [inputs] got them from a context that
    differs from the initial one only at the nodes before it, and from the
    final one only at itself and the nodes after it. *)
Definition dispatch_ok (l : list string) (c0 c' : dict (dict value))
    (d : string * dict value) : Prop :=
  exists l1 l2 c,
    l = l1 ++ fst d :: l2
    /\ snd d = collect_inputs par (fst d) c
    /\ (forall k, ~ In k l1 -> get k c = get k c0)
    /\ (forall k, ~ In k (fst d :: l2) -> get k c = get k c').

Lemma run_nodes_dispatched l : forall st st',
  (forall n, In n l -> known nm n) ->
  run_nodes env nm par l st = Next st' ->
  exists D,
    dispatched st' = dispatched st ++ D
    /\ map fst D = l
    /\ Forall (dispatch_ok l (context_map st) (context_map st')) D.
Proof.
  induction l as [|a l IH]; intros st st' Hk H; simpl in H.
  - inversion H. exists []. rewrite app_nil_r. auto.
  - destruct (run_node env nm par a st) as [st1| | |] eqn:E; try discriminate.
    assert (Hk' : forall n, In n l -> known nm n) by (intros n Hn; apply Hk; now right).
    pose proof (run_nodes_frame l _ _ Hk' H) as Hframe.
    apply run_node_next in E; [|apply Hk; now left].
    destruct E as [meta [out [e [w' [_ [_ [-> _]]]]]]].
    destruct (IH _ _ Hk' H) as [D [HD [Hmap Hall]]]. simpl in HD, Hall, Hframe.
    exists ((a, collect_inputs par a (context_map st)) :: D).
    split; [|split].
    + rewrite HD. now rewrite <- app_assoc.
    + simpl. now rewrite Hmap.
    + constructor.
      * exists [], l, (context_map st). simpl. repeat split; auto.
        intros k Hn. rewrite Hframe by tauto.
        symmetry. apply get_set_other. intros ->. tauto.
      * rewrite Forall_forall in *. intros d Hd.
        destruct (Hall d Hd) as [l1 [l2 [c [-> [Hin [H0 H1]]]]]].
        exists (a :: l1), l2, c. simpl. repeat split; auto.
        intros k Hn. rewrite H0 by tauto.
        apply get_set_other. intros ->. tauto.
Qed.

(** The entry and the recorded output of a node that completed. *)
Definition completed (c' : dict (dict value)) (nid : string) (e : dict value)
  : Prop :=
  exists meta out,
    get nid nm = Some meta
    /\ success_entry e nid (node_type meta) out
    /\ get nid c' = Some out
    /\ mem "_exec_duration" out = true
    /\ (returns_wf_dicts env -> NoDup (keys out)).

Lemma run_nodes_trace l : forall st st',
  NoDup l ->
  (forall n, In n l -> known nm n) ->
  run_nodes env nm par l st = Next st' ->
  exists T,
    trace st' = trace st ++ T /\ Forall2 (completed (context_map st')) l T.
Proof.
  induction l as [|a l IH]; intros st st' Hnd Hk H; simpl in H.
  - inversion H. exists []. rewrite app_nil_r. auto.
  - destruct (run_node env nm par a st) as [st1| | |] eqn:E; try discriminate.
    inversion Hnd; subst.
    assert (Hk' : forall n, In n l -> known nm n) by (intros n Hn; apply Hk; now right).
    pose proof (run_nodes_frame l _ _ Hk' H a H2) as Hframe.
    apply run_node_next in E; [|apply Hk; now left].
    destruct E as [meta [out [e [w' [Hm [_ [-> [He [Hd Hwf]]]]]]]]].
  destruct (IH _ _ H3 Hk' H) as [T [HT Hall]]. simpl in HT, Hframe.
    exists (e :: T). split.
    + rewrite HT. now rewrite <- app_assoc.
    + constructor; auto. exists meta, out. repeat split; auto.
      rewrite Hframe. apply get_set_same.
Qed.
End Run.

(** ** A run of an accepted definition *)

Definition trace_or_empty (trace0 : option (list (dict value))) : list (dict value) :=
  match trace0 with Some t => t | None => [] end.

(** The locals when the loop over [topo] starts. *)
Definition start_state (w : Workflow) (user_query : string)
    (trace0 : option (list (dict value))) (w0 : World) : RunState :=
  {| context_map :=
       [(hd "" (nodes_of_type "user_query" (build_nodes_meta (nodes w))),
         [("query", VStr user_query)])];
     trace := trace_or_empty trace0;
     world := w0;
     dispatched := [] |}.

Definition nodes_meta_of (w : Workflow) : dict Node := build_nodes_meta (nodes w).

Definition parents_of (w : Workflow) : dict (list string) :=
  build_parents (keys (build_nodes_meta (nodes w))) (edges w).

(** The value [execute_workflow_safe] returns after the loop. *)
Definition final_result (w : Workflow) (st : RunState) : dict value :=
  match map (fun nid => recorded nid (context_map st))
            (nodes_of_type "output" (build_nodes_meta (nodes w))) with
  | f :: _ => f
  | [] => []
  end.

Lemma COMPONENT_MAP_known ty : In ty NODE_TYPES -> exists cls, COMPONENT_MAP ty = Some cls.
Proof.
  intros [<-|[<-|[<-|[<-|[]]]]]; eexists; reflexivity.
Qed.

Section AcceptedRun.
Variable env : Env.
Variable w : Workflow.
Variable entry : string.
Hypothesis Hacc : accepted w entry.

Let nm := nodes_meta_of w.
Let par := parents_of w.
Let topo := executor_topo w.

Lemma acc_known n : In n (node_ids w) -> known nm n.
Proof.
  intros Hn. unfold node_ids in Hn. apply in_map_iff in Hn.
  destruct Hn as [node [<- Hin]].
  destruct (COMPONENT_MAP_known _ (@acc_types w entry Hacc node Hin)) as [cls Hcls].
  exists node, cls. split; auto.
  apply get_nodes_meta; auto. apply (@acc_nodup w entry Hacc).
Qed.

Lemma acc_topo_known n : In n topo -> known nm n.
Proof.
  intros Hn. apply acc_known. unfold topo in Hn.
  rewrite (@executor_topo_acc w entry Hacc) in Hn.
  now apply (@topo_all w entry Hacc).
Qed.

Lemma acc_topo_nodup : NoDup topo.
Proof.
  unfold topo. rewrite (@executor_topo_acc w entry Hacc).
  apply (@topo_nodup w entry Hacc).
Qed.

Lemma acc_topo_entry : exists later, topo = entry :: later.
Proof.
  unfold topo. rewrite (@executor_topo_acc w entry Hacc).
  apply (@topo_starts_with_entry w entry Hacc).
Qed.

Lemma acc_parents n : In n (node_ids w) -> get n par = Some (preds (edges w) n).
Proof.
  intros Hn. unfold par, parents_of.
  rewrite keys_nodes_meta by apply (@acc_nodup w entry Hacc).
  apply get_build_parents; auto. apply (@acc_nodup w entry Hacc).
Qed.

Lemma acc_start_state q tr0 w0 :
  start_state w q tr0 w0
  = {| context_map := [(entry, [("query", VStr q)])];
       trace := trace_or_empty tr0;
       world := w0;
       dispatched := [] |}.
Proof.
  unfold start_state.
  rewrite nodes_of_type_distinct by apply (@acc_nodup w entry Hacc).
  now rewrite (acc_entry Hacc).
Qed.

Lemma run_validated_acc q tr0 w0 :
  run_validated env w q (trace_or_empty tr0) w0
  = match run_nodes env nm par topo (start_state w q tr0 w0) with
    | KeyError => RaisedKeyError
    | ConstructorRaised exc st => RaisedByConstructor exc st
    | Return r st => Returned r st
    | Next st => Returned (Success (final_result w st) (trace st)) st
    end.
Proof.
  rewrite acc_start_state. unfold run_validated.
  rewrite nodes_of_type_distinct by apply (@acc_nodup w entry Hacc).
  rewrite (acc_entry Hacc). reflexivity.
Qed.
End AcceptedRun.

Lemma execute_validated env workflow q tr0 w0 :
  validate_workflow workflow true = Passed ->
  execute_workflow_safe env workflow q tr0 w0
  = run_validated env (workflow_of workflow) q (trace_or_empty tr0) w0.
Proof. intros H. unfold execute_workflow_safe. now rewrite H. Qed.

(** * The claims *)

(** ** Sample definitions and environments *)

Definition json_node (id ty : string) : value :=
  VDict [("id", VStr id); ("type", VStr ty); ("config", VDict [])].

Definition json_edge (src tgt : string) : value :=
  VDict [("from", VStr src); ("to", VStr tgt)].

Definition json_workflow (ns es : list value) : value :=
  VDict [("nodes", VList ns); ("edges", VList es)].

(** [entry -> A -> B -> terminal] *)
Definition chain_workflow : value :=
  json_workflow
    [json_node "entry" "user_query"; json_node "A" "knowledge_base";
     json_node "B" "llm_engine"; json_node "terminal" "output"]
    [json_edge "entry" "A"; json_edge "A" "B"; json_edge "B" "terminal"].

Lemma chain_workflow_passes : validate_workflow chain_workflow true = Passed.
Proof. vm_compute. reflexivity. Qed.

Definition sample_clock (n : nat) : Q := inject_Z (Z.of_nat n).

Definition fresh_world : World :=
  {| permits := LLM_CONCURRENCY_LIMIT; clock_reads := 0; sem_history := [] |}.

(** ** C8: the LLM permit *)

(** C8.  An invocation of a rate-limited (LLM) node either finds no permit
    free and fails with the resource-exhaustion error, the semaphore never
    having been acquired, or it acquires one permit and releases it exactly
    once, whatever the component does (return, raise, overrun, return a
    non-dictionary): the number of free permits is the same afterwards. *)
Theorem safe_run_node_releases_permit :
  forall env id config inputs w,
    let r := _safe_run_node env LLMEngineComponent id config inputs w in
    (permits w = 0
     /\ fst r = Exc "Could not acquire LLM semaphore (too many concurrent LLM calls)"
     /\ sem_history (snd r) = sem_history w
     /\ permits (snd r) = permits w)
    \/ (0 < permits w
        /\ sem_history (snd r) = sem_history w ++ [Acquired; Released]
        /\ permits (snd r) = permits w).
Proof.
  intros env id config inputs w. unfold _safe_run_node. simpl.
  unfold sem_acquire. simpl.
  destruct (permits w) as [|p] eqn:Hp; simpl.
  - left. auto.
  - right. split; [lia|].
    destruct (component_run env LLMEngineComponent id config inputs) as [[]| |];
      simpl; rewrite <- app_assoc; auto.
Qed.

(** ** C3: the scheduler order *)

(** C3.  For a validated definition, the order computed by the executor is the
    one computed by the validator, holds every node exactly once, and puts
    every node after all its direct predecessors.  The queue is first in,
    first out: the inner loop only appends to its end, the outer loop comes
    to its end, and what is in the queue leaves it, in queue order, before
    anything enqueued later; the order is a function of the definition. *)
Theorem scheduler_order_is_topological :
  forall workflow,
    validate_workflow workflow true = Passed ->
    let w := workflow_of workflow in
    let topo := executor_topo w in
    topo = fst (detect_cycles_and_toposort w)
    /\ NoDup topo
    /\ (forall v, In v topo <-> In v (node_ids w))
    /\ (forall e, In e (edges w) -> before topo (edge_from e) (edge_to e))
    /\ (forall ms st, exists new, snd (fold_left relax ms st) = snd st ++ new)
    /\ (forall adj inc q done,
           snd (kahn_loop (kahn_fuel inc q) adj inc q done) = []
           /\ exists later,
               fst (kahn_loop (kahn_fuel inc q) adj inc q done) = done ++ q ++ later).
Proof.
  intros workflow Hval w topo.
  destruct (validated_accepted _ Hval) as [entry Hacc]. fold w in Hacc.
  assert (Htopo : topo = toposort (node_ids w) (edges w)).
  { apply (@executor_topo_acc w entry Hacc). }
  split; [|split; [|split; [|split; [|split]]]].
  - rewrite Htopo. symmetry. apply validator_topo_toposort.
  - rewrite Htopo. apply (@topo_nodup w entry Hacc).
  - intros v. rewrite Htopo. apply (@topo_all w entry Hacc).
  - intros e He. rewrite Htopo. apply toposort_edge.
    + apply (@acc_nodup w entry Hacc).
    + apply (@acc_endpoints w entry Hacc).
    + exact He.
    + apply (@topo_all w entry Hacc). now apply (@acc_endpoints w entry Hacc).
  - intros ms st. apply queue_fold_relax_grows.
  - intros adj inc q done.
    assert (Hend : snd (kahn_loop (kahn_fuel inc q) adj inc q done) = [])
      by (apply kahn_loop_ends; lia).
    split; [exact Hend|]. now apply kahn_loop_fifo.
Qed.

Lemma scheduler_order_is_topological_witness :
  let w := workflow_of chain_workflow in
  let topo := executor_topo w in
  topo = fst (detect_cycles_and_toposort w)
  /\ NoDup topo
  /\ (forall v, In v topo <-> In v (node_ids w))
  /\ (forall e, In e (edges w) -> before topo (edge_from e) (edge_to e))
  /\ (forall ms st, exists new, snd (fold_left relax ms st) = snd st ++ new)
  /\ (forall adj inc q done,
         snd (kahn_loop (kahn_fuel inc q) adj inc q done) = []
         /\ exists later,
             fst (kahn_loop (kahn_fuel inc q) adj inc q done) = done ++ q ++ later).
Proof.
  apply (scheduler_order_is_topological chain_workflow).
  vm_compute. reflexivity.
Defined.

Example chain_order :
  executor_topo (workflow_of chain_workflow) = ["entry"; "A"; "B"; "terminal"].
Proof. reflexivity. Qed.

(** ** C5: cycles *)

Definition cycle_error : ValidationErrorItem :=
  item "workflow" "Cycle detected in workflow (graph is not a DAG)".

(** [entry -> A -> o] with a self-loop on [A]. *)
Definition self_loop_workflow : value :=
  json_workflow
    [json_node "entry" "user_query"; json_node "A" "knowledge_base";
     json_node "o" "output"]
    [json_edge "entry" "A"; json_edge "A" "A"; json_edge "A" "o"].

(** C5.  For a definition that passes the shape and structural phases, the
    cycle error is reported exactly when Kahn's order is shorter than the node
    list; when the definition has a directed cycle (a self-loop included) the
    order is shorter, [validate_workflow] raises an error list holding the
    cycle error, and [execute_workflow_safe] ends by raising that list: no
    node is dispatched. *)
Theorem cycle_is_rejected :
  forall workflow,
    validate_shape workflow = [] ->
    validate_nodes_and_edges workflow = Completed [] ->
    let w := workflow_of workflow in
    (snd (detect_cycles_and_toposort w) = [cycle_error]
     <-> length (fst (detect_cycles_and_toposort w)) < length (node_ids w))
    /\ (snd (detect_cycles_and_toposort w) = []
        <-> length (fst (detect_cycles_and_toposort w)) = length (node_ids w))
    /\ (has_cycle (edges w) ->
        length (fst (detect_cycles_and_toposort w)) < length (node_ids w)
        /\ forall r, exists errors,
            validate_workflow workflow r = WorkflowValidationError errors
            /\ In cycle_error errors
            /\ (r = true ->
                forall env q tr0 w0,
                  execute_workflow_safe env workflow q tr0 w0
                  = RaisedValidationError errors)).
Proof.
  intros workflow Hshape Hstruct w.
  pose proof (structural_well_formed workflow Hshape Hstruct) as [Hnd [Hends _]].
  fold w in Hnd, Hends.
  pose proof (@toposort_length (node_ids w) (edges w) Hnd Hends) as Hle.
  assert (Hsnd : snd (detect_cycles_and_toposort w)
                 = if Nat.eqb (length (toposort (node_ids w) (edges w)))
                              (length (node_ids w))
                   then [] else [cycle_error]) by reflexivity.
  rewrite validator_topo_toposort, Hsnd.
  split; [|split].
  - destruct (Nat.eqb_spec (length (toposort (node_ids w) (edges w)))
                           (length (node_ids w))); split; intros H;
      try discriminate; try lia; auto.
  - destruct (Nat.eqb_spec (length (toposort (node_ids w) (edges w)))
                           (length (node_ids w))); split; intros H;
      try discriminate; try lia; auto.
  - intros Hcyc.
    pose proof (@toposort_cycle (node_ids w) (edges w) Hnd Hends Hcyc) as Hlt.
    split; [exact Hlt|]. intros r.
    assert (Hin : In cycle_error (graph_checks w r)).
    { unfold graph_checks. rewrite Hsnd.
      destruct (Nat.eqb_spec (length (toposort (node_ids w) (edges w)))
                             (length (node_ids w))); [lia|].
      apply in_or_app; right. apply in_or_app; right. apply in_or_app; right.
      now left. }
    assert (Hv : validate_workflow workflow r
                 = WorkflowValidationError (graph_checks w r)).
    { unfold validate_workflow. rewrite Hshape, Hstruct. simpl. fold w.
      destruct (graph_checks w r); [destruct Hin|reflexivity]. }
    exists (graph_checks w r). split; [exact Hv|]. split; [exact Hin|].
    intros -> env q tr0 w0. unfold execute_workflow_safe. now rewrite Hv.
Qed.

Lemma self_loop_has_cycle : has_cycle (edges (workflow_of self_loop_workflow)).
Proof.
  exists "A".
  apply (path_edge (edges (workflow_of self_loop_workflow))
                   {| edge_from := "A"; edge_to := "A" |}).
  simpl. auto.
Defined.

Lemma cycle_is_rejected_witness :
  let w := workflow_of self_loop_workflow in
  (snd (detect_cycles_and_toposort w) = [cycle_error]
   <-> length (fst (detect_cycles_and_toposort w)) < length (node_ids w))
  /\ (snd (detect_cycles_and_toposort w) = []
      <-> length (fst (detect_cycles_and_toposort w)) = length (node_ids w))
  /\ length (fst (detect_cycles_and_toposort w)) < length (node_ids w)
  /\ forall r, exists errors,
      validate_workflow self_loop_workflow r = WorkflowValidationError errors
      /\ In cycle_error errors
      /\ (r = true ->
          forall env q tr0 w0,
            execute_workflow_safe env self_loop_workflow q tr0 w0
            = RaisedValidationError errors).
Proof.
  assert (Hshape : validate_shape self_loop_workflow = []) by reflexivity.
  assert (Hstruct : validate_nodes_and_edges self_loop_workflow = Completed [])
    by reflexivity.
  destruct (cycle_is_rejected self_loop_workflow Hshape Hstruct) as [H1 [H2 H3]].
  split; [exact H1|]. split; [exact H2|]. exact (H3 self_loop_has_cycle).
Defined.

Example self_loop_rejected :
  validate_workflow self_loop_workflow true = WorkflowValidationError [cycle_error].
Proof. reflexivity. Qed.

(** ** What a returned run looks like *)

Definition response_trace (r : Response) : list (dict value) :=
  match r with
  | Failure _ _ _ tr => tr
  | Success _ tr => tr
  end.

Lemma dispatch_ok_snoc par l a c0 c' d :
  dispatch_ok par l c0 c' d -> dispatch_ok par (l ++ [a]) c0 c' d.
Proof.
  intros [l1 [l2 [c [-> [Hin [H0 H1]]]]]].
  exists l1, (l2 ++ [a]), c. rewrite <- app_assoc. simpl.
  repeat split; auto. intros k Hk. apply H1. intros [Heq|Hk'].
  - apply Hk. now left.
  - apply Hk. right. apply in_or_app. now left.
Qed.

Section Summary.
Variable env : Env.
Variable w : Workflow.
Variable entry : string.
Hypothesis Hacc : accepted w entry.
Variable q : string.
Variable tr0 : option (list (dict value)).
Variable w0 : World.

Let nm := nodes_meta_of w.
Let par := parents_of w.
Let ctx0 : dict (dict value) := [(entry, [("query", VStr q)])].

(** How the run ended: every node completed, or the nodes of [pre] completed
    and [a] failed. *)
Definition run_shape (r : Response) (final : RunState) (done post : list string)
    (T : list (dict value)) : Prop :=
  (r = Success (final_result w final) (trace final)
   /\ post = []
   /\ Forall2 (completed env nm (context_map final)) done T
   /\ (forall k, ~ In k done -> get k (context_map final) = get k ctx0))
  \/ (exists pre a meta msg e T1,
         done = pre ++ [a]
         /\ T = T1 ++ [e]
         /\ Forall2 (completed env nm (context_map final)) pre T1
         /\ get a nm = Some meta
         /\ error_entry e a (node_type meta) msg
         /\ r = Failure a (node_type meta) msg (trace final)
         /\ (forall k, ~ In k pre -> get k (context_map final) = get k ctx0)).

Lemma run_summary r final :
  run_validated env w q (trace_or_empty tr0) w0 = Returned r final ->
  exists done post T,
    executor_topo w = done ++ post
    /\ map fst (dispatched final) = done
    /\ Forall (dispatch_ok par done ctx0 (context_map final)) (dispatched final)
    /\ trace final = trace_or_empty tr0 ++ T
    /\ run_shape r final done post T.
Proof.
  rewrite (run_validated_acc env w entry Hacc q tr0 w0).
  pose proof (acc_start_state w entry Hacc q tr0 w0) as Hst0.
  pose proof (acc_topo_known w entry Hacc) as Hknown.
  pose proof (acc_topo_nodup w entry Hacc) as Hnd.
  destruct (run_nodes env (nodes_meta_of w) (parents_of w) (executor_topo w)
                      (start_state w q tr0 w0)) as [st|r' st'| |] eqn:E;
    intros H; inversion H; subst; clear H.
  - destruct (run_nodes_dispatched env _ _ _ _ _ Hknown E) as [D [HD [Hmap Hall]]].
    destruct (run_nodes_trace env _ _ _ _ _ Hnd Hknown E) as [T [HT HF]].
    pose proof (run_nodes_frame env _ _ _ _ _ Hknown E) as Hframe.
    rewrite Hst0 in HD, HT, Hall, Hframe. simpl in HD, HT, Hall, Hframe.
    exists (executor_topo w), [], T. rewrite app_nil_r.
    split; [reflexivity|]. split; [now rewrite HD|].
    split; [now rewrite HD|]. split; [exact HT|].
    left. auto.
  - apply run_nodes_return in E.
    destruct E as [l1 [a [l2 [st1 [Htopo [Hpre Hret]]]]]].
    assert (Hk1 : forall n, In n l1 -> known (nodes_meta_of w) n).
    { intros n Hn. apply Hknown. rewrite Htopo. apply in_or_app. now left. }
    assert (Hka : known (nodes_meta_of w) a).
    { apply Hknown. rewrite Htopo. apply in_or_app. right. now left. }
    assert (Hnd1 : NoDup l1).
    { rewrite Htopo in Hnd. now apply NoDup_app_remove_r in Hnd. }
    destruct (run_nodes_dispatched env _ _ _ _ _ Hk1 Hpre) as [D [HD [Hmap Hall]]].
    destruct (run_nodes_trace env _ _ _ _ _ Hnd1 Hk1 Hpre) as [T1 [HT HF]].
    pose proof (run_nodes_frame env _ _ _ _ _ Hk1 Hpre) as Hframe.
    rewrite Hst0 in HD, HT, Hall, Hframe. simpl in HD, HT, Hall, Hframe.
    apply run_node_return in Hret; [|exact Hka].
    destruct Hret as [meta [msg [e [w' [Hm [_ [-> [-> He]]]]]]]].
    exists (l1 ++ [a]), l2, (T1 ++ [e]). simpl.
    split; [now rewrite Htopo, <- app_assoc|].
    split; [rewrite HD, map_app, Hmap; reflexivity|].
    split; [|split].
    + rewrite HD. apply Forall_app. split.
      * rewrite Forall_forall in *. intros d Hd. now apply dispatch_ok_snoc, Hall.
      * constructor; [|constructor].
        exists l1, [], (context_map st1). simpl. repeat split; auto.
    + rewrite HT. now rewrite <- app_assoc.
    + right. exists l1, a, meta, msg, e, T1. repeat split; auto.
Qed.
End Summary.

(** ** C9: the entry node *)

Lemma run_shape_done_nonempty env w q r final done post T later entry :
  run_shape env w entry q r final done post T -> done ++ post = entry :: later ->
  exists done', done = entry :: done'.
Proof.
  intros [[_ [-> _]]|[pre [a [meta [msg [e [T1 [-> _]]]]]]]] H.
  - rewrite app_nil_r in H. eauto.
  - destruct pre as [|x pre]; simpl in *; inversion H; eauto.
Qed.

Lemma entry_inputs env w entry q tr0 w0 r final :
  accepted w entry ->
  run_validated env w q (trace_or_empty tr0) w0 = Returned r final ->
  exists rest,
    dispatched final = (entry, [("query", VStr q)]) :: rest
    /\ ~ In entry (map fst rest).
Proof.
  intros Hacc Hrun.
  destruct (run_summary env w entry Hacc q tr0 w0 r final Hrun)
    as [done [post [T [Htopo [Hmap [Hall [_ Hshape]]]]]]].
  destruct (acc_topo_entry w entry Hacc) as [later Hlater].
  rewrite Htopo in Hlater.
  destruct (run_shape_done_nonempty _ _ _ _ _ _ _ _ _ _ Hshape Hlater) as [done' ->].
  pose proof (acc_topo_nodup w entry Hacc) as Hnd. rewrite Htopo in Hnd.
  apply NoDup_app_remove_r in Hnd.
  destruct (dispatched final) as [|[n inp] rest]; [discriminate|].
  simpl in Hmap. inversion Hmap; subst n.
  exists rest. split.
  - f_equal. f_equal.
    inversion Hall as [|d ds Hd _]; subst.
    destruct Hd as [l1 [l2 [c [Heq [Hin [H0 _]]]]]]. simpl in Heq, Hin.
    assert (Hl1 : [] = l1 /\ map fst rest = l2).
    { apply (@nodup_split_unique [] _ l1 l2 entry); simpl; auto. }
    destruct Hl1 as [<- _]. rewrite Hin. unfold collect_inputs.
    rewrite (acc_parents w entry Hacc entry) by apply (@entry_in_ids w entry Hacc).
    rewrite (@entry_preds w entry Hacc). unfold recorded.
    rewrite H0 by tauto. simpl. now rewrite String.eqb_refl.
  - inversion Hnd; subst. assumption.
Qed.

(** C9.  In a definition accepted by [validate_workflow] the user_query node
    is unique, no edge enters it, every other node has an incoming edge (so it
    is the only root), it is the first node of the scheduler order, and every
    returned run dispatched it first, once, with exactly the seeded input
    [{query: user_query}]. *)
Theorem entry_node_is_the_only_root :
  forall workflow,
    validate_workflow workflow true = Passed ->
    let w := workflow_of workflow in
    exists entry,
      of_type "user_query" w = [entry]
      /\ (forall e, In e (edges w) -> edge_to e <> entry)
      /\ (forall v, In v (node_ids w) -> v <> entry ->
                    exists e, In e (edges w) /\ edge_to e = v)
      /\ fst (find_roots_and_leaves w) = [entry]
      /\ (exists later, executor_topo w = entry :: later)
      /\ (forall env q tr0 w0 r final,
             execute_workflow_safe env workflow q tr0 w0 = Returned r final ->
             exists rest,
               dispatched final = (entry, [("query", VStr q)]) :: rest
               /\ ~ In entry (map fst rest)).
Proof.
  intros workflow Hval w.
  destruct (validated_accepted _ Hval) as [entry Hacc]. fold w in Hacc.
  exists entry. split; [exact (acc_entry Hacc)|].
  split; [apply (@entry_no_incoming w entry Hacc)|].
  split; [apply (@others_have_incoming w entry Hacc)|].
  split; [apply (@roots_are_entry w entry Hacc)|].
  split; [apply (acc_topo_entry w entry Hacc)|].
  intros env q tr0 w0 r final Hrun.
  rewrite (execute_validated env workflow q tr0 w0 Hval) in Hrun.
  eapply entry_inputs; eauto.
Qed.

Lemma entry_node_is_the_only_root_witness :
  let w := workflow_of chain_workflow in
  exists entry,
    of_type "user_query" w = [entry]
    /\ (forall e, In e (edges w) -> edge_to e <> entry)
    /\ (forall v, In v (node_ids w) -> v <> entry ->
                  exists e, In e (edges w) /\ edge_to e = v)
    /\ fst (find_roots_and_leaves w) = [entry]
    /\ (exists later, executor_topo w = entry :: later)
    /\ (forall env q tr0 w0 r final,
           execute_workflow_safe env chain_workflow q tr0 w0 = Returned r final ->
           exists rest,
             dispatched final = (entry, [("query", VStr q)]) :: rest
             /\ ~ In entry (map fst rest)).
Proof.
  apply (entry_node_is_the_only_root chain_workflow).
  vm_compute. reflexivity.
Defined.

(** ** The classes the executor imports *)

(** [executor_safe.py] takes the four classes of [COMPONENT_MAP] from its own
    package ([from .user_query import UserQueryComponent] and the like in
    [app/workflow]).  Each of them declares [__init__(self, config)] and an
    [async def process]; none has a parameter [id], none a method [run].
    The call [node_cls(id=node_id, config=node_meta.get("config", {}))]
    therefore raises [TypeError] for every class of the map, whatever the id
    and the config; it stands before the [try], so the exception leaves
    [execute_workflow_safe]. *)
Definition class_name (cls : Component) : string :=
  match cls with
  | UserQueryComponent => "UserQueryComponent"
  | KnowledgeBaseComponent => "KnowledgeBaseComponent"
  | LLMEngineComponent => "LLMEngineComponent"
  | OutputComponent => "OutputComponent"
  end.

(** An environment whose constructors do what those of the imported classes
    do. *)
Definition imported_classes (env : Env) : Prop :=
  forall cls id config, exists exc, component_init env cls id config = Some exc.

(** The imported classes, with the messages of CPython 3.10 and later. *)
Definition imported_env : Env :=
  {| perf_counter := sample_clock;
     utcnow_isoformat := fun _ => "2024-01-01T00:00:00";
     component_init := fun cls _ _ =>
       Some (String.append (class_name cls)
                           ".__init__() got an unexpected keyword argument 'id'");
     component_run := fun cls _ _ _ =>
       Raises (String.append "'"
                 (String.append (class_name cls) "' object has no attribute 'run'")) |}.

Lemma imported_env_classes : imported_classes imported_env.
Proof. intros cls id config. eexists. reflexivity. Defined.

(** Two predecessors of [o] that supply the same key. *)
Definition diamond_workflow (first second : string) : value :=
  json_workflow
    [json_node "q" "user_query"; json_node "k1" "knowledge_base";
     json_node "k2" "knowledge_base"; json_node "o" "output"]
    [json_edge "q" "k1"; json_edge "q" "k2";
     json_edge first "o"; json_edge second "o"].

(** [q -> o1 -> o2], with [o2] listed before [o1] among the nodes. *)
Definition two_outputs_workflow : value :=
  json_workflow
    [json_node "q" "user_query"; json_node "o2" "output"; json_node "o1" "output"]
    [json_edge "q" "o1"; json_edge "o1" "o2"].

(** The locals when the constructor of the entry node raises. *)
Definition seeded_state (entry q : string) (tr0 : option (list (dict value)))
    (w0 : World) : RunState :=
  {| context_map := [(entry, [("query", VStr q)])];
     trace := trace_or_empty tr0;
     world := w0;
     dispatched := [] |}.

(** On a validated definition the first iteration of the loop is that of the
    entry node, and it ends in the constructor call. *)
Lemma run_stops_at_entry_constructor env workflow q tr0 w0 :
  validate_workflow workflow true = Passed ->
  imported_classes env ->
  exists entry node exc,
    of_type "user_query" (workflow_of workflow) = [entry]
    /\ In node (nodes (workflow_of workflow))
    /\ node_id node = entry
    /\ node_type node = "user_query"
    /\ (exists later, executor_topo (workflow_of workflow) = entry :: later)
    /\ component_init env UserQueryComponent entry (node_config node) = Some exc
    /\ execute_workflow_safe env workflow q tr0 w0
       = RaisedByConstructor exc (seeded_state entry q tr0 w0).
Proof.
  intros Hval Hcls.
  destruct (validated_accepted workflow Hval) as [entry Hacc].
  set (w := workflow_of workflow) in *.
  destruct (@entry_node w entry Hacc) as [node [Hin [Hid Hty]]].
  destruct (acc_topo_entry w entry Hacc) as [later Htopo].
  destruct (Hcls UserQueryComponent entry (node_config node)) as [exc Hexc].
  exists entry, node, exc.
  split; [exact (acc_entry Hacc)|]. split; [exact Hin|].
  split; [exact Hid|]. split; [exact Hty|].
  split; [now exists later|]. split; [exact Hexc|].
  rewrite (execute_validated env workflow q tr0 w0 Hval). fold w.
  rewrite (run_validated_acc env w entry Hacc q tr0 w0), Htopo.
  rewrite (acc_start_state w entry Hacc q tr0 w0).
  assert (Hget : get entry (nodes_meta_of w) = Some node).
  { rewrite <- Hid. apply get_nodes_meta; auto. apply (@acc_nodup w entry Hacc). }
  unfold run_nodes, run_node. rewrite Hget, Hty.
  change (COMPONENT_MAP "user_query") with (Some UserQueryComponent).
  cbv beta iota zeta. rewrite Hexc. reflexivity.
Qed.

(** The two branches after the call of [_safe_run_node], for components that
    could be constructed: the [try] branch records a duration, the [except]
    branch does not. *)
Lemma try_branch_records_a_duration env nm par nid st st' :
  known nm nid ->
  run_node env nm par nid st = Next st' ->
  exists e duration,
    trace st' = trace st ++ [e]
    /\ get "status" e = Some (VStr "success")
    /\ get "duration_seconds" e = Some (VFloat duration).
Proof.
  intros Hk H. apply run_node_next in H; [|exact Hk].
  destruct H as [meta [out [e [w' [_ [_ [-> [[started [duration ->]] _]]]]]]]].
  eexists _, duration. split; [reflexivity|]. split; reflexivity.
Qed.

Lemma except_branch_records_no_duration env nm par nid st r st' :
  known nm nid ->
  run_node env nm par nid st = Return r st' ->
  exists e,
    trace st' = trace st ++ [e]
    /\ get "status" e = Some (VStr "error")
    /\ get "duration_seconds" e = None.
Proof.
  intros Hk H. apply run_node_return in H; [|exact Hk].
  destruct H as [meta [msg [e [w' [_ [_ [_ [-> [started ->]]]]]]]]].
  eexists. split; [reflexivity|]. split; reflexivity.
Qed.

(** ** C1: a node that fails *)

(** C1.  With the classes the executor imports, on every validated
    definition the first node to fail is the entry node, in its construction
    ([TypeError], line 135), and that failure is not turned into a response:
    the exception leaves [execute_workflow_safe], which returns no [Failure]
    naming a node, for the chain [entry -> A -> B -> terminal] as for any
    other definition. *)
Theorem constructor_failure_escapes_the_run :
  forall env workflow q tr0 w0,
    validate_workflow workflow true = Passed ->
    imported_classes env ->
    exists entry node exc final,
      (exists later, executor_topo (workflow_of workflow) = entry :: later)
      /\ In node (nodes (workflow_of workflow))
      /\ node_id node = entry
      /\ component_init env UserQueryComponent entry (node_config node) = Some exc
      /\ execute_workflow_safe env workflow q tr0 w0 = RaisedByConstructor exc final
      /\ (forall nid nty msg tr st,
             execute_workflow_safe env workflow q tr0 w0
             <> Returned (Failure nid nty msg tr) st).
Proof.
  intros env workflow q tr0 w0 Hval Hcls.
  destruct (run_stops_at_entry_constructor env workflow q tr0 w0 Hval Hcls)
    as [entry [node [exc [_ [Hin [Hid [_ [Htopo [Hexc Hrun]]]]]]]]].
  exists entry, node, exc, (seeded_state entry q tr0 w0).
  split; [exact Htopo|]. split; [exact Hin|]. split; [exact Hid|].
  split; [exact Hexc|]. split; [exact Hrun|].
  intros nid nty msg tr st. rewrite Hrun. discriminate.
Qed.

Lemma constructor_failure_escapes_the_run_witness :
  exists entry node exc final,
    (exists later, executor_topo (workflow_of chain_workflow) = entry :: later)
    /\ In node (nodes (workflow_of chain_workflow))
    /\ node_id node = entry
    /\ component_init imported_env UserQueryComponent entry (node_config node)
       = Some exc
    /\ execute_workflow_safe imported_env chain_workflow "What is X?" None fresh_world
       = RaisedByConstructor exc final
    /\ (forall nid nty msg tr st,
           execute_workflow_safe imported_env chain_workflow "What is X?" None
                                 fresh_world
           <> Returned (Failure nid nty msg tr) st).
Proof.
  apply (constructor_failure_escapes_the_run imported_env chain_workflow
           "What is X?" None fresh_world).
  - vm_compute. reflexivity.
  - exact imported_env_classes.
Defined.

(** The chain, whatever the components would do when run. *)
Example chain_run_raises_at_the_entry :
  forall run,
    execute_workflow_safe
      {| perf_counter := sample_clock;
         utcnow_isoformat := utcnow_isoformat imported_env;
         component_init := component_init imported_env;
         component_run := run |}
      chain_workflow "What is X?" None fresh_world
    = RaisedByConstructor
        "UserQueryComponent.__init__() got an unexpected keyword argument 'id'"
        (seeded_state "entry" "What is X?" None fresh_world).
Proof. intros run. reflexivity. Qed.

(** ** C2: input assembly *)

(** C2.  With the classes the executor imports, on every validated
    definition the seed [{query: q}] is stored for the entry node (line 125)
    and handed to no node: the constructor of the
    entry node raises before the inputs of any node are assembled (lines
    138-145), so no node is dispatched, with predecessors or without. *)
Theorem no_node_is_given_an_input :
  forall env workflow q tr0 w0,
    validate_workflow workflow true = Passed ->
    imported_classes env ->
    exists entry exc final,
      of_type "user_query" (workflow_of workflow) = [entry]
      /\ execute_workflow_safe env workflow q tr0 w0 = RaisedByConstructor exc final
      /\ context_map final = [(entry, [("query", VStr q)])]
      /\ dispatched final = [].
Proof.
  intros env workflow q tr0 w0 Hval Hcls.
  destruct (run_stops_at_entry_constructor env workflow q tr0 w0 Hval Hcls)
    as [entry [node [exc [Hentry [_ [_ [_ [_ [_ Hrun]]]]]]]]].
  exists entry, exc, (seeded_state entry q tr0 w0). auto.
Qed.

Lemma no_node_is_given_an_input_witness :
  exists entry exc final,
    of_type "user_query" (workflow_of (diamond_workflow "k1" "k2")) = [entry]
    /\ execute_workflow_safe imported_env (diamond_workflow "k1" "k2") "x" None
                             fresh_world
       = RaisedByConstructor exc final
    /\ context_map final = [(entry, [("query", VStr "x")])]
    /\ dispatched final = [].
Proof.
  apply (no_node_is_given_an_input imported_env (diamond_workflow "k1" "k2") "x"
           None fresh_world).
  - vm_compute. reflexivity.
  - exact imported_env_classes.
Defined.

(** ** C6: the result of a run *)



Example two_outputs_run_raises :
  execute_workflow_safe imported_env two_outputs_workflow "What is X?" None
                        fresh_world
  = RaisedByConstructor
      "UserQueryComponent.__init__() got an unexpected keyword argument 'id'"
      (seeded_state "q" "What is X?" None fresh_world).
Proof. reflexivity. Qed.

(** ** C7: the trace *)

(** C7.  With the classes the executor imports, on every validated
    definition the entry node is the first node the loop attempts, and no
    trace entry is appended for it: its constructor
    raises before [trace.append] (line 153), and the trace is the one the
    call was given. *)
Theorem attempted_entry_leaves_no_trace_entry :
  forall env workflow q tr0 w0,
    validate_workflow workflow true = Passed ->
    imported_classes env ->
    exists entry exc final,
      (exists later, executor_topo (workflow_of workflow) = entry :: later)
      /\ execute_workflow_safe env workflow q tr0 w0 = RaisedByConstructor exc final
      /\ trace final = trace_or_empty tr0.
Proof.
  intros env workflow q tr0 w0 Hval Hcls.
  destruct (run_stops_at_entry_constructor env workflow q tr0 w0 Hval Hcls)
    as [entry [node [exc [_ [_ [_ [_ [Htopo [_ Hrun]]]]]]]]].
  exists entry, exc, (seeded_state entry q tr0 w0). auto.
Qed.

Lemma attempted_entry_leaves_no_trace_entry_witness :
  exists entry exc final,
    (exists later, executor_topo (workflow_of chain_workflow) = entry :: later)
    /\ execute_workflow_safe imported_env chain_workflow "What is X?" (Some [])
                             fresh_world
       = RaisedByConstructor exc final
    /\ trace final = trace_or_empty (Some []).
Proof.
  apply (attempted_entry_leaves_no_trace_entry imported_env chain_workflow
           "What is X?" (Some []) fresh_world).
  - vm_compute. reflexivity.
  - exact imported_env_classes.
Defined.

(** ** C10: the injected key *)



(** ** C4: aggregation of validation errors *)

Definition user_query_error : ValidationErrorItem :=
  item "user_query" "Workflow must contain exactly one 'user_query' node".

Definition output_error : ValidationErrorItem :=
  item "output" "Workflow must contain at least one 'output' node".


(** A definition that reaches the graph phase with a number of user_query
    nodes other than one gets exactly one item for it, next to the items of
    the other graph checks. *)
Lemma graph_phase_aggregates w :
  NoDup (node_ids w) ->
  length (of_type "user_query" w) <> 1 ->
  exists others,
    graph_checks w true = user_query_error :: others
    /\ (forall x, In x others -> field x <> field user_query_error)
    /\ (of_type "output" w = [] -> In output_error others)
    /\ (length (toposort (node_ids w) (edges w)) <> length (node_ids w) ->
        In cycle_error others).
Proof.
  intros Hnd Hlen. unfold graph_checks.
  rewrite !ids_of_type_distinct by assumption.
  destruct (Nat.eqb_spec (length (of_type "user_query" w)) 1) as [|_]; [contradiction|].
  simpl andb. cbv iota.
  match goal with
  | |- context [[_] ++ ?a ++ ?b ++ ?c] =>
      exists (a ++ b ++ c); set (ea := a); set (eb := b); set (ec := c)
  end.
  split; [reflexivity|]. split; [|split].
  - intros x Hx. apply in_app_or in Hx. destruct Hx as [Hx|Hx].
    { subst ea. destruct (Nat.ltb _ 1); [|destruct Hx].
      destruct Hx as [<-|[]]. discriminate. }
    apply in_app_or in Hx. destruct Hx as [Hx|Hx].
    { subst eb. destruct (of_type "user_query" w); [destruct Hx|].
      destruct (filter _ _); [destruct Hx|]. destruct Hx as [<-|[]]. discriminate. }
    subst ec. unfold detect_cycles_and_toposort in Hx. simpl in Hx.
    destruct (Nat.eqb _ _); [destruct Hx|]. destruct Hx as [<-|[]]. discriminate.
  - intros Hout. apply in_or_app. left. subst ea. rewrite Hout. simpl. now left.
  - intros Hcyc. apply in_or_app. right. apply in_or_app. right. subst ec.
    unfold detect_cycles_and_toposort. simpl. fold (node_ids w).
    fold (toposort (node_ids w) (edges w)).
    destruct (Nat.eqb_spec (length (toposort (node_ids w) (edges w)))
                           (length (node_ids w))); [contradiction|now left].
Qed.

(** Two nodes: the type of the first is a list, the second repeats the id of
    the first and has an unregistered type. *)
Definition unhashable_type_workflow : value :=
  json_workflow
    [VDict [("id", VStr "a"); ("type", VList [VStr "x"]); ("config", VDict [])];
     VDict [("id", VStr "a"); ("type", VStr "bogus"); ("config", VDict [])]]
    [].

(** The same definition with a number in place of the list. *)
Definition number_type_workflow : value :=
  json_workflow
    [VDict [("id", VStr "a"); ("type", VInt 7); ("config", VDict [])];
     VDict [("id", VStr "a"); ("type", VStr "bogus"); ("config", VDict [])]]
    [].

(** C4.  On a definition whose first node has a list for its type, the
    structural phase does not return its violations: the membership test
    [ntype not in NODE_TYPES] raises [TypeError], which leaves
    [validate_workflow] and [execute_workflow_safe] in place of the
    aggregated [WorkflowValidationError]; with a number in place of the list
    the three violations are collected. *)
Theorem validator_type_error_on_unhashable_type :
  validate_shape unhashable_type_workflow = []
  /\ validate_nodes_and_edges unhashable_type_workflow = TypeError
  /\ validate_workflow unhashable_type_workflow true = ValidatorTypeError
  /\ (forall env q tr0 w0,
         execute_workflow_safe env unhashable_type_workflow q tr0 w0 = RaisedTypeError)
  /\ exists e1 e2 e3,
      validate_workflow number_type_workflow true
      = WorkflowValidationError [e1; e2; e3]
      /\ field e1 = idx_field "nodes[" 0 "].type"
      /\ field e2 = idx_field "nodes[" 1 "].id"
      /\ field e3 = idx_field "nodes[" 1 "].type".
Proof.
  split; [reflexivity|]. split; [reflexivity|]. split; [reflexivity|].
  split; [intros; reflexivity|].
  eexists _, _, _. split; [vm_compute; reflexivity|]. repeat split.
Qed.

Example two_entries_are_one_item :
  exists others,
    validate_workflow
      (json_workflow [json_node "e1" "user_query"; json_node "e2" "user_query"]
                     [json_edge "e1" "e1"]) true
    = WorkflowValidationError (user_query_error :: others)
    /\ ~ In user_query_error others
    /\ In output_error others
    /\ In cycle_error others.
Proof.
  eexists. split; [vm_compute; reflexivity|]. split.
  - intros [H|[H|[H|[]]]]; discriminate H.
  - split; simpl; auto.
Qed.

(** * Further properties of the validator, the executor and the route *)

(** ** The traversal finds exactly the reachable nodes *)

Lemma succs_outside ids es v :
  (forall e, In e es -> In (edge_from e) ids /\ In (edge_to e) ids) ->
  ~ In v ids -> succs es v = [].
Proof.
  intros Hends Hv. unfold succs.
  destruct (filter (fun e => String.eqb v (edge_from e)) es) as [|e l] eqn:E; auto.
  exfalso. assert (Hin : In e (filter (fun e => String.eqb v (edge_from e)) es)).
  { rewrite E. now left. }
  apply filter_In in Hin. destruct Hin as [Hin Heq].
  apply String.eqb_eq in Heq. subst v. apply Hv. now apply Hends.
Qed.

Lemma get_list_of_succs ids es v :
  NoDup ids ->
  (forall e, In e es -> In (edge_from e) ids /\ In (edge_to e) ids) ->
  get_list_of v (build_adj ids es) = succs es v.
Proof.
  intros Hnd Hends. unfold get_list_of.
  destruct (in_dec string_dec v ids) as [Hv|Hv].
  - now rewrite (@get_build_adj ids es Hnd v Hv).
  - rewrite (@get_build_adj_out ids es Hnd v Hv).
    symmetry. eapply succs_outside; eauto.
Qed.

Lemma in_succs_edge es e : In e es -> In (edge_to e) (succs es (edge_from e)).
Proof.
  intros He. unfold succs. apply in_map. apply filter_In. split; auto.
  apply String.eqb_refl.
Qed.

Lemma push_unseen_keeps seen nbs : forall stk x,
  In x stk ->
  In x (fold_left (fun stk nb => if mem_str nb seen then stk else nb :: stk) nbs stk).
Proof.
  induction nbs as [|nb nbs IH]; intros stk x H; simpl; auto.
  apply IH. destruct (mem_str nb seen); simpl; auto.
Qed.

Lemma push_unseen_pushed seen nbs : forall stk x,
  In x nbs -> mem_str x seen = false ->
  In x (fold_left (fun stk nb => if mem_str nb seen then stk else nb :: stk) nbs stk).
Proof.
  induction nbs as [|nb nbs IH]; intros stk x H Hm; [destruct H|].
  simpl. destruct H as [->|H].
  - rewrite Hm. apply push_unseen_keeps. now left.
  - now apply IH.
Qed.

(** When the loop has come to its end, the set it returns holds what was on
    the stack or already visited and is closed under successors. *)
Lemma reach_loop_closed adj (nexts : string -> list string) :
  (forall v, get_list_of v adj = nexts v) ->
  forall fuel stack reachable,
    (forall v, In v reachable -> forall nb, In nb (nexts v) ->
                                            In nb reachable \/ In nb stack) ->
    snd (reach_loop fuel adj stack reachable) = [] ->
    (forall v, In v (fst (reach_loop fuel adj stack reachable)) ->
               forall nb, In nb (nexts v) ->
                          In nb (fst (reach_loop fuel adj stack reachable)))
    /\ (forall x, In x reachable \/ In x stack ->
                  In x (fst (reach_loop fuel adj stack reachable))).
Proof.
  intros Hadj. induction fuel as [|fuel IH]; intros stack reachable Hinv Hend.
  - destruct stack; simpl in *; [|discriminate]. split.
    + intros v Hv nb Hnb. destruct (Hinv v Hv nb Hnb) as [H|[]]; auto.
    + intros x [H|[]]; auto.
  - destruct stack as [|cur rest]; simpl in *.
    + split.
      * intros v Hv nb Hnb. destruct (Hinv v Hv nb Hnb) as [H|[]]; auto.
      * intros x [H|[]]; auto.
    + destruct (mem_str cur reachable) eqn:M.
      * apply mem_str_In in M.
        destruct (IH rest reachable) as [Hc Hs]; auto.
        { intros v Hv nb Hnb. destruct (Hinv v Hv nb Hnb) as [H|[<-|H]]; auto. }
        split; auto. intros x [H|[<-|H]]; auto.
      * set (r' := reachable ++ [cur]) in *.
        set (s' := fold_left (fun stk nb => if mem_str nb r' then stk else nb :: stk)
                             (get_list_of cur adj) rest) in *.
        destruct (IH s' r') as [Hc Hs]; auto.
        { intros v Hv nb Hnb. unfold r' in Hv. apply in_app_or in Hv.
          destruct Hv as [Hv|[<-|[]]].
          - destruct (Hinv v Hv nb Hnb) as [H|[<-|H]].
            + left. unfold r'. apply in_or_app. now left.
            + left. unfold r'. apply in_or_app. right. now left.
            + right. unfold s'. now apply push_unseen_keeps.
          - destruct (mem_str nb r') eqn:Mn.
            + left. now apply mem_str_In.
            + right. unfold s'. apply push_unseen_pushed; auto.
              now rewrite Hadj. }
        split; auto. intros x [H|[<-|H]]; apply Hs.
        -- left. unfold r'. apply in_or_app. now left.
        -- left. unfold r'. apply in_or_app. right. now left.
        -- right. unfold s'. now apply push_unseen_keeps.
Qed.

Lemma reachable_from_complete ids es start x :
  NoDup ids ->
  (forall e, In e es -> In (edge_from e) ids /\ In (edge_to e) ids) ->
  reaches es start x -> In x (reachable_from (build_adj ids es) start).
Proof.
  intros Hnd Hends Hr. unfold reachable_from.
  destruct (reach_loop_closed (build_adj ids es) (succs es)
              (fun v => get_list_of_succs ids es v Hnd Hends)
              (reach_fuel (build_adj ids es) [start] []) [start] [])
    as [Hc Hs].
  - intros v [].
  - apply reachable_from_ends.
  - set (R := fst (reach_loop (reach_fuel (build_adj ids es) [start] [])
                              (build_adj ids es) [start] [])) in *.
    assert (Hpath : forall u v, path es u v -> In u R -> In v R).
    { intros u v Hp. induction Hp as [e He|u e Hp IH He]; intros Hu.
      - apply (Hc (edge_from e)); auto. now apply in_succs_edge.
      - apply (Hc (edge_from e)); auto. now apply in_succs_edge. }
    assert (Hstart : In start R) by (apply Hs; right; now left).
    destruct Hr as [->|Hp]; eauto.
Qed.

(** X1.  On a graph whose node ids are distinct and whose edges join listed
    nodes, the traversal of [validate_workflow] returns exactly the nodes
    reachable from its start node: the start itself and every node at the end
    of a directed path from it; the loop ends within the fuel it is given. *)
Theorem traversal_finds_exactly_the_reachable :
  forall ids es start,
    NoDup ids ->
    (forall e, In e es -> In (edge_from e) ids /\ In (edge_to e) ids) ->
    snd (reach_loop (reach_fuel (build_adj ids es) [start] [])
                    (build_adj ids es) [start] []) = []
    /\ forall x, In x (reachable_from (build_adj ids es) start)
                 <-> reaches es start x.
Proof.
  intros ids es start Hnd Hends. split; [apply reachable_from_ends|].
  intros x. split.
  - now apply reachable_from_sound.
  - now apply reachable_from_complete.
Qed.

Definition chain_ids : list string := ["entry"; "A"; "B"; "terminal"].

Definition chain_edges : list Edge :=
  [{| edge_from := "entry"; edge_to := "A" |};
   {| edge_from := "A"; edge_to := "B" |};
   {| edge_from := "B"; edge_to := "terminal" |}].

Lemma chain_ids_distinct : NoDup chain_ids.
Proof. repeat constructor; simpl; intuition discriminate. Defined.

Lemma chain_edges_join_ids :
  forall e, In e chain_edges -> In (edge_from e) chain_ids /\ In (edge_to e) chain_ids.
Proof. intros e [<-|[<-|[<-|[]]]]; simpl; auto 10. Defined.

Lemma traversal_finds_exactly_the_reachable_witness :
  snd (reach_loop (reach_fuel (build_adj chain_ids chain_edges) ["entry"] [])
                  (build_adj chain_ids chain_edges) ["entry"] []) = []
  /\ forall x, In x (reachable_from (build_adj chain_ids chain_edges) "entry")
               <-> reaches chain_edges "entry" x.
Proof.
  exact (traversal_finds_exactly_the_reachable chain_ids chain_edges "entry"
           chain_ids_distinct chain_edges_join_ids).
Defined.

(** ** Kahn's order is short only on a cycle *)

(** A walk against the edges: every element has an edge into its successor
    in the list read backwards, i.e. [u :: v :: _] needs an edge [u -> v]. *)
Fixpoint walk (es : list Edge) (l : list string) : Prop :=
  match l with
  | [] => True
  | u :: rest =>
      match rest with
      | [] => True
      | v :: _ => (exists e, In e es /\ edge_from e = u /\ edge_to e = v)
                  /\ walk es rest
      end
  end.

Lemma walk_tail es u l : walk es (u :: l) -> walk es l.
Proof. destruct l; simpl; tauto. Qed.

Lemma walk_path es l : forall u x, walk es (u :: l) -> In x l -> path es u x.
Proof.
  induction l as [|v l IH]; intros u x Hw Hin; [destruct Hin|].
  simpl in Hw. destruct Hw as [[e [He [Hf Ht]]] Hw].
  assert (Huv : path es u v) by (rewrite <- Hf, <- Ht; now constructor).
  destruct Hin as [<-|Hin]; auto.
  pose proof (IH v x Hw Hin) as Hvx.
  clear -Huv Hvx. induction Hvx as [e He|w e Hp IH He].
  - now apply path_snoc.
  - apply path_snoc; auto.
Qed.

Lemma walk_repeat_cycle es l : walk es l -> ~ NoDup l -> has_cycle es.
Proof.
  induction l as [|u l IH]; intros Hw Hn.
  - exfalso. apply Hn. constructor.
  - destruct (in_dec string_dec u l) as [Hin|Hnin].
    + exists u. now apply (walk_path es l).
    + apply IH; [now apply walk_tail in Hw|].
      intros Hnd. apply Hn. now constructor.
Qed.

Lemma remaining_pos_edge es done v :
  remaining es done v <> 0 ->
  exists e, In e es /\ edge_to e = v /\ ~ In (edge_from e) done.
Proof.
  unfold remaining. intros H.
  destruct (filter _ es) as [|e l] eqn:E; [simpl in H; congruence|].
  assert (Hin : In e (filter (fun e => String.eqb v (edge_to e)
                                       && negb (mem_str (edge_from e) done)) es)).
  { rewrite E. now left. }
  apply filter_In in Hin. destruct Hin as [Hin Hb].
  apply andb_true_iff in Hb. destruct Hb as [Hv Hm].
  apply String.eqb_eq in Hv. apply negb_true_iff in Hm. apply mem_str_false in Hm.
  exists e. auto.
Qed.

Section KahnComplete.
Variable ids : list string.
Variable es : list Edge.
Hypothesis ids_distinct : NoDup ids.
Hypothesis endpoints :
  forall e, In e es -> In (edge_from e) ids /\ In (edge_to e) ids.

Let topo := toposort ids es.

Definition left_out (v : string) : Prop := In v ids /\ ~ In v topo.

Lemma left_out_has_pred v :
  left_out v -> exists u, left_out u /\ exists e, In e es /\ edge_from e = u /\ edge_to e = v.
Proof.
  intros [Hv Hn].
  assert (Hrem : remaining es topo v <> 0).
  { intros H0. apply Hn. apply (@toposort_in ids es ids_distinct endpoints). auto. }
  destruct (remaining_pos_edge es topo v Hrem) as [e [He [Hto Hfrom]]].
  exists (edge_from e). split; [|eauto].
  split; auto. now apply endpoints.
Qed.

Lemma left_out_walk v n :
  left_out v ->
  exists l, length l = S n /\ walk es l /\ forall x, In x l -> left_out x.
Proof.
  intros Hv. induction n as [|n IH].
  - exists [v]. simpl. split; [reflexivity|]. split; [exact I|].
    intros x [<-|[]]. exact Hv.
  - destruct IH as [l [Hlen [Hw Hall]]].
    destruct l as [|u l]; [discriminate|].
    destruct (left_out_has_pred u (Hall u (or_introl eq_refl))) as [p [Hp He]].
    exists (p :: u :: l). split; [simpl in *; lia|]. split.
    + simpl. split; auto.
    + intros x [<-|Hx]; auto.
Qed.

Lemma short_order_has_cycle :
  length topo < length ids -> has_cycle es.
Proof.
  intros Hlt.
  assert (Hex : exists v, left_out v).
  { destruct (existsb (fun v => negb (mem_str v topo)) ids) eqn:E.
    - apply existsb_exists in E. destruct E as [v [Hv Hm]].
      apply negb_true_iff in Hm. apply mem_str_false in Hm. exists v. split; auto.
    - exfalso.
      assert (Hincl : incl ids topo).
      { intros v Hv. destruct (mem_str v topo) eqn:M; [now apply mem_str_In|].
        assert (Ht : existsb (fun v => negb (mem_str v topo)) ids = true).
        { apply existsb_exists. exists v. split; auto. now rewrite M. }
        congruence. }
      pose proof (NoDup_incl_length ids_distinct Hincl). lia. }
  destruct Hex as [v Hv].
  destruct (left_out_walk v (length ids) Hv) as [l [Hlen [Hw Hall]]].
  apply (walk_repeat_cycle es l Hw).
  intros Hnd.
  assert (Hincl : incl l ids) by (intros x Hx; apply Hall; exact Hx).
  pose proof (NoDup_incl_length Hnd Hincl). lia.
Qed.
End KahnComplete.

(** X2.  On a graph whose node ids are distinct and whose edges join listed
    nodes, [detect_cycles_and_toposort] reports the cycle error exactly when
    the graph has a directed cycle, and reports nothing exactly when it has
    none; without a cycle the order holds every node. *)
Theorem cycle_error_iff_cycle :
  forall w,
    NoDup (node_ids w) ->
    (forall e, In e (edges w) ->
               In (edge_from e) (node_ids w) /\ In (edge_to e) (node_ids w)) ->
    (snd (detect_cycles_and_toposort w) = [cycle_error] <-> has_cycle (edges w))
    /\ (snd (detect_cycles_and_toposort w) = [] <-> ~ has_cycle (edges w))
    /\ (~ has_cycle (edges w) ->
        forall v, In v (fst (detect_cycles_and_toposort w)) <-> In v (node_ids w)).
Proof.
  intros w Hnd Hends.
  pose proof (@toposort_length (node_ids w) (edges w) Hnd Hends) as Hle.
  assert (Hsnd : snd (detect_cycles_and_toposort w)
                 = if Nat.eqb (length (toposort (node_ids w) (edges w)))
                              (length (node_ids w))
                   then [] else [cycle_error]) by reflexivity.
  assert (Hcyc : has_cycle (edges w)
                 <-> length (toposort (node_ids w) (edges w)) < length (node_ids w)).
  { split.
    - now apply toposort_cycle.
    - now apply short_order_has_cycle. }
  rewrite Hsnd, validator_topo_toposort.
  destruct (Nat.eqb_spec (length (toposort (node_ids w) (edges w)))
                         (length (node_ids w))) as [Heq|Hne].
  - split; [|split].
    + split; [discriminate|]. intros H. apply Hcyc in H. lia.
    + split; [|reflexivity]. intros _ H. apply Hcyc in H. lia.
    + intros _ v. split.
      * now apply toposort_incl.
      * now apply toposort_complete.
  - split; [|split].
    + split; [|reflexivity]. intros _. apply Hcyc. lia.
    + split; [discriminate|]. intros H. exfalso. apply H, Hcyc. lia.
    + intros H. exfalso. apply H, Hcyc. lia.
Qed.

Lemma cycle_error_iff_cycle_witness :
  let w := workflow_of chain_workflow in
  (snd (detect_cycles_and_toposort w) = [cycle_error] <-> has_cycle (edges w))
  /\ (snd (detect_cycles_and_toposort w) = [] <-> ~ has_cycle (edges w))
  /\ forall v, In v (fst (detect_cycles_and_toposort w)) <-> In v (node_ids w).
Proof.
  destruct (cycle_error_iff_cycle (workflow_of chain_workflow)
              chain_ids_distinct chain_edges_join_ids) as [H1 [H2 H3]].
  split; [exact H1|]. split; [exact H2|].
  apply H3. apply H2. reflexivity.
Defined.

(** ** What the structural phase accepts, and when it crashes *)

(** A node object whose type is a list or an object. *)
Definition unhashable_type (n : value) : Prop :=
  exists nd, n = VDict nd /\ hashable (get_or_none "type" nd) = false.

Lemma check_node_type_error idx n ids :
  check_node idx n ids = TypeError <-> unhashable_type n.
Proof.
  unfold check_node, unhashable_type. split.
  - destruct n; try absurd_eq. intros H. exists d. split; auto.
    destruct (match nonempty_str (get_or_none "id" d) with
              | Some s => _ | None => _ end) as [ids' e_id].
    destruct (hashable (get_or_none "type" d)); [discriminate H|reflexivity].
  - intros [nd [-> Hh]].
    destruct (match nonempty_str (get_or_none "id" nd) with
              | Some s => _ | None => _ end) as [ids' e_id].
    now rewrite Hh.
Qed.

Lemma check_nodes_type_error ns : forall idx ids errs,
  check_nodes idx ns ids errs = TypeError <-> Exists unhashable_type ns.
Proof.
  induction ns as [|n ns IH]; intros idx ids errs; simpl.
  - split; [absurd_eq|]. intros H. inversion H.
  - destruct (check_node idx n ids) as [[ids' es']|] eqn:E.
    + rewrite IH. split.
      * intros H. now apply Exists_cons_tl.
      * intros H. inversion H as [? ? Hn|]; subst; auto.
        apply (check_node_type_error idx n ids) in Hn. congruence.
    + split; [|reflexivity]. intros _. apply Exists_cons_hd.
      now apply (check_node_type_error idx n ids).
Qed.

(** X3.  On a definition of the right shape (an object with a node list
    and an edge list) [validate_nodes_and_edges] raises [TypeError] exactly
    when some node is an object whose ["type"] is a list or an object; then
    [validate_workflow] ends with that [TypeError] whatever else is wrong
    with the definition. *)
Theorem structural_phase_crashes_iff_unhashable_type :
  forall workflow,
    validate_shape workflow = [] ->
    (validate_nodes_and_edges workflow = TypeError
     <-> Exists unhashable_type (get_list "nodes" workflow))
    /\ (Exists unhashable_type (get_list "nodes" workflow) ->
        forall r, validate_workflow workflow r = ValidatorTypeError).
Proof.
  intros workflow Hshape.
  assert (H : validate_nodes_and_edges workflow = TypeError
              <-> Exists unhashable_type (get_list "nodes" workflow)).
  { unfold validate_nodes_and_edges.
    match goal with
    | |- context [check_nodes 0 ?ns [] ?e] =>
        pose proof (check_nodes_type_error ns 0 [] e) as Hc;
        destruct (check_nodes 0 ns [] e) as [[ids errs]|]
    end.
    - split; [absurd_eq|]. intros Hex. apply Hc in Hex. discriminate Hex.
    - split; [|reflexivity]. intros _. now apply Hc. }
  split; [exact H|].
  intros Hex r. apply H in Hex.
  unfold validate_workflow. now rewrite Hshape, Hex.
Qed.

Lemma structural_phase_crashes_iff_unhashable_type_witness :
  (validate_nodes_and_edges unhashable_type_workflow = TypeError
   <-> Exists unhashable_type (get_list "nodes" unhashable_type_workflow))
  /\ forall r, validate_workflow unhashable_type_workflow r = ValidatorTypeError.
Proof.
  destruct (structural_phase_crashes_iff_unhashable_type unhashable_type_workflow
              eq_refl) as [H1 H2].
  split; [exact H1|]. apply H2.
  apply Exists_cons_hd. eexists. split; reflexivity.
Defined.

Lemma check_node_accepts idx n ids :
  node_ok n -> ~ In (node_id (node_of n)) ids ->
  check_node idx n ids = Completed (ids ++ [node_id (node_of n)], []).
Proof.
  intros [nd [s [t [-> [Hid [Hs [Hty [Htin Hcfg]]]]]]]].
  assert (Hnid : node_id (node_of (VDict nd)) = s).
  { simpl. unfold get_or_none. now rewrite Hid. }
  rewrite Hnid. intros Hfresh.
  unfold check_node, get_or_none. rewrite Hid, Hty. simpl.
  apply String.eqb_neq in Hs. rewrite Hs.
  apply mem_str_false in Hfresh. rewrite Hfresh.
  assert (Hm : mem_str t NODE_TYPES = true) by now apply mem_str_In.
  unfold mem_str in Hm. simpl in Hm. rewrite Hm.
  destruct Hcfg as [->|[c ->]]; reflexivity.
Qed.

Lemma check_nodes_accepts ns : forall idx ids,
  Forall node_ok ns ->
  NoDup (ids ++ map (fun n => node_id (node_of n)) ns) ->
  check_nodes idx ns ids []
  = Completed (ids ++ map (fun n => node_id (node_of n)) ns, []).
Proof.
  induction ns as [|n ns IH]; intros idx ids Hall Hnd; simpl.
  - now rewrite app_nil_r.
  - inversion Hall; subst.
    rewrite check_node_accepts; auto.
    + simpl. rewrite IH; auto.
      * now rewrite <- app_assoc.
      * now rewrite <- app_assoc.
    + apply NoDup_remove_2 in Hnd. intros Hin. apply Hnd. apply in_or_app. now left.
Qed.

Lemma node_ok_id n : node_ok n -> node_id (node_of n) <> "".
Proof.
  intros [nd [s [t [-> [Hid [Hs _]]]]]]. simpl. unfold get_or_none. now rewrite Hid.
Qed.

Lemma check_endpoint_accepts idx key s ids :
  s <> "" -> In s ids -> check_endpoint idx key (VStr s) ids = [].
Proof.
  intros Hs Hin. unfold check_endpoint. simpl.
  apply String.eqb_neq in Hs. rewrite Hs.
  apply mem_str_In in Hin. now rewrite Hin.
Qed.

Lemma check_edges_accepts es : forall idx ids,
  ~ In "" ids -> Forall (edge_ok ids) es -> check_edges idx es ids = [].
Proof.
  induction es as [|e es IH]; intros idx ids Hne Hall; simpl; auto.
  inversion Hall as [|? ? He Hes]; subst. rewrite IH by assumption.
  rewrite app_nil_r.
  destruct He as [ed [s [t [-> [Hs [Hsin [Ht Htin]]]]]]].
  unfold check_edge, get_or_none. rewrite Hs, Ht.
  rewrite !check_endpoint_accepts; auto; intros ->; contradiction.
Qed.

Lemma structural_phase_exact :
  forall workflow,
    validate_nodes_and_edges workflow = Completed []
    <-> (length (get_list "nodes" workflow) <= MAX_NODES
         /\ length (get_list "edges" workflow) <= MAX_EDGES
         /\ Forall node_ok (get_list "nodes" workflow)
         /\ NoDup (map node_id (nodes (workflow_of workflow)))
         /\ Forall (edge_ok (map node_id (nodes (workflow_of workflow))))
                   (get_list "edges" workflow)).
Proof.
  intros workflow.
  assert (Hids : map node_id (nodes (workflow_of workflow))
                 = map (fun n => node_id (node_of n)) (get_list "nodes" workflow)).
  { unfold workflow_of. simpl. now rewrite map_map. }
  split.
  - intros H.
    assert (Hlim : length (get_list "nodes" workflow) <= MAX_NODES
                   /\ length (get_list "edges" workflow) <= MAX_EDGES).
    { unfold validate_nodes_and_edges in H.
      match type of H with
      | context [check_nodes 0 ?ns [] ?e] =>
          destruct (check_nodes 0 ns [] e) as [[ids errs]|] eqn:E; [|discriminate H]
      end.
      inversion H as [H1]. apply app_eq_nil in H1. destruct H1 as [-> _].
      apply check_nodes_grow in E. destruct E as [more Hm].
      symmetry in Hm. apply app_eq_nil in Hm. destruct Hm as [Hm _].
      apply app_eq_nil in Hm. destruct Hm as [Hn He].
      split.
      - destruct (Nat.ltb_spec MAX_NODES (length (get_list "nodes" workflow)));
          [discriminate Hn|assumption].
      - destruct (Nat.ltb_spec MAX_EDGES (length (get_list "edges" workflow)));
          [discriminate He|assumption]. }
    destruct Hlim as [Hn He]. split; [exact Hn|]. split; [exact He|].
    unfold validate_nodes_and_edges in H.
    match type of H with
    | context [check_nodes 0 ?ns [] ?e] =>
        destruct (check_nodes 0 ns [] e) as [[ids errs]|] eqn:E; [|discriminate H]
    end.
    inversion H as [H1]. apply app_eq_nil in H1. destruct H1 as [-> Hedges].
    pose proof (check_nodes_grow _ _ _ _ E) as [more Hm].
    symmetry in Hm. apply app_eq_nil in Hm. destruct Hm as [Hm _]. rewrite Hm in E.
    apply check_nodes_ok in E. destruct E as [Hnodes [Hi Hnd]]. simpl in Hi.
    rewrite Hids, <- Hi. split; [exact Hnodes|]. split.
    + apply Hnd. constructor.
    + eapply check_edges_ok; eauto.
  - intros [Hn [He [Hnodes [Hnd Hedges]]]].
    unfold validate_nodes_and_edges.
    apply Nat.ltb_ge in Hn. apply Nat.ltb_ge in He. rewrite Hn, He. simpl.
    rewrite Hids in Hnd, Hedges.
    rewrite check_nodes_accepts; auto. simpl.
    rewrite check_edges_accepts; auto.
    intros Hin. apply in_map_iff in Hin. destruct Hin as [n [Hid Hin]].
    rewrite Forall_forall in Hnodes. now apply (node_ok_id n (Hnodes n Hin)).
Qed.

(** X4.  On a definition of the right shape the structural phase finds
    nothing exactly when its node and edge lists are within the limits, its
    nodes are objects with a non-empty string id, one of the four types and
    a config that is absent or an object, no id is used twice, and its
    edges are objects joining ids of the node list. *)
Theorem structural_phase_accepts_iff :
  forall workflow,
    validate_shape workflow = [] ->
    (validate_nodes_and_edges workflow = Completed []
     <-> (length (get_list "nodes" workflow) <= MAX_NODES
          /\ length (get_list "edges" workflow) <= MAX_EDGES
          /\ Forall node_ok (get_list "nodes" workflow)
          /\ NoDup (map node_id (nodes (workflow_of workflow)))
          /\ Forall (edge_ok (map node_id (nodes (workflow_of workflow))))
                    (get_list "edges" workflow))).
Proof. intros workflow _. exact (structural_phase_exact workflow). Qed.

Lemma structural_phase_accepts_iff_witness :
  validate_nodes_and_edges chain_workflow = Completed []
  <-> (length (get_list "nodes" chain_workflow) <= MAX_NODES
       /\ length (get_list "edges" chain_workflow) <= MAX_EDGES
       /\ Forall node_ok (get_list "nodes" chain_workflow)
       /\ NoDup (map node_id (nodes (workflow_of chain_workflow)))
       /\ Forall (edge_ok (map node_id (nodes (workflow_of chain_workflow))))
                 (get_list "edges" chain_workflow)).
Proof. exact (structural_phase_accepts_iff chain_workflow eq_refl). Defined.

(** ** What the graph phase accepts *)

(** The graph conditions of [validate_workflow]: one entry node, an output
    node, every node reachable from the entry, no directed cycle. *)
Definition sound_graph (w : Workflow) (entry : string) : Prop :=
  of_type "user_query" w = [entry]
  /\ of_type "output" w <> []
  /\ (forall v, In v (node_ids w) -> reaches (edges w) entry v)
  /\ ~ has_cycle (edges w).

Lemma filter_none (f : string -> bool) (l : list string) :
  (forall x, In x l -> f x = false) -> filter f l = [].
Proof.
  induction l as [|x l IH]; intros H; simpl; auto.
  rewrite H by now left. apply IH. intros y Hy. apply H. now right.
Qed.

Lemma filter_nil_none (f : string -> bool) (l : list string) :
  filter f l = [] -> forall x, In x l -> f x = false.
Proof.
  intros H x Hx. destruct (f x) eqn:E; auto.
  assert (Hin : In x (filter f l)) by (apply filter_In; auto).
  rewrite H in Hin. destruct Hin.
Qed.

Lemma no_cycle_iff_full_order ids es :
  NoDup ids ->
  (forall e, In e es -> In (edge_from e) ids /\ In (edge_to e) ids) ->
  (length (toposort ids es) = length ids <-> ~ has_cycle es).
Proof.
  intros Hnd Hends.
  pose proof (@toposort_length ids es Hnd Hends) as Hle.
  split.
  - intros Heq Hc. apply (@toposort_cycle ids es Hnd Hends) in Hc. lia.
  - intros Hn. destruct (Nat.eq_dec (length (toposort ids es)) (length ids)); auto.
    exfalso. apply Hn. apply (short_order_has_cycle ids es Hnd Hends). lia.
Qed.

Lemma graph_checks_exact w :
  NoDup (node_ids w) ->
  (forall e, In e (edges w) ->
             In (edge_from e) (node_ids w) /\ In (edge_to e) (node_ids w)) ->
  (graph_checks w true = [] <-> exists entry, sound_graph w entry).
Proof.
  intros Hnd Hends.
  assert (Hcyc : snd (detect_cycles_and_toposort w)
                 = if Nat.eqb (length (toposort (node_ids w) (edges w)))
                              (length (node_ids w))
                   then [] else [cycle_error]) by reflexivity.
  unfold graph_checks.
  rewrite !ids_of_type_distinct by assumption.
  fold (node_ids w). rewrite nodup_fixed by assumption. rewrite Hcyc.
  split.
  - intros H.
    apply app_eq_nil in H. destruct H as [Hentry H].
    apply app_eq_nil in H. destruct H as [Hout H].
    apply app_eq_nil in H. destruct H as [Hconn Hc].
    destruct (Nat.eqb (length (of_type "user_query" w)) 1) eqn:E1;
      [|discriminate Hentry].
    apply Nat.eqb_eq in E1.
    destruct (of_type "user_query" w) as [|entry [|x l]] eqn:Eq; try discriminate E1.
    exists entry. split; [exact Eq|]. split; [|split].
    + destruct (of_type "output" w); [simpl in Hout; discriminate Hout|congruence].
    + intros v Hv.
      destruct (filter _ (node_ids w)) eqn:Ef; [|discriminate Hconn].
      pose proof (filter_nil_none _ _ Ef v Hv) as Hm.
      apply negb_false_iff in Hm. apply mem_str_In in Hm.
      eapply reachable_from_sound; eauto.
    + apply (no_cycle_iff_full_order (node_ids w) (edges w) Hnd Hends).
      destruct (Nat.eqb_spec (length (toposort (node_ids w) (edges w)))
                             (length (node_ids w))); [assumption|discriminate Hc].
  - intros [entry [Hentry [Hout [Hreach Hac]]]].
    rewrite Hentry.
    apply (no_cycle_iff_full_order (node_ids w) (edges w) Hnd Hends) in Hac.
    rewrite Hac, (Nat.eqb_refl (length (node_ids w))).
    rewrite filter_none.
    + destruct (of_type "output" w); [contradiction|reflexivity].
    + intros v Hv. apply negb_false_iff. apply mem_str_In.
      apply reachable_from_complete; auto.
Qed.

(** X5.  On a graph with distinct node ids whose edges join listed nodes, the
    graph phase of [validate_workflow] reports nothing exactly when there is
    one [user_query] node, at least one [output] node, every node is the
    entry or at the end of a directed path from it, and there is no directed
    cycle. *)
Theorem graph_phase_accepts_iff :
  forall w,
    NoDup (node_ids w) ->
    (forall e, In e (edges w) ->
               In (edge_from e) (node_ids w) /\ In (edge_to e) (node_ids w)) ->
    (graph_checks w true = [] <-> exists entry, sound_graph w entry).
Proof. exact graph_checks_exact. Qed.

Lemma graph_phase_accepts_iff_witness :
  graph_checks (workflow_of chain_workflow) true = []
  <-> exists entry, sound_graph (workflow_of chain_workflow) entry.
Proof.
  exact (graph_phase_accepts_iff (workflow_of chain_workflow)
           chain_ids_distinct chain_edges_join_ids).
Defined.

(** The definitions the first two phases let through. *)
Definition well_shaped (workflow : value) : Prop :=
  exists d ns es,
    workflow = VDict d
    /\ get "nodes" d = Some (VList ns) /\ get "edges" d = Some (VList es).

Lemma validate_shape_exact workflow :
  validate_shape workflow = [] <-> well_shaped workflow.
Proof.
  unfold validate_shape, well_shaped, has_list. split.
  - destruct workflow as [| | | | | |d]; try absurd_eq.
    destruct (get "nodes" d) as [[| | | | |ns|]|] eqn:En; simpl; try absurd_eq;
      destruct (get "edges" d) as [[| | | | |es|]|] eqn:Ee; simpl; try absurd_eq.
    intros _. exists d, ns, es. auto.
  - intros [d [ns [es [-> [Hn He]]]]]. now rewrite Hn, He.
Qed.

(** X6.  [validate_workflow] returns without raising exactly on the
    definitions that are an object with a node list and an edge list, that
    the structural phase accepts, and whose graph has one entry, an output,
    every node reachable from the entry and no cycle. *)
Theorem validator_passes_iff :
  forall workflow,
    validate_workflow workflow true = Passed
    <-> (well_shaped workflow
         /\ length (get_list "nodes" workflow) <= MAX_NODES
         /\ length (get_list "edges" workflow) <= MAX_EDGES
         /\ Forall node_ok (get_list "nodes" workflow)
         /\ NoDup (node_ids (workflow_of workflow))
         /\ Forall (edge_ok (node_ids (workflow_of workflow)))
                   (get_list "edges" workflow)
         /\ exists entry, sound_graph (workflow_of workflow) entry).
Proof.
  intros workflow. unfold node_ids at 1 2.
  assert (Hends : Forall (edge_ok (map node_id (nodes (workflow_of workflow))))
                         (get_list "edges" workflow) ->
                  forall e, In e (edges (workflow_of workflow)) ->
                    In (edge_from e) (node_ids (workflow_of workflow))
                    /\ In (edge_to e) (node_ids (workflow_of workflow))).
  { intros He e Hin. unfold workflow_of in Hin. simpl in Hin.
    apply in_map_iff in Hin. destruct Hin as [v [<- Hv]].
    rewrite Forall_forall in He. now apply edge_ok_endpoints, He. }
  split.
  - intros H. apply validate_workflow_passed in H. destruct H as [Hs [Hn Hg]].
    apply validate_shape_exact in Hs.
    apply structural_phase_exact in Hn.
    destruct Hn as [H1 [H2 [H3 [H4 H5]]]].
    repeat (split; [assumption|]).
    apply graph_checks_exact; auto.
  - intros [Hs [H1 [H2 [H3 [H4 [H5 Hg]]]]]].
    apply validate_shape_exact in Hs.
    assert (Hn : validate_nodes_and_edges workflow = Completed []).
    { apply structural_phase_exact. auto. }
    apply graph_checks_exact in Hg; auto.
    unfold validate_workflow. rewrite Hs, Hn, Hg. reflexivity.
Qed.

(** ** The executor's own lookups *)





(** ** Roots and leaves *)

Lemma keys_build_outgoing ids es :
  NoDup ids -> keys (build_outgoing ids es) = ids.
Proof.
  intros Hnd. unfold build_outgoing.
  rewrite (keys_fold_adjust (fun _ c => (c + 1)%Z) edge_from).
  now apply keys_from_keys.
Qed.

Lemma get_build_outgoing ids es n :
  NoDup ids -> In n ids ->
  get n (build_outgoing ids es) = Some (Z.of_nat (length (succs es n))).
Proof.
  intros Hnd Hin. unfold build_outgoing.
  rewrite (get_fold_adjust (fun _ c => (c + 1)%Z) edge_from).
  rewrite get_from_keys by assumption. simpl.
  rewrite fold_incr_length. unfold succs. now rewrite length_map.
Qed.

Lemma no_preds_iff es v : preds es v = [] <-> forall e, In e es -> edge_to e <> v.
Proof.
  unfold preds. split.
  - intros H e He Hto.
    assert (Hin : In (edge_from e)
              (map edge_from (filter (fun e => String.eqb v (edge_to e)) es))).
    { apply in_map. apply filter_In. split; auto. rewrite Hto. apply String.eqb_refl. }
    rewrite H in Hin. destruct Hin.
  - intros H. destruct (filter _ es) as [|e l] eqn:E; auto.
    exfalso. assert (Hin : In e (filter (fun e => String.eqb v (edge_to e)) es)).
    { rewrite E. now left. }
    apply filter_In in Hin. destruct Hin as [Hin Heq].
    apply String.eqb_eq in Heq. apply (H e Hin). auto.
Qed.

Lemma no_succs_iff es v : succs es v = [] <-> forall e, In e es -> edge_from e <> v.
Proof.
  unfold succs. split.
  - intros H e He Hfrom.
    assert (Hin : In (edge_to e)
              (map edge_to (filter (fun e => String.eqb v (edge_from e)) es))).
    { apply in_map. apply filter_In. split; auto. rewrite Hfrom. apply String.eqb_refl. }
    rewrite H in Hin. destruct Hin.
  - intros H. destruct (filter _ es) as [|e l] eqn:E; auto.
    exfalso. assert (Hin : In e (filter (fun e => String.eqb v (edge_from e)) es)).
    { rewrite E. now left. }
    apply filter_In in Hin. destruct Hin as [Hin Heq].
    apply String.eqb_eq in Heq. apply (H e Hin). auto.
Qed.

Lemma zero_count_iff (l : list string) :
  Z.eqb (Z.of_nat (length l)) 0 = true <-> l = [].
Proof.
  destruct l; simpl length; split; intros H; auto; discriminate H.
Qed.

(** X11.  On a definition whose edges join listed nodes,
    [find_roots_and_leaves] returns as roots exactly the node ids that no
    edge enters and as leaves exactly the node ids that no edge leaves, each
    once, also when an id is listed twice. *)
Theorem roots_and_leaves_are_sources_and_sinks :
  forall w,
    (forall e, In e (edges w) ->
               In (edge_from e) (node_ids w) /\ In (edge_to e) (node_ids w)) ->
    (forall v, In v (fst (find_roots_and_leaves w))
               <-> In v (node_ids w) /\ forall e, In e (edges w) -> edge_to e <> v)
    /\ (forall v, In v (snd (find_roots_and_leaves w))
                  <-> In v (node_ids w) /\ forall e, In e (edges w) -> edge_from e <> v)
    /\ NoDup (fst (find_roots_and_leaves w))
    /\ NoDup (snd (find_roots_and_leaves w)).
Proof.
  intros w _. unfold find_roots_and_leaves. fold (node_ids w).
  set (ids := set_of (node_ids w)).
  assert (Hnd : NoDup ids) by apply NoDup_nodup.
  assert (Hin : forall v, In v ids <-> In v (node_ids w)).
  { intros v. apply nodup_In. }
  cbv beta iota zeta. unfold fst, snd.
  rewrite !zero_keys
    by (rewrite ?keys_build_incoming, ?keys_build_outgoing; assumption).
  rewrite keys_build_incoming, keys_build_outgoing by assumption.
  split; [|split; [|split]].
  - intros v. rewrite filter_In, <- Hin. split.
    + intros [Hv Hz]. split; auto. apply no_preds_iff.
      unfold is_zero in Hz. rewrite get_build_incoming in Hz by assumption.
      now apply zero_count_iff.
    + intros [Hv Hz]. split; auto. apply no_preds_iff in Hz.
      unfold is_zero. rewrite get_build_incoming by assumption.
      now apply zero_count_iff.
  - intros v. rewrite filter_In, <- Hin. split.
    + intros [Hv Hz]. split; auto. apply no_succs_iff.
      unfold is_zero in Hz. rewrite get_build_outgoing in Hz by assumption.
      now apply zero_count_iff.
    + intros [Hv Hz]. split; auto. apply no_succs_iff in Hz.
      unfold is_zero. rewrite get_build_outgoing by assumption.
      now apply zero_count_iff.
  - now apply NoDup_filter.
  - now apply NoDup_filter.
Qed.

Lemma roots_and_leaves_are_sources_and_sinks_witness :
  let w := workflow_of chain_workflow in
  (forall v, In v (fst (find_roots_and_leaves w))
             <-> In v (node_ids w) /\ forall e, In e (edges w) -> edge_to e <> v)
  /\ (forall v, In v (snd (find_roots_and_leaves w))
                <-> In v (node_ids w) /\ forall e, In e (edges w) -> edge_from e <> v)
  /\ NoDup (fst (find_roots_and_leaves w))
  /\ NoDup (snd (find_roots_and_leaves w)).
Proof.
  exact (roots_and_leaves_are_sources_and_sinks (workflow_of chain_workflow)
           chain_edges_join_ids).
Defined.

Example chain_roots_and_leaves :
  find_roots_and_leaves (workflow_of chain_workflow) = (["entry"], ["terminal"]).
Proof. reflexivity. Qed.

(** ** Validation without the single-entry requirement *)

(** X12.  With [require_single_user_query] off, the graph phase accepts a
    definition with no [user_query] node or with several: it then asks for an
    [output] node and for the absence of cycles, and measures connectivity
    from the first listed [user_query] node only when there is one. *)
Theorem graph_phase_without_entry_requirement :
  forall w,
    NoDup (node_ids w) ->
    (forall e, In e (edges w) ->
               In (edge_from e) (node_ids w) /\ In (edge_to e) (node_ids w)) ->
    (graph_checks w false = []
     <-> (of_type "output" w <> []
          /\ (forall first others,
                 of_type "user_query" w = first :: others ->
                 forall v, In v (node_ids w) -> reaches (edges w) first v)
          /\ ~ has_cycle (edges w))).
Proof.
  intros w Hnd Hends.
  assert (Hcyc : snd (detect_cycles_and_toposort w)
                 = if Nat.eqb (length (toposort (node_ids w) (edges w)))
                              (length (node_ids w))
                   then [] else [cycle_error]) by reflexivity.
  unfold graph_checks.
  rewrite !ids_of_type_distinct by assumption.
  fold (node_ids w). rewrite nodup_fixed by assumption. rewrite Hcyc.
  cbv beta iota zeta. simpl andb. cbv iota. rewrite app_nil_l.
  split.
  - intros H.
    apply app_eq_nil in H. destruct H as [Hout H].
    apply app_eq_nil in H. destruct H as [Hconn Hc].
    split; [|split].
    + destruct (of_type "output" w); [simpl in Hout; discriminate Hout|congruence].
    + intros first others Heq v Hv. rewrite Heq in Hconn.
      destruct (filter _ (node_ids w)) eqn:Ef; [|discriminate Hconn].
      pose proof (filter_nil_none _ _ Ef v Hv) as Hm.
      apply negb_false_iff in Hm. apply mem_str_In in Hm.
      eapply reachable_from_sound; eauto.
    + apply (no_cycle_iff_full_order (node_ids w) (edges w) Hnd Hends).
      destruct (Nat.eqb_spec (length (toposort (node_ids w) (edges w)))
                             (length (node_ids w))); [assumption|discriminate Hc].
  - intros [Hout [Hreach Hac]].
    apply (no_cycle_iff_full_order (node_ids w) (edges w) Hnd Hends) in Hac.
    rewrite Hac, (Nat.eqb_refl (length (node_ids w))).
    assert (Ho : (if Nat.ltb (length (of_type "output" w)) 1
                  then [item "output" "Workflow must contain at least one 'output' node"]
                  else []) = []).
    { destruct (of_type "output" w); [contradiction|reflexivity]. }
    rewrite Ho. simpl.
    destruct (of_type "user_query" w) as [|first others] eqn:Eq; [reflexivity|].
    rewrite filter_none; [reflexivity|].
    intros v Hv. apply negb_false_iff. apply mem_str_In.
    apply reachable_from_complete; auto. exact (Hreach first others eq_refl v Hv).
Qed.

(** An output node alone: no entry, nothing to reach, no cycle. *)
Definition lone_output_workflow : value :=
  json_workflow [json_node "o" "output"] [].

Lemma graph_phase_without_entry_requirement_witness :
  let w := workflow_of lone_output_workflow in
  graph_checks w false = []
  <-> (of_type "output" w <> []
       /\ (forall first others,
              of_type "user_query" w = first :: others ->
              forall v, In v (node_ids w) -> reaches (edges w) first v)
       /\ ~ has_cycle (edges w)).
Proof.
  apply (graph_phase_without_entry_requirement (workflow_of lone_output_workflow)).
  - repeat constructor. intros [].
  - intros e [].
Defined.

Example lone_output_passes_without_the_requirement :
  validate_workflow lone_output_workflow false = Passed
  /\ validate_workflow lone_output_workflow true
     = WorkflowValidationError [user_query_error].
Proof. split; reflexivity. Qed.

(** * The route [POST /run] ([routes/workflow.py]) *)

(** The request body, as [WorkflowRequest] declares it: the definition is an
    object by its type. *)
Record WorkflowRequest : Type := {
  workflow_definition : dict value;
  user_query : string;
  doc_ids : option (list string);
  workflow_id : option Z
}.

(** The row [ChatLog(workflow_id=, question=, answer=)]; [answer] is the
    result before its encoding by [json.dumps]. *)
Record ChatLog : Type := {
  log_workflow_id : option Z;
  question : string;
  answer : dict value
}.

(** What the handler answers: the body it returns, or the [HTTPException]
    it raises.  [ServerError500Text raised] is the answer of the one branch
    [except Exception as e]: its detail is
    [f"Workflow execution failed: {str(e)}"], for the exception [e] with
    which [execute_workflow_safe] ended. *)
Inductive HttpAnswer : Type :=
| Ok200 (result : dict value) (trace : list (dict value))
| BadRequest400 (validation_errors : list (fstring * fstring))
| ServerError500 (detail : Response)
| ServerError500Text (raised : Outcome).

Section Route.
(** The database session: [persist chat db] is [db.add(chat); db.commit();
    db.refresh(chat)], [None] when one of them raises. *)
Variable Db : Type.
Variable persist : ChatLog -> Db -> option Db.

Definition execute_workflow (env : Env) (req : WorkflowRequest) (w0 : World)
    (db : Db) : HttpAnswer * Db :=
  match execute_workflow_safe env (VDict (workflow_definition req))
                              (user_query req) None w0 with
  | Returned (Failure nid nty msg tr) _ =>
      (* res.get("error") is truthy *)
      (ServerError500 (Failure nid nty msg tr), db)
  | Returned (Success result tr) _ =>
      let chat := {| log_workflow_id := workflow_id req;
                     question := user_query req;
                     answer := result |} in
      (* try: ... except Exception: pass *)
      let db' := match persist chat db with Some db' => db' | None => db end in
      (Ok200 result tr, db')
  | RaisedValidationError errors =>
      (BadRequest400 (map (fun e => (field e, message e)) errors), db)
  | raised => (ServerError500Text raised, db)
  end.
End Route.

(** X13.  With the classes the executor imports, the route never answers 200
    and never writes a chat log.  It answers 400 exactly when the validator
    collected errors, listing them in the validator's order, and 500 with
    the text of the exception otherwise: that of the constructor's
    [TypeError] for every definition the validator accepts, that of the
    validator's own [TypeError] when it crashes. *)
Theorem route_never_answers_200 :
  forall (Db : Type) (persist : ChatLog -> Db -> option Db) env req w0 db,
    imported_classes env ->
    let workflow := VDict (workflow_definition req) in
    let ans := fst (execute_workflow Db persist env req w0 db) in
    (forall items,
        ans = BadRequest400 items
        <-> exists errs,
              validate_workflow workflow true = WorkflowValidationError errs
              /\ items = map (fun e => (field e, message e)) errs)
    /\ (validate_workflow workflow true = Passed ->
        exists exc final,
          execute_workflow_safe env workflow (user_query req) None w0
          = RaisedByConstructor exc final
          /\ ans = ServerError500Text (RaisedByConstructor exc final))
    /\ (validate_workflow workflow true = ValidatorTypeError ->
        ans = ServerError500Text RaisedTypeError)
    /\ (forall result tr, ans <> Ok200 result tr)
    /\ (forall r, ans <> ServerError500 r)
    /\ snd (execute_workflow Db persist env req w0 db) = db.
Proof.
  intros Db persist env req w0 db Hcls workflow ans. subst ans.
  unfold execute_workflow. fold workflow.
  destruct (validate_workflow workflow true) as [|errs|] eqn:Hv.
  - destruct (run_stops_at_entry_constructor env workflow (user_query req) None w0
                Hv Hcls)
      as [entry [node [exc [_ [_ [_ [_ [_ [_ Hrun]]]]]]]]].
    rewrite Hrun. simpl.
    split; [|split; [|split; [|split; [|split]]]]; try discriminate;
      try reflexivity.
    + intros items. split; [discriminate|]. intros [e [He _]]. discriminate He.
    + intros _. eauto.
  - unfold execute_workflow_safe. rewrite Hv. simpl.
    split; [|split; [|split; [|split; [|split]]]]; try discriminate;
      try reflexivity.
    intros items. split.
    + intros [= <-]. now exists errs.
    + intros [e [[= <-] ->]]. reflexivity.
  - unfold execute_workflow_safe. rewrite Hv. simpl.
    split; [|split; [|split; [|split; [|split]]]]; try discriminate;
      try reflexivity.
    intros items. split; [discriminate|]. intros [e [He _]]. discriminate He.
Qed.

Definition chain_request : WorkflowRequest :=
  {| workflow_definition :=
       [("nodes", VList [json_node "entry" "user_query";
                         json_node "A" "knowledge_base";
                         json_node "B" "llm_engine";
                         json_node "terminal" "output"]);
        ("edges", VList [json_edge "entry" "A"; json_edge "A" "B";
                         json_edge "B" "terminal"])];
     user_query := "What is X?";
     doc_ids := None;
     workflow_id := None |}.

Lemma route_never_answers_200_witness :
  let persist := fun (chat : ChatLog) (db : list ChatLog) => Some (db ++ [chat]) in
  let workflow := VDict (workflow_definition chain_request) in
  let ans :=
    fst (execute_workflow (list ChatLog) persist imported_env chain_request
                          fresh_world []) in
  (forall items,
      ans = BadRequest400 items
      <-> exists errs,
            validate_workflow workflow true = WorkflowValidationError errs
            /\ items = map (fun e => (field e, message e)) errs)
  /\ (validate_workflow workflow true = Passed ->
      exists exc final,
        execute_workflow_safe imported_env workflow (user_query chain_request)
                              None fresh_world
        = RaisedByConstructor exc final
        /\ ans = ServerError500Text (RaisedByConstructor exc final))
  /\ (validate_workflow workflow true = ValidatorTypeError ->
      ans = ServerError500Text RaisedTypeError)
  /\ (forall result tr, ans <> Ok200 result tr)
  /\ (forall r, ans <> ServerError500 r)
  /\ snd (execute_workflow (list ChatLog) persist imported_env chain_request
                           fresh_world [])
     = [].
Proof.
  exact (route_never_answers_200 (list ChatLog)
           (fun chat db => Some (db ++ [chat])) imported_env chain_request
           fresh_world [] imported_env_classes).
Defined.

Example chain_request_gets_a_500 :
  execute_workflow (list ChatLog) (fun chat db => Some (db ++ [chat]))
                   imported_env chain_request fresh_world []
  = (ServerError500Text
       (RaisedByConstructor
          "UserQueryComponent.__init__() got an unexpected keyword argument 'id'"
          (seeded_state "entry" "What is X?" None fresh_world)),
     []).
Proof. reflexivity. Qed.

(** * Further properties of the structural phase *)

(** ** What each item of the phase reports *)

(** The id a node declares: its ["id"] when the node is an object and the
    id a non-empty string.  These are the ids the loop adds to [ids]. *)
Definition declared_id (n : value) : option string :=
  match n with
  | VDict nd => nonempty_str (get_or_none "id" nd)
  | _ => None
  end.

Definition duplicate_item (j : nat) (s : string) : ValidationErrorItem :=
  {| field := idx_field "nodes[" j "].id";
     message := [Lit "Duplicate node id '"; Hole (VStr s); Lit "'"] |}.

Definition unknown_item (j : nat) (key s : string) : ValidationErrorItem :=
  {| field := idx_field "edges[" j (String.append "]." key);
     message := [Lit "Unknown node id '"; Hole (VStr s); Lit "'"] |}.

Definition too_many_nodes : ValidationErrorItem :=
  {| field := [Lit "nodes"];
     message := [Lit "Too many nodes (max "; Hole (VInt (Z.of_nat MAX_NODES)); Lit ")"] |}.

Definition too_many_edges : ValidationErrorItem :=
  {| field := [Lit "edges"];
     message := [Lit "Too many edges (max "; Hole (VInt (Z.of_nat MAX_EDGES)); Lit ")"] |}.

(** Items of the node loop and of the edge loop. *)
Definition node_item (x : ValidationErrorItem) : Prop :=
  exists k post, field x = idx_field "nodes[" k post.

Definition edge_item (x : ValidationErrorItem) : Prop :=
  exists k post, field x = idx_field "edges[" k post.

Lemma idx_field_index pre k post pre' k' post' :
  idx_field pre k post = idx_field pre' k' post' -> pre = pre' /\ k = k' /\ post = post'.
Proof.
  unfold idx_field. intros H. inversion H as [[H1 H2 H3]].
  apply Nat2Z.inj in H2. auto.
Qed.

Lemma check_node_dict idx nd ids ids1 es1 :
  check_node idx (VDict nd) ids = Completed (ids1, es1) ->
  exists e_id others,
    es1 = e_id ++ others
    /\ Forall (fun x => field x = idx_field "nodes[" idx "].type"
                        \/ field x = idx_field "nodes[" idx "].config") others
    /\ match nonempty_str (get_or_none "id" nd) with
       | None => ids1 = ids
                 /\ e_id = [{| field := idx_field "nodes[" idx "].id";
                               message := [Lit "Node must have a string 'id'"] |}]
       | Some s =>
           if mem_str s ids
           then ids1 = ids /\ e_id = [duplicate_item idx s]
           else ids1 = ids ++ [s] /\ e_id = []
       end.
Proof.
  unfold check_node.
  destruct (hashable (get_or_none "type" nd)).
  2:{ destruct (nonempty_str (get_or_none "id" nd)) as [s|];
        [destruct (mem_str s ids)|]; simpl; absurd_eq. }
  assert (Hothers : forall (a : list ValidationErrorItem) b,
             Forall (fun x => field x = idx_field "nodes[" idx "].type") a ->
             Forall (fun x => field x = idx_field "nodes[" idx "].config") b ->
             Forall (fun x => field x = idx_field "nodes[" idx "].type"
                              \/ field x = idx_field "nodes[" idx "].config") (a ++ b)).
  { intros a b Ha Hb. apply Forall_app. split.
    - eapply Forall_impl; [|exact Ha]. simpl. auto.
    - eapply Forall_impl; [|exact Hb]. simpl. auto. }
  assert (Hty : Forall (fun x => field x = idx_field "nodes[" idx "].type")
            match get_or_none "type" nd with
            | VStr t =>
                if mem_str t NODE_TYPES then []
                else [{| field := idx_field "nodes[" idx "].type";
                         message := [Lit "Invalid or missing node type '";
                                     Hole (get_or_none "type" nd); Lit "'"] |}]
            | _ => [{| field := idx_field "nodes[" idx "].type";
                       message := [Lit "Invalid or missing node type '";
                                   Hole (get_or_none "type" nd); Lit "'"] |}]
            end).
  { destruct (get_or_none "type" nd); try (constructor; [reflexivity|constructor]).
    destruct (mem_str s NODE_TYPES); constructor; [reflexivity|constructor]. }
  assert (Hcfg : Forall (fun x => field x = idx_field "nodes[" idx "].config")
            match get "config" nd with
            | None | Some (VDict _) => []
            | Some _ => [{| field := idx_field "nodes[" idx "].config";
                            message := [Lit "Config must be an object"] |}]
            end).
  { destruct (get "config" nd) as [[]|]; constructor; try reflexivity; constructor. }
  pose proof (Hothers _ _ Hty Hcfg) as Ho.
  match type of Ho with
  | Forall _ ?o => set (others := o) in *
  end.
  destruct (nonempty_str (get_or_none "id" nd)) as [s|] eqn:Eid.
  - apply nonempty_str_some in Eid. destruct Eid as [Eid Hs].
    destruct (mem_str s ids); intros H.
    + exists [duplicate_item idx s], others.
      split; [|split; [exact Ho|]].
      * unfold duplicate_item. rewrite <- Eid. now inversion H.
      * split; [now inversion H|reflexivity].
    + exists [], others.
      split; [|split; [exact Ho|]].
      * now inversion H.
      * split; [now inversion H|reflexivity].
  - intros H.
    exists [{| field := idx_field "nodes[" idx "].id";
               message := [Lit "Node must have a string 'id'"] |}], others.
    split; [|split; [exact Ho|]].
    + now inversion H.
    + split; [now inversion H|reflexivity].
Qed.

Lemma check_node_report idx n ids ids1 es1 :
  check_node idx n ids = Completed (ids1, es1) ->
  (forall x, In x ids1 <-> In x ids \/ declared_id n = Some x)
  /\ (forall j s, In (duplicate_item j s) es1
                  <-> j = idx /\ declared_id n = Some s /\ In s ids)
  /\ Forall node_item es1.
Proof.
  destruct n as [|b0|z0|q0|str0|l0|nd];
    [ (simpl; intros [= <- <-]; (split; [|split]);
       [ intros x; split; [auto|intros [Hx|Hx]; [auto|discriminate Hx]]
       | intros j s; split;
           [ intros [Heq|[]]; discriminate Heq | intros [_ [Hd _]]; discriminate Hd ]
       | constructor; [eexists _, _; reflexivity|constructor] ]) .. | ].
  intros H. apply check_node_dict in H.
      destruct H as [e_id [others [-> [Ho Hid]]]].
      assert (Hno : forall j s, ~ In (duplicate_item j s) others).
      { intros j s Hin. rewrite Forall_forall in Ho.
        destruct (Ho _ Hin) as [Hf|Hf]; simpl in Hf;
          apply idx_field_index in Hf; destruct Hf as [_ [_ Hf]]; discriminate Hf. }
      assert (Hon : Forall node_item others).
      { eapply Forall_impl; [|exact Ho]. intros x [Hx|Hx]; eexists _, _; exact Hx. }
      simpl declared_id.
      destruct (nonempty_str (get_or_none "id" nd)) as [s0|] eqn:Eid.
      - destruct (mem_str s0 ids) eqn:Em; destruct Hid as [-> ->].
        + apply mem_str_In in Em. split; [|split].
          * intros x. split; [auto|]. intros [Hx|[= <-]]; auto.
          * intros j s. rewrite in_app_iff. split.
            -- intros [[Heq|[]]|Hin]; [|exfalso; exact (Hno j s Hin)].
               inversion Heq as [[Hj Hs]]. apply Nat2Z.inj in Hj. subst. auto.
            -- intros [-> [[= <-] _]]. left. now left.
          * apply Forall_app. split; [|exact Hon].
            constructor; [|constructor]. eexists _, _. reflexivity.
        + apply mem_str_false in Em. split; [|split].
          * intros x. rewrite in_app_iff. split.
            -- intros [Hx|[<-|[]]]; auto.
            -- intros [Hx|[= <-]]; auto. right. now left.
          * intros j s. simpl. split.
            -- intros Hin. exfalso. exact (Hno j s Hin).
            -- intros [_ [[= <-] Hin]]. contradiction.
          * exact Hon.
      - destruct Hid as [-> ->]. split; [|split].
        + intros x. split; [auto|]. intros [Hx|Hx]; [auto|discriminate Hx].
        + intros j s. rewrite in_app_iff. split.
          * intros [[Heq|[]]|Hin]; [discriminate Heq|exfalso; exact (Hno j s Hin)].
          * intros [_ [Hd _]]. discriminate Hd.
        + apply Forall_app. split; [|exact Hon].
          constructor; [|constructor]. eexists _, _. reflexivity.
Qed.

Lemma check_nodes_report ns : forall idx ids errs ids' errs',
  check_nodes idx ns ids errs = Completed (ids', errs') ->
  (forall x, In x ids' <-> In x ids \/ In (Some x) (map declared_id ns))
  /\ exists more,
      errs' = errs ++ more
      /\ Forall node_item more
      /\ forall j s,
          In (duplicate_item j s) more
          <-> idx <= j
              /\ exists n,
                  nth_error ns (j - idx) = Some n
                  /\ declared_id n = Some s
                  /\ (In s ids
                      \/ In (Some s) (map declared_id (firstn (j - idx) ns))).
Proof.
  induction ns as [|n ns IH]; intros idx ids errs ids' errs' H; simpl in H.
  - inversion H; subst. split.
    + intros x. simpl. tauto.
    + exists []. rewrite app_nil_r. split; [reflexivity|]. split; [constructor|].
      intros j s. split; [intros []|].
      intros [_ [n [Hn _]]]. destruct (j - idx); discriminate Hn.
  - destruct (check_node idx n ids) as [[ids1 es1]|] eqn:E; [|discriminate H].
    destruct (check_node_report idx n ids ids1 es1 E) as [Hids1 [Hdup1 Hshape1]].
    destruct (IH (S idx) ids1 (errs ++ es1) ids' errs' H)
      as [Hids' [more [Herrs [Hshape Hdup]]]].
    split.
    + intros x. rewrite Hids', Hids1. simpl.
      split.
      * intros [[Hx|Hx]|Hx]; auto.
      * intros [Hx|[Hx|Hx]]; auto.
    + exists (es1 ++ more). split; [now rewrite Herrs, app_assoc|].
      split; [now apply Forall_app|].
      intros j s. rewrite in_app_iff, Hdup1, Hdup. split.
      * intros [[-> [Hd Hin]]|[Hle [n' [Hn' [Hd Hin]]]]].
        -- split; [lia|]. exists n. rewrite Nat.sub_diag. simpl. auto.
        -- split; [lia|]. exists n'.
           replace (j - idx) with (S (j - S idx)) by lia. simpl.
           split; [exact Hn'|]. split; [exact Hd|].
           destruct Hin as [Hin|Hin]; [|auto].
           apply Hids1 in Hin. destruct Hin as [Hin|Hin]; [auto|].
           right. left. exact Hin.
      * intros [Hle [n' [Hn' [Hd Hin]]]].
        destruct (Nat.eq_dec j idx) as [->|Hne].
        -- left. rewrite Nat.sub_diag in Hn', Hin. simpl in Hn', Hin.
           inversion Hn'; subst n'.
           destruct Hin as [Hin|[]]. auto.
        -- right. split; [lia|].
           replace (j - idx) with (S (j - S idx)) in Hn', Hin by lia.
           simpl in Hn', Hin. exists n'. split; [exact Hn'|]. split; [exact Hd|].
           destruct Hin as [Hin|[Hin|Hin]]; [| |auto].
           ++ left. apply Hids1. auto.
           ++ left. apply Hids1. auto.
Qed.

(** The edge loop. *)
Lemma check_endpoint_report idx key v ids :
  Forall (fun x => field x = idx_field "edges[" idx (String.append "]." key))
         (check_endpoint idx key v ids)
  /\ forall j key' s,
      In (unknown_item j key' s) (check_endpoint idx key v ids)
      <-> j = idx /\ key' = key /\ nonempty_str v = Some s /\ ~ In s ids.
Proof.
  unfold check_endpoint.
  destruct (nonempty_str v) as [s0|] eqn:Ev.
  - pose proof (@nonempty_str_some v s0 Ev) as [Hv Hs0].
    destruct (mem_str s0 ids) eqn:Em.
    + split; [constructor|]. intros j key' s. split; [intros []|].
      intros [_ [_ [[= <-] Hn]]]. apply mem_str_In in Em. contradiction.
    + split; [constructor; [reflexivity|constructor]|].
      apply mem_str_false in Em. intros j key' s. split.
      * intros [Heq|[]]. unfold unknown_item in Heq. rewrite Hv in Heq.
        inversion Heq as [[Hj Hk Hs]]. apply Nat2Z.inj in Hj.
        subst. auto.
      * intros [-> [-> [[= <-] _]]]. left. unfold unknown_item. now rewrite Hv.
  - split; [constructor; [reflexivity|constructor]|].
    intros j key' s. split.
    + intros [Heq|[]]. discriminate Heq.
    + intros [_ [_ [Hd _]]]. discriminate Hd.
Qed.

Lemma check_edge_report idx e ids :
  Forall edge_item (check_edge idx e ids)
  /\ forall j key s,
      In (unknown_item j key s) (check_edge idx e ids)
      <-> j = idx
          /\ (key = "from" \/ key = "to")
          /\ exists ed, e = VDict ed
                        /\ nonempty_str (get_or_none key ed) = Some s
                        /\ ~ In s ids.
Proof.
  unfold check_edge.
  destruct e as [|b0|z0|q0|str0|l0|ed];
    try (split; [constructor; [eexists _, _; reflexivity|constructor]|];
         intros j key s; split;
         [ intros [Heq|[]]; discriminate Heq
         | intros [_ [_ [ed [Hd _]]]]; discriminate Hd ]).
  destruct (check_endpoint_report idx "from" (get_or_none "from" ed) ids) as [Hf1 Hf2].
  destruct (check_endpoint_report idx "to" (get_or_none "to" ed) ids) as [Ht1 Ht2].
  split.
  - apply Forall_app. split.
    + eapply Forall_impl; [|exact Hf1]. intros x Hx. eexists _, _. exact Hx.
    + eapply Forall_impl; [|exact Ht1]. intros x Hx. eexists _, _. exact Hx.
  - intros j key s. rewrite in_app_iff, Hf2, Ht2. split.
    + intros [[-> [-> [Hn Hin]]]|[-> [-> [Hn Hin]]]];
        (split; [reflexivity|]); (split; [auto|]); exists ed; auto.
    + intros [-> [[ -> | -> ] [ed' [[= <-] [Hn Hin]]]]]; auto.
Qed.

Lemma check_edges_report es : forall idx ids,
  Forall edge_item (check_edges idx es ids)
  /\ forall j key s,
      In (unknown_item j key s) (check_edges idx es ids)
      <-> idx <= j
          /\ (key = "from" \/ key = "to")
          /\ exists ed, nth_error es (j - idx) = Some (VDict ed)
                        /\ nonempty_str (get_or_none key ed) = Some s
                        /\ ~ In s ids.
Proof.
  induction es as [|e es IH]; intros idx ids; simpl.
  - split; [constructor|]. intros j key s. split; [intros []|].
    intros [_ [_ [ed [Hn _]]]]. destruct (j - idx); discriminate Hn.
  - destruct (check_edge_report idx e ids) as [He1 He2].
    destruct (IH (S idx) ids) as [IH1 IH2].
    split; [now apply Forall_app|].
    intros j key s. rewrite in_app_iff, He2, IH2. split.
    + intros [[-> [Hk [ed [-> H]]]]|[Hle [Hk [ed [Hn H]]]]].
      * split; [lia|]. split; [exact Hk|]. exists ed.
        rewrite Nat.sub_diag. simpl. auto.
      * split; [lia|]. split; [exact Hk|]. exists ed.
        replace (j - idx) with (S (j - S idx)) by lia. simpl. auto.
    + intros [Hle [Hk [ed [Hn H]]]].
      destruct (Nat.eq_dec j idx) as [->|Hne].
      * left. rewrite Nat.sub_diag in Hn. simpl in Hn. inversion Hn; subst.
        split; [reflexivity|]. split; [exact Hk|]. exists ed. auto.
      * right. split; [lia|]. split; [exact Hk|].
        replace (j - idx) with (S (j - S idx)) in Hn by lia. simpl in Hn.
        exists ed. auto.
Qed.

(** How the list the phase returns is put together. *)
Lemma structural_phase_report workflow errs :
  validate_nodes_and_edges workflow = Completed errs ->
  let ns := get_list "nodes" workflow in
  let es := get_list "edges" workflow in
  exists ids from_nodes,
    errs = ((if MAX_NODES <? length ns then [too_many_nodes] else [])
            ++ (if MAX_EDGES <? length es then [too_many_edges] else []))
           ++ from_nodes ++ check_edges 0 es ids
    /\ (forall x, In x ids <-> In (Some x) (map declared_id ns))
    /\ Forall node_item from_nodes
    /\ (forall j s,
           In (duplicate_item j s) from_nodes
           <-> exists n, nth_error ns j = Some n
                         /\ declared_id n = Some s
                         /\ In (Some s) (map declared_id (firstn j ns))).
Proof.
  intros H ns es. unfold validate_nodes_and_edges in H. fold ns es in H.
  match type of H with
  | context [check_nodes 0 ns [] ?e] =>
      destruct (check_nodes 0 ns [] e) as [[ids errs1]|] eqn:E; [|discriminate H]
  end.
  inversion H; subst; clear H.
  destruct (check_nodes_report ns 0 [] _ ids errs1 E)
    as [Hids [more [-> [Hshape Hdup]]]].
  exists ids, more. split; [now rewrite <- !app_assoc|].
  split; [|split; [exact Hshape|]].
  - intros x. rewrite Hids. simpl. tauto.
  - intros j s. rewrite Hdup, Nat.sub_0_r. split.
    + intros [_ [n [Hn [Hd [[]|Hin]]]]]. eauto.
    + intros [n [Hn [Hd Hin]]]. split; [lia|]. eauto.
Qed.



Lemma limit_items_in x (n m : nat) :
  In x ((if MAX_NODES <? n then [too_many_nodes] else [])
        ++ (if MAX_EDGES <? m then [too_many_edges] else [])) ->
  x = too_many_nodes \/ x = too_many_edges.
Proof.
  intros H. apply in_app_or in H.
  destruct (MAX_NODES <? n); destruct (MAX_EDGES <? m);
    destruct H as [H|H]; simpl in H; intuition.
Qed.

(** ** The size limits *)


(** Fifty-one copies of one node. *)
Definition oversized_workflow : value :=
  json_workflow (repeat (json_node "n" "output") 51) [].


Example oversized_is_rejected :
  exists rest,
    validate_workflow oversized_workflow true
    = WorkflowValidationError (too_many_nodes :: rest)
    /\ length rest = 50.
Proof. eexists. split; vm_compute; reflexivity. Qed.

(** ** Duplicate ids *)

(** X16.  When the structural phase returns, it reports a duplicate id at
    node [j] exactly when node [j] declares a non-empty string id that an
    earlier node of the list declares too: the first occurrence is never
    reported, every later one is, also when the earlier node is invalid in
    some other way. *)
Theorem duplicate_ids_are_reported_at_later_occurrences :
  forall workflow errs,
    validate_nodes_and_edges workflow = Completed errs ->
    forall j s,
      In (duplicate_item j s) errs
      <-> exists n,
            nth_error (get_list "nodes" workflow) j = Some n
            /\ declared_id n = Some s
            /\ In (Some s) (map declared_id (firstn j (get_list "nodes" workflow))).
Proof.
  intros workflow errs H j s.
  destruct (structural_phase_report workflow errs H)
    as [ids [from_nodes [Herrs [_ [_ Hdup]]]]].
  destruct (check_edges_report (get_list "edges" workflow) 0 ids) as [Heshape _].
  rewrite <- Hdup, Herrs, !in_app_iff. split; [|auto].
  intros [Hin|[Hin|Hin]]; [|exact Hin|].
  - exfalso. apply or_comm in Hin. rewrite <- in_app_iff in Hin.
    apply in_app_or in Hin.
    destruct (MAX_NODES <? _); destruct (MAX_EDGES <? _);
      destruct Hin as [Hin|Hin]; simpl in Hin;
      repeat (destruct Hin as [Hin|Hin]; [discriminate Hin|]); exact Hin.
  - exfalso. rewrite Forall_forall in Heshape.
    destruct (Heshape _ Hin) as [k [post Hf]]. simpl in Hf.
    apply idx_field_index in Hf. destruct Hf as [Hf _]. discriminate Hf.
Qed.

Lemma duplicate_ids_are_reported_at_later_occurrences_witness :
  exists errs,
    validate_nodes_and_edges number_type_workflow = Completed errs
    /\ forall j s,
        In (duplicate_item j s) errs
        <-> exists n,
              nth_error (get_list "nodes" number_type_workflow) j = Some n
              /\ declared_id n = Some s
              /\ In (Some s)
                    (map declared_id
                         (firstn j (get_list "nodes" number_type_workflow))).
Proof.
  eexists.
  refine ((fun H => conj H (duplicate_ids_are_reported_at_later_occurrences
                              number_type_workflow _ H)) _).
  vm_compute. reflexivity.
Defined.

(** ** Edges to unknown nodes *)

(** X17.  When the structural phase returns, it reports an unknown node id
    for an endpoint of edge [j] exactly when that endpoint is a non-empty
    string that no node of the list declares as its id: the ids of all
    nodes count, whatever their position in the list and also when their
    type or config is invalid. *)
Theorem unknown_endpoints_are_reported :
  forall workflow errs,
    validate_nodes_and_edges workflow = Completed errs ->
    forall j key s,
      In (unknown_item j key s) errs
      <-> (key = "from" \/ key = "to")
          /\ exists ed,
              nth_error (get_list "edges" workflow) j = Some (VDict ed)
              /\ nonempty_str (get_or_none key ed) = Some s
              /\ ~ In (Some s) (map declared_id (get_list "nodes" workflow)).
Proof.
  intros workflow errs H j key s.
  destruct (structural_phase_report workflow errs H)
    as [ids [from_nodes [Herrs [Hids [Hshape _]]]]].
  destruct (check_edges_report (get_list "edges" workflow) 0 ids) as [_ Hunk].
  assert (Hiff : In (unknown_item j key s) errs
                 <-> In (unknown_item j key s)
                        (check_edges 0 (get_list "edges" workflow) ids)).
  { rewrite Herrs, !in_app_iff. split; [|auto].
    intros [Hin|[Hin|Hin]]; [| |exact Hin].
    - exfalso. apply or_comm in Hin. rewrite <- in_app_iff in Hin.
      apply in_app_or in Hin.
      destruct (MAX_NODES <? _); destruct (MAX_EDGES <? _);
        destruct Hin as [Hin|Hin]; simpl in Hin;
        repeat (destruct Hin as [Hin|Hin]; [discriminate Hin|]); exact Hin.
    - exfalso. rewrite Forall_forall in Hshape.
      destruct (Hshape _ Hin) as [k [post Hf]]. simpl in Hf.
      apply idx_field_index in Hf. destruct Hf as [Hf _]. discriminate Hf. }
  rewrite Hiff, Hunk, Nat.sub_0_r. split.
  - intros [_ [Hk [ed [Hn [Hv Hin]]]]]. split; [exact Hk|].
    exists ed. rewrite <- Hids. auto.
  - intros [Hk [ed [Hn [Hv Hin]]]]. split; [lia|]. split; [exact Hk|].
    exists ed. rewrite Hids. auto.
Qed.

(** An edge to an id that no node declares, and an edge from a node whose
    type is not registered. *)
Definition dangling_edge_workflow : value :=
  json_workflow
    [json_node "q" "user_query"; json_node "x" "bogus"]
    [json_edge "q" "ghost"; json_edge "x" "q"].

Lemma unknown_endpoints_are_reported_witness :
  exists errs,
    validate_nodes_and_edges dangling_edge_workflow = Completed errs
    /\ forall j key s,
        In (unknown_item j key s) errs
        <-> (key = "from" \/ key = "to")
            /\ exists ed,
                nth_error (get_list "edges" dangling_edge_workflow) j = Some (VDict ed)
                /\ nonempty_str (get_or_none key ed) = Some s
                /\ ~ In (Some s)
                        (map declared_id (get_list "nodes" dangling_edge_workflow)).
Proof.
  eexists.
  refine ((fun H => conj H (unknown_endpoints_are_reported
                              dangling_edge_workflow _ H)) _).
  vm_compute. reflexivity.
Defined.

Example dangling_edge_report :
  exists e1,
    validate_workflow dangling_edge_workflow true
    = WorkflowValidationError [e1; unknown_item 0 "to" "ghost"]
    /\ field e1 = idx_field "nodes[" 1 "].type".
Proof. eexists. split; vm_compute; reflexivity. Qed.
